(** * Crossword CSP solver ([generate.py]): shallow embedding and properties

    The methods of [CrosswordCreator] are embedded as functions over an
    explicit solver state ([self.crossword.variables] and [self.domains]).

    - Python sets and dicts are lists in iteration order, because several
      methods depend on which element a loop meets first: an element added
      to a set goes last, and removing elements keeps the order of the
      others.  CPython fixes no such order for sets; the list order stands
      for whichever order a run has.
    - Exceptions ([KeyError], [IndexError], [TypeError]) and running out of
      fuel in one of the two unbounded loops (the [while] of [ac3], the
      recursion of [backtrack]) are results of type [res].
    - crossword.py is not part of the sources: the overlap table is a
      parameter, and [Variable] and [neighbors] follow the specification.
    - [letter_grid] and [print] take the grid ([height], [width] and
      [structure]) as a parameter, and what [print] writes is a list of
      characters.  [save] (image rendering) and [main] (command line and
      files) have no counterpart here. *)

From Stdlib Require Import List String Ascii Arith Bool Lia Permutation Sorted.
Import ListNotations.

(** ** Results of Python computations *)

Inductive exn := KeyError | IndexError | TypeError.

Inductive res (A : Type) : Type :=
| Ok (a : A)
| Raise (e : exn)
| OutOfFuel.

Arguments Ok {A} a.
Arguments Raise {A} e.
Arguments OutOfFuel {A}.

Definition bind {A B} (m : res A) (k : A -> res B) : res B :=
  match m with
  | Ok a => k a
  | Raise e => Raise e
  | OutOfFuel => OutOfFuel
  end.

Declare Scope py_scope.
Delimit Scope py_scope with py.
Notation "x <- m ;; k" := (bind m (fun x => k))
  (at level 61, m at next level, right associativity) : py_scope.
Notation "' p <- m ;; k" := (bind m (fun p => k))
  (at level 61, p pattern, m at next level, right associativity) : py_scope.
Open Scope py_scope.

(** [for a in l: body], the loop state threaded through the iterations. *)
Fixpoint for_in {A S} (l : list A) (body : A -> S -> res S) (s : S) : res S :=
  match l with
  | [] => Ok s
  | a :: l' => s' <- body a s ;; for_in l' body s'
  end.

(** The same loop when the body may [return]: [inr r] leaves the loop (and
    the function) with [r], [inl s] goes on to the next element. *)
Fixpoint for_in_ret {A S R} (l : list A) (body : A -> S -> res (S + R)) (s : S)
  : res (S + R) :=
  match l with
  | [] => Ok (inl s)
  | a :: l' =>
      o <- body a s ;;
      match o with
      | inl s' => for_in_ret l' body s'
      | inr r => Ok (inr r)
      end
  end.

(** ** The problem instance: [Variable] of crossword.py

    The class is the module [Var] here, [Variable] being a reserved word. *)
Module Var.

Inductive Direction := ACROSS | DOWN.

(** Modelled from the spec: crossword.py is not part of the sources.  A
    variable has a start row, a start column, a direction and a required
    length, and two variables are equal iff all four attributes match. *)
Record t := mk { i : nat; j : nat; direction : Direction; length : nat }.

Definition Direction_eqb (d1 d2 : Direction) : bool :=
  match d1, d2 with
  | ACROSS, ACROSS | DOWN, DOWN => true
  | _, _ => false
  end.

Definition eqb (x y : t) : bool :=
  (i x =? i y) && (j x =? j y) && Direction_eqb (direction x) (direction y)
  && (length x =? length y).

End Var.

(** ** Python sets and dicts as lists in iteration order *)

Section PySet.
Context {A : Type} (eqb : A -> A -> bool).

(** [a in s] *)
Definition set_mem (a : A) (s : list A) : bool := existsb (eqb a) s.

(** [s.add(a)].  A new element goes last: one of the orders in which the
    resulting set can iterate.  CPython places an element by its hash, so
    that another run can meet the elements in another order; the
    properties below that depend on the order name it, the others are
    stated on membership. *)
Definition set_add (a : A) (s : list A) : list A :=
  if set_mem a s then s else s ++ [a].

(** [s1 <= s2] *)
Definition set_subset (s1 s2 : list A) : bool :=
  forallb (fun a => set_mem a s2) s1.

(** [s1 == s2] *)
Definition set_eqb (s1 s2 : list A) : bool :=
  set_subset s1 s2 && set_subset s2 s1.

(** [s1 > s2]: on sets, Python's [>] is the proper-superset test. *)
Definition set_gt (s1 s2 : list A) : bool :=
  set_subset s2 s1 && negb (set_eqb s1 s2).
End PySet.

Section PyDict.
Context {V : Type}.

Definition dict := list (Var.t * V).

(** [d.get(k)] *)
Fixpoint dict_get (k : Var.t) (d : dict) : option V :=
  match d with
  | [] => None
  | (k', v) :: d' => if Var.eqb k k' then Some v else dict_get k d'
  end.

(** [d[k]] *)
Definition dict_lookup (k : Var.t) (d : dict) : res V :=
  match dict_get k d with
  | Some v => Ok v
  | None => Raise KeyError
  end.

(** [k in d] *)
Definition dict_mem (k : Var.t) (d : dict) : bool :=
  match dict_get k d with Some _ => true | None => false end.

(** [d[k] = v]: an existing key keeps its place, a new one goes last. *)
Fixpoint dict_set (k : Var.t) (v : V) (d : dict) : dict :=
  match d with
  | [] => [(k, v)]
  | (k', v') :: d' =>
      if Var.eqb k k' then (k', v) :: d' else (k', v') :: dict_set k v d'
  end.

(** [d.pop(k)] for a key that is present *)
Fixpoint dict_pop (k : Var.t) (d : dict) : dict :=
  match d with
  | [] => []
  | (k', v') :: d' => if Var.eqb k k' then d' else (k', v') :: dict_pop k d'
  end.

Definition keys (d : dict) : list Var.t := map fst d.
End PyDict.

Arguments dict V : clear implicits.

(** [word[n]] for [n >= 0] *)
Definition index (word : string) (n : nat) : res ascii :=
  match String.get n word with
  | Some c => Ok c
  | None => Raise IndexError
  end.

(** [list.sort(key=...)] on pairs, by the second component: a stable
    insertion sort. *)
Fixpoint sort_insert {A} (x : A * nat) (l : list (A * nat)) : list (A * nat) :=
  match l with
  | [] => [x]
  | y :: l' => if snd x <=? snd y then x :: l else y :: sort_insert x l'
  end.

Fixpoint sort_by_snd {A} (l : list (A * nat)) : list (A * nat) :=
  match l with
  | [] => []
  | x :: l' => sort_insert x (sort_by_snd l')
  end.

(** The values the solver's methods return to each other. *)
Definition Assignment := dict string.

Inductive pyobj :=
| PyNone
| PyBool (b : bool)
| PyDict (a : Assignment).

(** [o != False] *)
Definition ne_False (o : pyobj) : bool :=
  match o with
  | PyBool false => false
  | _ => true
  end.

(** Truth value of an object in a condition. *)
Definition truthy (o : pyobj) : bool :=
  match o with
  | PyNone => false
  | PyBool b => b
  | PyDict a => negb (Nat.eqb (List.length a) 0)
  end.

(** ** The solver state

    [variables] is [self.crossword.variables] and [domains] is
    [self.domains]; the solver assigns to nothing else. *)
Record State := mkState {
  variables : list Var.t;
  domains : dict (list string)
}.

Definition Arc := (Var.t * Var.t)%type.

Definition Arc_eqb (a b : Arc) : bool :=
  Var.eqb (fst a) (fst b) && Var.eqb (snd a) (snd b).

Section Creator.

(** [self.crossword.overlaps], a dict keyed by ordered pairs of variables,
    taken as a parameter: [None] is a missing key, [Some None] the entry
    [None] (no overlap) and [Some (Some (i, j))] the entry [(i, j)]. *)
Variable overlaps : Var.t -> Var.t -> option (option (nat * nat)).

(** [self.crossword.overlaps[x, y]] *)
Definition overlaps_lookup (x y : Var.t) : res (option (nat * nat)) :=
  match overlaps x y with
  | Some o => Ok o
  | None => Raise KeyError
  end.

(** [self.crossword.overlaps.get((x, y))] *)
Definition overlaps_get (x y : Var.t) : option (nat * nat) :=
  match overlaps x y with
  | Some o => o
  | None => None
  end.

(** Modelled from the spec: [Crossword.neighbors] is in crossword.py, which
    is not part of the sources.  The neighbor set of [x] is the set of all
    other variables that share a nonempty overlap with [x]; it is computed
    from the instance's variable set, here the entry stored for the ordered
    pair [(x, v)], the relation being symmetric. *)
Definition neighbors (st : State) (x : Var.t) : list Var.t :=
  filter (fun v => negb (Var.eqb v x) &&
                   match overlaps_get x v with Some _ => true | None => false end)
         (variables st).

(** [__init__]: every variable starts with a copy of the vocabulary. *)
Definition init (vars : list Var.t) (words : list string) : State :=
  {| variables := vars;
     domains := fold_left (fun d var => dict_set var words d) vars [] |}.

(** [enforce_node_consistency] *)
Definition enforce_node_consistency (st : State) : State :=
  let consitentDomains :=
    fold_left
      (fun (acc : dict (list string)) '(var, words) =>
         let consitentWords :=
           fold_left
             (fun s word =>
                if String.length word =? Var.length var
                then set_add String.eqb word s else s)
             words [] in
         dict_set var consitentWords acc)
      (domains st) [] in
  {| variables := variables st; domains := consitentDomains |}.

(** [revise] *)
Definition revise (x y : Var.t) (st : State) : res (bool * State) :=
  overlap <- overlaps_lookup x y ;;
  match overlap with
  | None => Ok (false, st)
  | Some (o0, o1) =>
      domX <- dict_lookup x (domains st) ;;
      arcConsistentXY <-
        for_in domX
          (fun wordX acc =>
             letherX <- index wordX o0 ;;
             domY <- dict_lookup y (domains st) ;;
             for_in domY
               (fun wordY acc =>
                  letherY <- index wordY o1 ;;
                  Ok (if Ascii.eqb letherX letherY
                      then set_add String.eqb wordX acc else acc))
               acc)
          [] ;;
      if set_eqb String.eqb arcConsistentXY domX then Ok (false, st)
      else Ok (true, {| variables := variables st;
                        domains := dict_set x arcConsistentXY (domains st) |})
  end.


(** One pass of the [while arcs:] loop of [ac3] either returns or leaves a
    new queue. *)
Inductive ac3_outcome :=
| Ac3Return (b : bool)
| Ac3Continue (arcs : list Arc).

(** The body of the loop, for a queue [arc :: arcs] ([arcs.pop(0)]). *)
Definition ac3_body (arc : Arc) (arcs : list Arc) (st : State)
  : res (ac3_outcome * State) :=
  let x := fst arc in
  let y := snd arc in
  '(revised, st') <- revise x y st ;;
  if revised then
    domX <- dict_lookup x (domains st') ;;
    if List.length domX =? 0 then Ok (Ac3Return false, st')
    else
      Ok (Ac3Continue
            (fold_left
               (fun arcs z =>
                  let arcC := (z, x) in
                  if negb (set_mem Arc_eqb arcC arcs) then arcs ++ [arcC]
                  else arcs)
               (neighbors st' x) arcs),
          st')
  else Ok (Ac3Continue arcs, st').

Fixpoint ac3_while (fuel : nat) (arcs : list Arc) (st : State)
  : res (bool * State) :=
  match arcs with
  | [] => Ok (true, st)
  | arc :: arcs' =>
      match fuel with
      | 0 => OutOfFuel
      | S fuel' =>
          '(o, st') <- ac3_body arc arcs' st ;;
          match o with
          | Ac3Return b => Ok (b, st')
          | Ac3Continue arcs'' => ac3_while fuel' arcs'' st'
          end
      end
  end.

(** The initial list of all arcs in the problem:
    [[(x, y) for x in self.domains.keys() for y in self.domains.keys() if y != x]]. *)
Definition all_arcs (st : State) : list Arc :=
  flat_map
    (fun x => map (fun y => (x, y))
                  (filter (fun y => negb (Var.eqb y x)) (keys (domains st))))
    (keys (domains st)).

(** [ac3]: [arcs = None] is the default argument. *)
Definition ac3 (fuel : nat) (arcs : option (list Arc)) (st : State)
  : res (bool * State) :=
  let arcs :=
    match arcs with
    | None => all_arcs st
    | Some arcs => arcs
    end in
  ac3_while fuel arcs st.

(** [assignment_complete] *)
Definition assignment_complete (assignment : Assignment) (st : State) : bool :=
  if List.length (keys assignment) =? List.length (keys (domains st))
  then true else false.

(** [consistent].  The [return True] of line 190 belongs to the body of the
    outer loop, and a loop that ends without returning falls through to the
    end of the function, which returns [None]. *)
Definition consistent (st : State) (assignment : Assignment) : res pyobj :=
  r <- for_in_ret assignment
         (fun '(x, wordX) (_ : unit) =>
            if negb (String.length wordX =? Var.length x)
            then Ok (inr (PyBool false))
            else
              r <- for_in_ret assignment
                     (fun '(y, wordY) (_ : unit) =>
                        if negb (Var.eqb x y) then
                          if String.eqb wordX wordY then Ok (inr (PyBool false))
                          else if set_mem Var.eqb y (neighbors st x) then
                            match overlaps_get x y with
                            | Some (o0, o1) =>
                                cX <- index wordX o0 ;;
                                cY <- index wordY o1 ;;
                                if negb (Ascii.eqb cX cY)
                                then Ok (inr (PyBool false))
                                else Ok (inl tt)
                            | None => Ok (inl tt)
                            end
                          else Ok (inl tt)
                        else Ok (inl tt))
                     tt ;;
              match r with
              | inr v => Ok (inr v)
              | inl _ => Ok (inr (PyBool true))
              end)
         tt ;;
  match r with
  | inr v => Ok v
  | inl _ => Ok PyNone
  end.

(** [order_domain_values] *)
Definition order_domain_values (var : Var.t) (assignment : Assignment)
  (st : State) : res (list string) :=
  domVar <- dict_lookup var (domains st) ;;
  domainOrder <-
    for_in domVar
      (fun wordX (domainOrder : list (string * nat)) =>
         eliminate <-
           for_in (neighbors st var)
             (fun y eliminate =>
                if dict_mem y assignment then Ok eliminate
                else
                  overlapXY <- overlaps_lookup var y ;;
                  domY <- dict_lookup y (domains st) ;;
                  for_in domY
                    (fun wordY eliminate =>
                       match overlapXY with
                       | None => Raise TypeError
                       | Some (o0, o1) =>
                           cX <- index wordX o0 ;;
                           cY <- index wordY o1 ;;
                           Ok (if negb (Ascii.eqb cX cY)
                               then eliminate + 1 else eliminate)
                       end)
                    eliminate)
             0 ;;
         Ok (domainOrder ++ [(wordX, eliminate)]))
      [] ;;
  Ok (map fst (sort_by_snd domainOrder)).

(** [select_unassigned_variable].  [less] starts as [('x', inf)], written
    [None] here: every count is below [inf] and none equals it.  The result
    [None] is the string ['x'].  [variables] is the crossword's own set, and
    [difference_update] removes the assigned variables from it in place. *)
Definition select_unassigned_variable (assignment : Assignment) (st : State)
  : res (option Var.t * State) :=
  let st' :=
    {| variables := filter (fun v => negb (dict_mem v assignment)) (variables st);
       domains := domains st |} in
  less <-
    for_in (variables st')
      (fun var (less : option (Var.t * nat)) =>
         values <- order_domain_values var assignment st' ;;
         let nValues := List.length values in
         match less with
         | None => Ok (Some (var, nValues))
         | Some (lessVar, lessN) =>
             if nValues <? lessN then Ok (Some (var, nValues))
             else if nValues =? lessN then
               let nNeiVar := neighbors st' var in
               let nNeiLessVar := neighbors st' lessVar in
               if set_gt Var.eqb nNeiVar nNeiLessVar
               then Ok (Some (var, nValues)) else Ok less
             else Ok less
         end)
      None ;;
  Ok (option_map fst less, st').

(** [backtrack].  The dict [assignment] is shared by all the calls: each
    call returns the result together with the dict's contents and the
    state when it returns. *)
Fixpoint backtrack (fuel : nat) (assignment : Assignment) (st : State)
  : res (pyobj * Assignment * State) :=
  match fuel with
  | 0 => OutOfFuel
  | S fuel' =>
      if assignment_complete assignment st
      then Ok (PyDict assignment, assignment, st)
      else
        '(var, st1) <- select_unassigned_variable assignment st ;;
        match var with
        | None => Raise KeyError (* [self.domains['x']] *)
        | Some var =>
            values <- order_domain_values var assignment st1 ;;
            r <- for_in_ret values
                   (fun value '(assignment, st) =>
                      let assignment := dict_set var value assignment in
                      '(result, assignment, st) <- backtrack fuel' assignment st ;;
                      if ne_False result
                      then Ok (inr (result, assignment, st))
                      else Ok (inl (dict_pop var assignment, st)))
                   (assignment, st1) ;;
            match r with
            | inr ret => Ok ret
            | inl (assignment, st) => Ok (PyNone, assignment, st)
            end
        end
  end.

(** [solve]; [dict()] is a new, empty assignment. *)
Definition solve (fuel : nat) (st : State) : res (pyobj * State) :=
  let st := enforce_node_consistency st in
  '(_, st) <- ac3 fuel None st ;;
  '(result, _, st) <- backtrack fuel [] st ;;
  Ok (result, st).

(** ** The specification's own wording, for comparison with the code *)

(** Two letters "agree" when both indices are inside their words and the
    letters there are equal. *)
Definition letters_agree (wx wy : string) (o : nat * nat) : bool :=
  match String.get (fst o) wx, String.get (snd o) wy with
  | Some cX, Some cY => Ascii.eqb cX cY
  | _, _ => false
  end.

(** Section 3 of the specification: an assignment is consistent when each
    assigned word's length matches its variable, no two variables share the
    same word, and every pair of assigned neighboring variables agrees at
    the overlap indices. *)
Definition consistent_spec (assignment : Assignment) : bool :=
  forallb
    (fun '(x, wordX) =>
       (String.length wordX =? Var.length x) &&
       forallb
         (fun '(y, wordY) =>
            Var.eqb x y ||
            (negb (String.eqb wordX wordY) &&
             match overlaps_get x y with
             | Some o => letters_agree wordX wordY o
             | None => true
             end))
         assignment)
    assignment.

(** Section 3: an assignment is complete when every variable of the
    instance has an entry. *)
Definition complete_spec (vars : list Var.t) (assignment : Assignment) : bool :=
  forallb (fun v => dict_mem v assignment) vars.

(** Section 4.8 of the specification: a candidate is accepted and searched
    only when the extended assignment passes the consistency predicate; a
    failed search un-assigns the candidate and goes on to the next one.
    Variable and value ordering are the code's. *)
Fixpoint backtrack_spec (fuel : nat) (assignment : Assignment) (st : State)
  : res (pyobj * Assignment * State) :=
  match fuel with
  | 0 => OutOfFuel
  | S fuel' =>
      if assignment_complete assignment st
      then Ok (PyDict assignment, assignment, st)
      else
        '(var, st1) <- select_unassigned_variable assignment st ;;
        match var with
        | None => Raise KeyError
        | Some var =>
            values <- order_domain_values var assignment st1 ;;
            r <- for_in_ret values
                   (fun value '(assignment, st) =>
                      let extended := dict_set var value assignment in
                      if consistent_spec extended then
                        '(result, extended, st) <- backtrack_spec fuel' extended st ;;
                        match result with
                        | PyDict _ => Ok (inr (result, extended, st))
                        | _ => Ok (inl (dict_pop var extended, st))
                        end
                      else Ok (inl (assignment, st)))
                   (assignment, st1) ;;
            match r with
            | inr ret => Ok ret
            | inl (assignment, st) => Ok (PyNone, assignment, st)
            end
        end
  end.

End Creator.

(** ** Concrete instances *)

Open Scope string_scope.
Open Scope list_scope.
Open Scope nat_scope.

(** Three across slots of length 3 on rows 0, 2 and 4 of a grid whose rows
    1 and 3 are blocked: no two slots cross. *)
Definition rowA : Var.t := Var.mk 0 0 Var.ACROSS 3.
Definition rowB : Var.t := Var.mk 2 0 Var.ACROSS 3.
Definition rowC : Var.t := Var.mk 4 0 Var.ACROSS 3.

Definition no_overlaps (x y : Var.t) : option (option (nat * nat)) :=
  if Var.eqb x y then None else Some None.

(** An across and a down slot of length 3 that share the cell (0, 0). *)
Definition crossX : Var.t := Var.mk 0 0 Var.ACROSS 3.
Definition crossY : Var.t := Var.mk 0 0 Var.DOWN 3.

Definition corner_overlaps (x y : Var.t) : option (option (nat * nat)) :=
  if Var.eqb x y then None
  else if (Var.eqb x crossX && Var.eqb y crossY)
          || (Var.eqb x crossY && Var.eqb y crossX)
       then Some (Some (0, 0))
       else Some None.

(** An across slot (row 0) whose last cell is the first cell of a down slot
    (column 2), both of length 3. *)
Definition elbowA : Var.t := Var.mk 0 0 Var.ACROSS 3.
Definition elbowC : Var.t := Var.mk 0 2 Var.DOWN 3.

Definition elbow_overlaps (x y : Var.t) : option (option (nat * nat)) :=
  if Var.eqb x y then None
  else if Var.eqb x elbowA && Var.eqb y elbowC then Some (Some (2, 0))
  else if Var.eqb x elbowC && Var.eqb y elbowA then Some (Some (0, 2))
  else Some None.

(** A 7 x 5 grid with five slots: [gA] (across, row 0) crosses [gC] (down,
    column 2); [gB] (across, row 4) crosses [gD] (down, column 1) and [gE]
    (down, column 3). *)
Definition gA : Var.t := Var.mk 0 0 Var.ACROSS 3.
Definition gB : Var.t := Var.mk 4 0 Var.ACROSS 5.
Definition gC : Var.t := Var.mk 0 2 Var.DOWN 3.
Definition gD : Var.t := Var.mk 4 1 Var.DOWN 3.
Definition gE : Var.t := Var.mk 4 3 Var.DOWN 3.

Definition grid_overlaps (x y : Var.t) : option (option (nat * nat)) :=
  if Var.eqb x y then None
  else if Var.eqb x gA && Var.eqb y gC then Some (Some (2, 0))
  else if Var.eqb x gC && Var.eqb y gA then Some (Some (0, 2))
  else if Var.eqb x gB && Var.eqb y gD then Some (Some (1, 0))
  else if Var.eqb x gD && Var.eqb y gB then Some (Some (0, 1))
  else if Var.eqb x gB && Var.eqb y gE then Some (Some (3, 0))
  else if Var.eqb x gE && Var.eqb y gB then Some (Some (0, 3))
  else Some None.

Definition grid_state : State :=
  {| variables := [gA; gB; gC; gD; gE];
     domains := [(gA, ["CAT"]); (gB, ["HORSE"]); (gC, ["TOE"; "TEN"]);
                 (gD, ["OAK"; "OWL"]); (gE, ["SUN"; "SKY"])] |}.

(** ** Notions used to state the properties *)

(** The word [wx] of [x] has a support in the domain [domY] of [y]: some
    word of [domY] carries at index [o1] the letter [wx] carries at index
    [o0]. *)
Definition supported (o0 o1 : nat) (domY : list string) (wx : string) : Prop :=
  exists wy c,
    In wy domY /\ String.get o0 wx = Some c /\ String.get o1 wy = Some c.

(** The corner instance with CAT and DOG left for the across slot and COW
    for the down slot, and the same state once DOG, which has no support,
    is removed. *)
Definition corner_state : State :=
  {| variables := [crossX; crossY];
     domains := [(crossX, ["CAT"; "DOG"]); (crossY, ["COW"])] |}.

Definition corner_state' : State :=
  {| variables := [crossX; crossY];
     domains := [(crossX, ["CAT"]); (crossY, ["COW"])] |}.

(** A well-formed instance keeps every overlap index inside the slots it
    relates (section 7 of the specification). *)
Definition overlaps_in_range
  (overlaps : Var.t -> Var.t -> option (option (nat * nat))) : Prop :=
  forall x y o0 o1,
    overlaps x y = Some (Some (o0, o1)) -> o0 < Var.length x /\ o1 < Var.length y.

(** Every word of every domain has its variable's length. *)
Definition node_consistent (d : dict (list string)) : Prop :=
  forall v words w,
    dict_get v d = Some words -> In w words -> String.length w = Var.length v.

(** Number of values left for a variable. *)
Definition dom_size (st : State) (v : Var.t) : nat :=
  match dict_get v (domains st) with
  | Some words => List.length words
  | None => 0
  end.

(** [st'] has the variable set and the keys of [st], and each of its
    domains is included in the domain [st] has for the same variable. *)
Definition shrinks (st st' : State) : Prop :=
  variables st' = variables st /\
  keys (domains st') = keys (domains st) /\
  forall v words',
    dict_get v (domains st') = Some words' ->
    exists words, dict_get v (domains st) = Some words /\ incl words' words.

(** A computation that did not run out of fuel: it returned or raised. *)
Definition finishes {A} (m : res A) : Prop := m <> OutOfFuel.

(** Total number of values in the domains. *)
Definition total_size (d : dict (list string)) : nat :=
  list_sum (map (fun entry => List.length (snd entry)) d).

(** What bounds the number of passes the loop of [ac3] can still make: a
    pass that changes no domain consumes an arc, a pass that changes one
    removes a value and adds at most one arc per variable. *)
Definition ac3_measure (st : State) (arcs : list Arc) : nat :=
  total_size (domains st) * S (List.length (variables st)) + List.length arcs.

(** Fuel that is enough for [solve] on the instance [st]. *)
Definition enough_fuel (st : State) : nat :=
  let st1 := enforce_node_consistency st in
  S (ac3_measure st1 (all_arcs st1) + List.length (variables st1)).

(** A well-formed instance stores an overlap entry (possibly [None]) for
    every ordered pair of distinct variables. *)
Definition overlaps_defined
  (overlaps : Var.t -> Var.t -> option (option (nat * nat)))
  (vars : list Var.t) : Prop :=
  forall x y, In x vars -> In y vars -> x <> y -> overlaps x y <> None.

(** The solver state of an instance with variables [vars]: every variable
    has a domain, of words of its length, and the crossword's variable set
    holds variables of the instance only. *)
Definition state_wf (vars : list Var.t) (st : State) : Prop :=
  keys (domains st) = vars /\
  incl (variables st) vars /\
  node_consistent (domains st).

(** A queue of arcs between distinct variables of the instance. *)
Definition arcs_wf (vars : list Var.t) (arcs : list Arc) : Prop :=
  forall x y, In (x, y) arcs -> In x vars /\ In y vars /\ x <> y.

(** An assignment built by the search: it binds variables of the instance,
    each once, to words of their domains, and every variable of the
    instance is either still in the crossword's variable set or assigned. *)
Definition assignment_wf (vars : list Var.t) (st : State) (a : Assignment)
  : Prop :=
  NoDup (keys a) /\
  incl (keys a) vars /\
  (forall v, In v vars -> In v (variables st) \/ dict_mem v a = true) /\
  (forall v w, In (v, w) a ->
               exists words, dict_get v (domains st) = Some words /\ In w words).

(** The arc from [x] to [y] is consistent: every word left for [x] has a
    support among the words left for [y] at the overlap indices (an arc
    between slots that do not overlap is consistent). *)
Definition arc_consistent
  (overlaps : Var.t -> Var.t -> option (option (nat * nat)))
  (st : State) (x y : Var.t) : Prop :=
  forall o0 o1 domX domY,
    overlaps x y = Some (Some (o0, o1)) ->
    dict_get x (domains st) = Some domX ->
    dict_get y (domains st) = Some domY ->
    forall wx, In wx domX -> supported o0 o1 domY wx.

(** Two slots overlap in both directions or in none. *)
Definition overlaps_symmetric
  (overlaps : Var.t -> Var.t -> option (option (nat * nat))) : Prop :=
  forall x y o, overlaps x y = Some (Some o) ->
                exists o', overlaps y x = Some (Some o').

(** The number of values the word [wordX] of [var] rules out: for every
    neighbor of [var] that is not assigned, the words of its domain that
    do not carry the letter of [wordX] at the overlap. *)
Definition ruled_out
  (overlaps : Var.t -> Var.t -> option (option (nat * nat)))
  (st : State) (assignment : Assignment) (var : Var.t) (wordX : string) : nat :=
  list_sum
    (map
       (fun y =>
          if dict_mem y assignment then 0
          else
            match overlaps_get overlaps var y, dict_get y (domains st) with
            | Some o, Some domY =>
                List.length
                  (filter (fun wordY => negb (letters_agree wordX wordY o)) domY)
            | _, _ => 0
            end)
       (neighbors overlaps st var)).

(** ** Presentation: [letter_grid] and [print]

    [self.crossword.height], [self.crossword.width] and
    [self.crossword.structure] (a list of rows of booleans, [True] for a
    cell that can be filled) are taken as parameters. *)
Record Grid := mkGrid {
  height : nat;
  width : nat;
  structure : list (list bool)
}.

(** The 2D array [letter_grid] builds: [None] or a letter per cell. *)
Definition Letters := list (list (option ascii)).

(** [l[n]] for [n >= 0] *)
Definition list_index {A} (l : list A) (n : nat) : res A :=
  match nth_error l n with
  | Some a => Ok a
  | None => Raise IndexError
  end.

(** The list [l] once [l[n] = a] is done, for [n] in range. *)
Fixpoint list_set {A} (l : list A) (n : nat) (a : A) : list A :=
  match l, n with
  | [], _ => []
  | _ :: l', 0 => a :: l'
  | b :: l', S n' => b :: list_set l' n' a
  end.

(** [letters[i][j] = c] *)
Definition assign_cell (letters : Letters) (i j : nat) (c : ascii)
  : res Letters :=
  row <- list_index letters i ;;
  if j <? List.length row
  then Ok (list_set letters i (list_set row j (Some c)))
  else Raise IndexError.

(** [letter_grid] *)
Definition letter_grid (g : Grid) (assignment : Assignment) : res Letters :=
  let letters := repeat (repeat None (width g)) (height g) in
  for_in assignment
    (fun '(variable, word) letters =>
       let direction := Var.direction variable in
       for_in (seq 0 (String.length word))
         (fun k letters =>
            let i := Var.i variable
                     + (if Var.Direction_eqb direction Var.DOWN then k else 0) in
            let j := Var.j variable
                     + (if Var.Direction_eqb direction Var.ACROSS then k else 0) in
            c <- index word k ;;
            assign_cell letters i j c)
         letters)
    letters.

(** A character written to the terminal: an ASCII character or the full
    block U+2588 that [print] writes for a blocked cell. *)
Inductive pychar :=
| Chr (c : ascii)
| FullBlock.

Definition newline : pychar := Chr (ascii_of_nat 10).
Definition space : pychar := Chr (ascii_of_nat 32).

(** Statements that write to the terminal: from the text written so far to
    the text written when the statement ends, and how it ends.  What was
    written before an exception stays written. *)
Definition out (A : Type) : Type := list pychar -> list pychar * res A.

Definition bind_out {A B} (m : out A) (k : A -> out B) : out B :=
  fun text =>
    match m text with
    | (text', Ok a) => k a text'
    | (text', Raise e) => (text', Raise e)
    | (text', OutOfFuel) => (text', OutOfFuel)
    end.

Definition lift {A} (m : res A) : out A := fun text => (text, m).

(** [print(c, end="")] *)
Definition write (c : pychar) : out unit := fun text => (text ++ [c], Ok tt).

Notation "x <~ m ;; k" := (bind_out m (fun x => k))
  (at level 61, m at next level, right associativity) : py_scope.

Fixpoint for_out {A} (l : list A) (body : A -> out unit) : out unit :=
  match l with
  | [] => lift (Ok tt)
  | a :: l' => _ <~ body a ;; for_out l' body
  end.

(** [print] *)
Definition print (g : Grid) (assignment : Assignment) : out unit :=
  letters <~ lift (letter_grid g assignment) ;;
  for_out (seq 0 (height g))
    (fun i =>
       _ <~ for_out (seq 0 (width g))
              (fun j =>
                 fillable <~ lift (row <- list_index (structure g) i ;;
                                   list_index row j) ;;
                 if (fillable : bool) then
                   letter <~ lift (row <- list_index letters i ;;
                                   list_index row j) ;;
                   write (match letter with
                          | Some c => Chr c
                          | None => space
                          end)
                 else write FullBlock) ;;
       write newline).

(** The cell [(i, j)] of a 2D array ([None] outside the array). *)
Definition cell {A} (rows : list (list (option A))) (i j : nat) : option A :=
  match nth_error rows i with
  | Some row => match nth_error row j with Some c => c | None => None end
  | None => None
  end.

(** The slot of [variable], filled with [word], lies inside the grid. *)
Definition slot_inside (g : Grid) (variable : Var.t) (word : string) : bool :=
  (String.length word =? 0) ||
  match Var.direction variable with
  | Var.ACROSS =>
      (Var.i variable <? height g)
      && (Var.j variable + String.length word <=? width g)
  | Var.DOWN =>
      (Var.j variable <? width g)
      && (Var.i variable + String.length word <=? height g)
  end.

(** The position in its word of the letter the slot of [variable] has in
    the cell [(i, j)], if it passes through it. *)
Definition slot_offset (variable : Var.t) (i j : nat) : option nat :=
  match Var.direction variable with
  | Var.ACROSS =>
      if (i =? Var.i variable) && (Var.j variable <=? j)
      then Some (j - Var.j variable) else None
  | Var.DOWN =>
      if (j =? Var.j variable) && (Var.i variable <=? i)
      then Some (i - Var.i variable) else None
  end.

(** The letter the slot of [variable], filled with [word], has in the cell
    [(i, j)], if it passes through it. *)
Definition slot_letter (variable : Var.t) (word : string) (i j : nat)
  : option ascii :=
  match slot_offset variable i j with
  | Some k => String.get k word
  | None => None
  end.

(** The letter of the last entry of the assignment whose slot passes
    through the cell [(i, j)]. *)
Definition last_letter (assignment : Assignment) (i j : nat) : option ascii :=
  fold_left
    (fun shown '(variable, word) =>
       match slot_letter variable word i j with
       | Some c => Some c
       | None => shown
       end)
    assignment None.

(** A 2D array of [height g] rows of [width g] cells. *)
Definition shaped {A} (g : Grid) (rows : list (list A)) : Prop :=
  List.length rows = height g /\
  Forall (fun row => List.length row = width g) rows.

(** A rectangular grid with a slot across its first row, as [print] shows
    it: three fillable cells above three blocked ones. *)
Definition banner : Grid :=
  {| height := 2; width := 3;
     structure := [[true; true; true]; [false; false; false]] |}.

Definition bannerA : Var.t := Var.mk 0 0 Var.ACROSS 3.

(** What [print] writes for a cell. *)
Definition shown_cell (g : Grid) (letters : Letters) (i j : nat) : pychar :=
  if nth j (nth i (structure g) []) false
  then match cell letters i j with Some c => Chr c | None => space end
  else FullBlock.

(** * Properties *)

(** ** Equality tests decide equality *)

Lemma Var_eqb_eq (x y : Var.t) : Var.eqb x y = true <-> x = y.
Proof.
  destruct x as [i1 j1 d1 l1], y as [i2 j2 d2 l2]; unfold Var.eqb; simpl.
  rewrite !andb_true_iff, !Nat.eqb_eq. split.
  - intros [[[-> ->] Hd] ->]. destruct d1, d2; simpl in Hd; congruence.
  - intros H; injection H as -> -> -> ->. destruct d2; auto.
Qed.

Lemma Var_eqb_refl (x : Var.t) : Var.eqb x x = true.
Proof. now apply Var_eqb_eq. Qed.

Lemma Var_eqb_neq (x y : Var.t) : Var.eqb x y = false <-> x <> y.
Proof.
  split.
  - intros H E. apply Var_eqb_eq in E. congruence.
  - intros H. destruct (Var.eqb x y) eqn:E; auto. apply Var_eqb_eq in E. contradiction.
Qed.

Lemma Arc_eqb_eq (a b : Arc) : Arc_eqb a b = true <-> a = b.
Proof.
  destruct a as [a1 a2], b as [b1 b2]; unfold Arc_eqb; simpl.
  rewrite andb_true_iff, !Var_eqb_eq. split.
  - intros [-> ->]; reflexivity.
  - intros H; injection H as -> ->; auto.
Qed.

(** ** Sets *)

Section PySetFacts.
Context {A : Type} (eqb : A -> A -> bool).
Hypothesis eqb_eq : forall a b, eqb a b = true <-> a = b.

Lemma set_mem_In (a : A) (s : list A) : set_mem eqb a s = true <-> In a s.
Proof.
  unfold set_mem. rewrite existsb_exists. split.
  - intros [b [Hb E]]. apply eqb_eq in E. now subst.
  - intros H. exists a. split; auto. now apply eqb_eq.
Qed.

Lemma set_mem_not_In (a : A) (s : list A) : set_mem eqb a s = false <-> ~ In a s.
Proof.
  rewrite <- set_mem_In. destruct (set_mem eqb a s); split; congruence.
Qed.

Lemma set_add_In (a b : A) (s : list A) :
  In b (set_add eqb a s) <-> b = a \/ In b s.
Proof.
  unfold set_add. destruct (set_mem eqb a s) eqn:E.
  - apply set_mem_In in E. split; [auto | intros [-> | H]; auto].
  - rewrite in_app_iff. simpl. intuition congruence.
Qed.

Lemma set_add_NoDup (a : A) (s : list A) : NoDup s -> NoDup (set_add eqb a s).
Proof.
  intros H. unfold set_add. destruct (set_mem eqb a s) eqn:E; auto.
  apply set_mem_not_In in E.
  apply NoDup_app; auto.
  - repeat constructor; simpl; tauto.
  - intros x Hx [-> | []]. contradiction.
Qed.

Lemma set_subset_incl (s1 s2 : list A) :
  set_subset eqb s1 s2 = true <-> incl s1 s2.
Proof.
  unfold set_subset, incl. rewrite forallb_forall.
  split; intros H a Ha; apply set_mem_In; auto.
Qed.

Lemma set_eqb_iff (s1 s2 : list A) :
  set_eqb eqb s1 s2 = true <-> (forall a, In a s1 <-> In a s2).
Proof.
  unfold set_eqb. rewrite andb_true_iff, !set_subset_incl. unfold incl.
  split.
  - intros [H1 H2] a; split; auto.
  - intros H; split; intros a; apply H.
Qed.

Lemma set_subset_false (s1 s2 : list A) :
  set_subset eqb s1 s2 = false -> exists a, In a s1 /\ ~ In a s2.
Proof.
  unfold set_subset. induction s1 as [|a s1 IH]; simpl; [discriminate|].
  destruct (set_mem eqb a s2) eqn:E; simpl.
  - intros H. destruct (IH H) as [b [Hb Hn]]. exists b; auto.
  - intros _. exists a. split; auto. now apply set_mem_not_In.
Qed.

End PySetFacts.

(** ** Dicts *)

Section PyDictFacts.
Context {V : Type}.
Implicit Types (d : dict V) (k : Var.t) (v : V).

Lemma dict_get_In k v d : dict_get k d = Some v -> In (k, v) d.
Proof.
  induction d as [|[k' v'] d IH]; simpl; [discriminate|].
  destruct (Var.eqb k k') eqn:E.
  - apply Var_eqb_eq in E. subst. intros [= ->]. auto.
  - auto.
Qed.

Lemma dict_get_keys k d : In k (keys d) <-> exists v, dict_get k d = Some v.
Proof.
  induction d as [|[k' v'] d IH]; simpl.
  - split; [tauto | intros [v H]; discriminate].
  - destruct (Var.eqb k k') eqn:E.
    + apply Var_eqb_eq in E. subst. split; eauto.
    + apply Var_eqb_neq in E. rewrite <- IH. split; [intros [H|H]|]; auto.
      congruence.
Qed.

Lemma dict_mem_keys k d : dict_mem k d = true <-> In k (keys d).
Proof.
  unfold dict_mem. rewrite dict_get_keys.
  destruct (dict_get k d); split; eauto; try discriminate.
  intros [v H]; discriminate.
Qed.

Lemma dict_get_set_same k v d : dict_get k (dict_set k v d) = Some v.
Proof.
  induction d as [|[k' v'] d IH]; simpl.
  - now rewrite Var_eqb_refl.
  - destruct (Var.eqb k k') eqn:E; simpl; rewrite E; auto.
Qed.

Lemma dict_get_set_other k k' v d :
  k' <> k -> dict_get k' (dict_set k v d) = dict_get k' d.
Proof.
  intros Hne. induction d as [|[k0 v0] d IH]; simpl.
  - apply Var_eqb_neq in Hne. now rewrite Hne.
  - destruct (Var.eqb k k0) eqn:E; simpl.
    + apply Var_eqb_eq in E. subst k0.
      apply Var_eqb_neq in Hne. now rewrite Hne.
    + destruct (Var.eqb k' k0); auto.
Qed.

Lemma keys_dict_set_in k v d : In k (keys d) -> keys (dict_set k v d) = keys d.
Proof.
  induction d as [|[k' v'] d IH]; simpl; [tauto|].
  destruct (Var.eqb k k') eqn:E; simpl; auto.
  intros [H|H].
  - subst. now rewrite Var_eqb_refl in E.
  - now rewrite IH.
Qed.

Lemma dict_set_new k v d : ~ In k (keys d) -> dict_set k v d = d ++ [(k, v)].
Proof.
  induction d as [|[k' v'] d IH]; simpl; auto.
  intros H. destruct (Var.eqb k k') eqn:E.
  - apply Var_eqb_eq in E. subst. tauto.
  - rewrite IH; auto.
Qed.

End PyDictFacts.

(** ** Loops *)

(** A loop whose body never raises on the elements it meets establishes its
    invariant, indexed by the elements already visited. *)
Lemma for_in_total {A S} (I : list A -> S -> Prop) (l : list A)
  (body : A -> S -> res S) :
  (forall pre a s, In a l -> I pre s ->
                   exists s', body a s = Ok s' /\ I (pre ++ [a]) s') ->
  forall pre s, I pre s -> exists s', for_in l body s = Ok s' /\ I (pre ++ l) s'.
Proof.
  induction l as [|a l IH]; simpl; intros Hstep pre s Hs.
  - exists s. rewrite app_nil_r. auto.
  - destruct (Hstep pre a s) as [s1 [E1 H1]]; auto.
    rewrite E1.
    destruct (IH (fun pre a s Hin => Hstep pre a s (or_intror Hin)) _ _ H1)
      as [s2 [E2 H2]].
    exists s2. split; auto. now rewrite <- app_assoc in H2.
Qed.

(** A loop that returned normally has established its invariant. *)
Lemma for_in_partial {A S} (I : list A -> S -> Prop) (l : list A)
  (body : A -> S -> res S) :
  (forall pre a s s', In a l -> I pre s -> body a s = Ok s' -> I (pre ++ [a]) s') ->
  forall pre s s', I pre s -> for_in l body s = Ok s' -> I (pre ++ l) s'.
Proof.
  induction l as [|a l IH]; simpl; intros Hstep pre s s' Hs E.
  - injection E as <-. now rewrite app_nil_r.
  - destruct (body a s) as [s1| |] eqn:E1; simpl in E; try discriminate.
    replace (pre ++ a :: l) with ((pre ++ [a]) ++ l) by now rewrite <- app_assoc.
    apply IH with (s := s1).
    + intros pre0 a0 s0 s0' Hin. apply Hstep. now right.
    + apply Hstep with (s := s); auto.
    + exact E.
Qed.

(** ** Strings *)

Lemma get_in_range (w : string) (n : nat) :
  n < String.length w -> exists c, String.get n w = Some c.
Proof.
  revert n. induction w as [|c w IH]; simpl; intros n H; [lia|].
  destruct n; eauto. apply IH. lia.
Qed.

Lemma index_Ok (w : string) (n : nat) (c : ascii) :
  index w n = Ok c <-> String.get n w = Some c.
Proof.
  unfold index. destruct (String.get n w); split; congruence.
Qed.

(** ** The five-slot grid is well formed *)

Lemma grid_overlaps_in_range : overlaps_in_range grid_overlaps.
Proof.
  intros x y o0 o1. unfold grid_overlaps.
  repeat match goal with
         | |- context [if ?c then _ else _] => destruct c eqn:?
         end; try discriminate; intros [= <- <-];
    match goal with
    | H : (Var.eqb x _ && Var.eqb y _) = true |- _ =>
        apply andb_true_iff in H; destruct H as [Hx Hy];
        apply Var_eqb_eq in Hx, Hy; subst; simpl; lia
    end.
Qed.

Lemma grid_variables_NoDup : NoDup [gA; gB; gC; gD; gE].
Proof. repeat constructor; simpl; intuition discriminate. Qed.

Lemma grid_overlaps_defined : overlaps_defined grid_overlaps [gA; gB; gC; gD; gE].
Proof.
  intros x y _ _ Hxy. unfold grid_overlaps.
  apply Var_eqb_neq in Hxy. rewrite Hxy.
  repeat match goal with
         | |- context [if ?c then _ else _] => destruct c
         end; discriminate.
Qed.

(** ** The consistency predicate *)

(** C10: applied to the empty assignment, which violates no constraint,
    [consistent] returns [None] and not [True]: the outer loop is never
    entered and the function falls through; the value is falsy and is not a
    boolean. *)
Theorem consistent_empty_returns_None :
  forall overlaps st,
    consistent overlaps st [] = Ok PyNone /\
    consistent_spec overlaps [] = true /\
    truthy PyNone = false /\
    (forall b, PyNone <> PyBool b).
Proof.
  intros overlaps st. repeat split; try reflexivity. intros b; discriminate.
Qed.

(** The outer loop of [consistent] returns in its first iteration: the
    result for an assignment is the result for its first entry checked
    against all entries, whatever the later entries are among themselves. *)
Lemma consistent_first_entry overlaps st x wordX rest :
  String.length wordX = Var.length x ->
  (forall y wordY, In (y, wordY) rest ->
     x <> y /\ wordX <> wordY /\ overlaps_get overlaps x y = None) ->
  consistent overlaps st ((x, wordX) :: rest) = Ok (PyBool true).
Proof.
  intros Hlen Hrest. unfold consistent.
  simpl. rewrite Hlen, Nat.eqb_refl. simpl.
  rewrite Var_eqb_refl. simpl.
  match goal with
  | |- context [for_in_ret rest ?body tt] =>
      assert (E : for_in_ret rest body tt = Ok (inl tt))
  end.
  { induction rest as [|[y wordY] rest IH]; [reflexivity|].
    simpl.
    destruct (Hrest y wordY (or_introl eq_refl)) as [Hxy [Hw Ho]].
    apply Var_eqb_neq in Hxy. rewrite Hxy. simpl.
    destruct (String.eqb wordX wordY) eqn:Ew.
    - apply String.eqb_eq in Ew. contradiction.
    - rewrite Ho.
      destruct (set_mem Var.eqb y (neighbors overlaps st x)); simpl;
        apply IH; intros; apply Hrest; now right. }
  rewrite E. reflexivity.
Qed.

(** C3 (defect of the code): [consistent] answers [True] for an assignment
    in which two variables other than the first hold the same word, and for
    one in which a later variable holds a word of the wrong length; the
    specification's predicate rejects both. *)
Theorem consistent_checks_first_variable_only :
  let st := init [rowA; rowB; rowC] ["CAT"; "DOG"] in
  let reuse := [(rowA, "CAT"); (rowB, "DOG"); (rowC, "DOG")] in
  let long := [(rowA, "CAT"); (rowB, "HORSE")] in
  consistent no_overlaps st reuse = Ok (PyBool true) /\
  consistent_spec no_overlaps reuse = false /\
  consistent no_overlaps st long = Ok (PyBool true) /\
  consistent_spec no_overlaps long = false.
Proof. repeat split; reflexivity. Qed.

(** ** Backtracking search *)

(** [backtrack] never returns a boolean: its result passes [!= False]. *)
Lemma backtrack_ne_False overlaps fuel :
  forall assignment st result assignment' st',
    backtrack overlaps fuel assignment st = Ok (result, assignment', st') ->
    ne_False result = true.
Proof.
  induction fuel as [|fuel IH]; intros a st result a' st' E; [discriminate|].
  simpl in E.
  destruct (assignment_complete a st).
  { injection E as <- _ _. reflexivity. }
  destruct (select_unassigned_variable overlaps a st) as [[[var|] st1]| |];
    simpl in E; try discriminate.
  destruct (order_domain_values overlaps var a st1) as [values| |];
    simpl in E; try discriminate.
  destruct values as [|value values]; simpl in E.
  { injection E as <- _ _. reflexivity. }
  destruct (backtrack overlaps fuel (dict_set var value a) st1)
    as [[[r a1] s1]| |] eqn:Er; simpl in E; try discriminate.
  rewrite (IH _ _ _ _ _ Er) in E. simpl in E.
  injection E as <- _ _. eapply IH; eauto.
Qed.

(** What the loop of [backtrack] amounts to: the first candidate is assigned
    without any test, and whatever the search below it returns, [None]
    included, is returned at once; no second candidate is ever tried. *)
Lemma backtrack_first_candidate overlaps fuel assignment st var st1 value values :
  assignment_complete assignment st = false ->
  select_unassigned_variable overlaps assignment st = Ok (Some var, st1) ->
  order_domain_values overlaps var assignment st1 = Ok (value :: values) ->
  backtrack overlaps (S fuel) assignment st =
  backtrack overlaps fuel (dict_set var value assignment) st1.
Proof.
  intros Hc Hs Ho. simpl. rewrite Hc, Hs. simpl. rewrite Ho. simpl.
  destruct (backtrack overlaps fuel (dict_set var value assignment) st1)
    as [[[r a1] s1]| |] eqn:Er; simpl; auto.
  now rewrite (backtrack_ne_False _ _ _ _ _ _ _ Er).
Qed.

(** With no candidate left for the selected variable, [backtrack] returns
    [None]. *)
Lemma backtrack_no_candidate overlaps fuel assignment st var st1 :
  assignment_complete assignment st = false ->
  select_unassigned_variable overlaps assignment st = Ok (Some var, st1) ->
  order_domain_values overlaps var assignment st1 = Ok [] ->
  backtrack overlaps (S fuel) assignment st = Ok (PyNone, assignment, st1).
Proof.
  intros Hc Hs Ho. simpl. rewrite Hc, Hs. simpl. rewrite Ho. reflexivity.
Qed.

(** C1 (defect of the code): on two slots that do not cross and the
    vocabulary CAT, DOG, [solve] returns an assignment that gives CAT to
    both slots, although giving CAT and DOG is complete and consistent;
    and on two crossing slots it returns CAN across and TOE down, whose
    letters at the shared cell differ, although CAT and TOE agree. *)
Theorem solve_returns_inconsistent_assignment :
  let instance := init [rowA; rowB] ["CAT"; "DOG"] in
  let returned := [(rowA, "CAT"); (rowB, "CAT")] in
  let crossing := init [elbowA; elbowC] ["CAN"; "TOE"; "CAT"; "NET"] in
  let returned' := [(elbowC, "TOE"); (elbowA, "CAN")] in
  (exists st', solve no_overlaps 3 instance = Ok (PyDict returned, st')) /\
  complete_spec [rowA; rowB] returned = true /\
  consistent_spec no_overlaps returned = false /\
  consistent_spec no_overlaps [(rowA, "CAT"); (rowB, "DOG")] = true /\
  (exists st', solve elbow_overlaps 7 crossing = Ok (PyDict returned', st')) /\
  complete_spec [elbowA; elbowC] returned' = true /\
  consistent_spec elbow_overlaps returned' = false /\
  consistent_spec elbow_overlaps [(elbowC, "TOE"); (elbowA, "CAT")] = true.
Proof.
  repeat split; try reflexivity; eexists; vm_compute; reflexivity.
Qed.

(** C2 (defect of the code): with CAT assigned to the first slot,
    [backtrack] takes the candidate CAT for the second slot, which fails
    the consistency predicate against the assignment so far, and returns
    the extended assignment; the procedure of the specification skips CAT
    and returns the assignment with DOG. *)
Theorem backtrack_accepts_inconsistent_candidate :
  let st := enforce_node_consistency (init [rowA; rowB] ["CAT"; "DOG"]) in
  let st1 := {| variables := [rowB]; domains := domains st |} in
  let sofar := [(rowA, "CAT")] in
  select_unassigned_variable no_overlaps sofar st = Ok (Some rowB, st1) /\
  order_domain_values no_overlaps rowB sofar st1 = Ok ["CAT"; "DOG"] /\
  consistent_spec no_overlaps (dict_set rowB "CAT" sofar) = false /\
  backtrack no_overlaps 2 sofar st
  = Ok (PyDict [(rowA, "CAT"); (rowB, "CAT")],
        [(rowA, "CAT"); (rowB, "CAT")], st1) /\
  backtrack_spec no_overlaps 2 sofar st
  = Ok (PyDict [(rowA, "CAT"); (rowB, "DOG")],
        [(rowA, "CAT"); (rowB, "DOG")], st1).
Proof. repeat split; reflexivity. Qed.

(** ** The crossword's variable set *)

(** C7 (defect of the code): [select_unassigned_variable] removes the
    assigned variables from the crossword's own variable set, so the set
    is smaller after the call, and after [solve], than before; a second
    [solve] on the same crossword then finds no variable to select and
    raises [KeyError]. *)
Theorem select_unassigned_variable_shrinks_variables :
  let st := init [rowA; rowB] ["CAT"; "DOG"] in
  variables st = [rowA; rowB] /\
  (exists r st', select_unassigned_variable no_overlaps [(rowA, "CAT")] st
                 = Ok (r, st') /\ variables st' = [rowB]) /\
  (exists r st', solve no_overlaps 3 st = Ok (r, st') /\
                 variables st' = [rowB] /\
                 solve no_overlaps 3 st' = Raise KeyError).
Proof.
  repeat split; try reflexivity; do 2 eexists; repeat split;
    vm_compute; reflexivity.
Qed.

(** ** Variable ordering *)

(** C8 (defect of the code): in the state that node and arc consistency
    reach on the five-slot grid, [gA] and [gB] both have one value left
    and every other slot has two; [gB] has two neighbors and [gA] one, yet
    [select_unassigned_variable] returns [gA], because the neighbor sets
    are compared with the proper-superset test and not by size. *)
Theorem select_ignores_degree_on_tie :
  ac3 grid_overlaps 30 None
      (enforce_node_consistency
         (init [gA; gB; gC; gD; gE]
               ["CAT"; "HORSE"; "TOE"; "TEN"; "OAK"; "OWL"; "SUN"; "SKY"]))
  = Ok (true, grid_state) /\
  select_unassigned_variable grid_overlaps [] grid_state
  = Ok (Some gA, grid_state) /\
  map (fun '(v, words) => List.length words) (domains grid_state)
  = [1; 1; 2; 2; 2] /\
  List.length (neighbors grid_overlaps grid_state gA) = 1 /\
  List.length (neighbors grid_overlaps grid_state gB) = 2 /\
  set_gt Var.eqb (neighbors grid_overlaps grid_state gB)
                 (neighbors grid_overlaps grid_state gA) = false.
Proof. repeat split; vm_compute; reflexivity. Qed.

(** ** Arc revision *)

Section ReviseFacts.
Variables (st : State) (y : Var.t) (o0 o1 : nat) (domY : list string).
Hypothesis HdomY : dict_get y (domains st) = Some domY.

(** The two nested loops of [revise]. *)
Let inner (letherX : ascii) (wordX : string) :=
  fun (wordY : string) (acc : list string) =>
    letherY <- index wordY o1 ;;
    Ok (if Ascii.eqb letherX letherY
        then set_add String.eqb wordX acc else acc).

Let outer :=
  fun (wordX : string) (acc : list string) =>
    letherX <- index wordX o0 ;;
    domY <- dict_lookup y (domains st) ;;
    for_in domY (inner letherX wordX) acc.

Lemma revise_inner_partial c wordX acc acc' :
  for_in domY (inner c wordX) acc = Ok acc' ->
  forall w, In w acc' <->
            In w acc \/ (w = wordX /\ exists wy, In wy domY /\ String.get o1 wy = Some c).
Proof.
  intros E.
  apply (for_in_partial
           (fun pre a => forall w, In w a <->
              In w acc \/ (w = wordX /\ exists wy, In wy pre /\ String.get o1 wy = Some c))
           domY (inner c wordX)) with (pre := []) (s := acc); auto.
  - intros pre wordY a a' _ Ha Eb w. unfold inner in Eb.
    destruct (index wordY o1) as [cy| |] eqn:Ey; simpl in Eb; try discriminate.
    apply index_Ok in Ey. injection Eb as <-.
    destruct (Ascii.eqb c cy) eqn:Ec.
    + apply Ascii.eqb_eq in Ec. subst cy.
      rewrite (set_add_In String.eqb String.eqb_eq), Ha. split.
      * intros [-> | [H | [-> [wy [Hin Hg]]]]]; auto.
        -- right. split; auto. exists wordY. rewrite in_app_iff. simpl. auto.
        -- right. split; auto. exists wy. rewrite in_app_iff. auto.
      * intros [H | [-> _]]; auto.
    + rewrite Ha. split.
      * intros [H | [-> [wy [Hin Hg]]]]; auto.
        right. split; auto. exists wy. rewrite in_app_iff. auto.
      * intros [H | [-> [wy [Hin Hg]]]]; auto.
        apply in_app_iff in Hin. destruct Hin as [Hin | [<- | []]].
        -- right. split; auto. exists wy. auto.
        -- rewrite Hg in Ey. injection Ey as <-.
           rewrite Ascii.eqb_refl in Ec. discriminate.
  - intros w. split; auto. intros [H | [_ [wy [[] _]]]]; auto.
Qed.

Lemma revise_outer_partial domX acc :
  for_in domX outer [] = Ok acc ->
  forall w, In w acc <-> In w domX /\ supported o0 o1 domY w.
Proof.
  intros E.
  apply (for_in_partial
           (fun pre a => forall w, In w a <-> In w pre /\ supported o0 o1 domY w)
           domX outer) with (pre := []) (s := []); auto.
  - intros pre wordX a a' _ Ha Eb w. unfold outer in Eb.
    destruct (index wordX o0) as [c| |] eqn:Ex; simpl in Eb; try discriminate.
    apply index_Ok in Ex.
    unfold dict_lookup in Eb. rewrite HdomY in Eb. simpl in Eb.
    rewrite (revise_inner_partial _ _ _ _ Eb w), Ha, in_app_iff. simpl.
    unfold supported. split.
    + intros [[H Hs] | [-> [wy [Hin Hg]]]]; auto.
      split; auto. exists wy, c. auto.
    + intros [[H | [<- | []]] Hs]; auto.
      right. split; auto. destruct Hs as [wy [c' [Hin [Hg Hg']]]].
      exists wy. split; auto. congruence.
  - intros w. simpl. tauto.
Qed.

Lemma revise_outer_total domX :
  (forall wx, In wx domX -> o0 < String.length wx) ->
  (forall wy, In wy domY -> o1 < String.length wy) ->
  exists acc, for_in domX outer [] = Ok acc.
Proof.
  intros HX HY.
  destruct (for_in_total (fun _ _ => True) domX outer) with (pre := @nil string)
    (s := @nil string) as [acc [E _]]; eauto.
  intros pre wordX a Hin _. unfold outer.
  destruct (get_in_range wordX o0 (HX _ Hin)) as [c Hc].
  apply index_Ok in Hc. rewrite Hc. simpl.
  unfold dict_lookup. rewrite HdomY. simpl.
  destruct (for_in_total (fun _ _ => True) domY (inner c wordX)) with
    (pre := @nil string) (s := a) as [a' [E _]]; eauto.
  intros pre' wordY a0 Hin' _. unfold inner.
  destruct (get_in_range wordY o1 (HY _ Hin')) as [cy Hcy].
  apply index_Ok in Hcy. rewrite Hcy. simpl. eauto.
Qed.

End ReviseFacts.

(** [revise] leaves the crossword's variable set alone. *)
Lemma revise_variables overlaps x y st b st' :
  revise overlaps x y st = Ok (b, st') -> variables st' = variables st.
Proof.
  unfold revise. intros E.
  destruct (overlaps_lookup overlaps x y) as [[[o0 o1]|]| |]; simpl in E;
    try discriminate.
  - destruct (dict_lookup x (domains st)) as [domX| |]; simpl in E;
      try discriminate.
    match type of E with
    | context [for_in domX ?body []] =>
        destruct (for_in domX body []) as [acc| |]; simpl in E; try discriminate
    end.
    destruct (set_eqb String.eqb acc domX); injection E as <- <-; reflexivity.
  - injection E as <- <-; reflexivity.
Qed.

(** C4: for distinct variables [x] and [y], if no overlap exists between
    them, [revise] changes nothing and returns [False]; otherwise, when
    [revise] returns, [x]'s domain holds exactly the words of its previous
    domain that have a support in [y]'s domain at the overlap indices,
    [y]'s domain and every other one are untouched, and the result is
    [True] iff some word left [x]'s domain; and [revise] does return when
    the overlap indices lie inside the words of both domains. *)
Theorem revise_spec overlaps (x y : Var.t) (st : State) :
  x <> y ->
  (overlaps x y = Some None -> revise overlaps x y st = Ok (false, st)) /\
  (forall o0 o1 domX domY,
      overlaps x y = Some (Some (o0, o1)) ->
      dict_get x (domains st) = Some domX ->
      dict_get y (domains st) = Some domY ->
      (forall b st',
          revise overlaps x y st = Ok (b, st') ->
          (exists domX',
              dict_get x (domains st') = Some domX' /\
              (forall wx, In wx domX' <->
                          In wx domX /\ supported o0 o1 domY wx) /\
              (b = true <-> exists wx, In wx domX /\ ~ In wx domX')) /\
          dict_get y (domains st') = Some domY /\
          (forall z, z <> x -> dict_get z (domains st') = dict_get z (domains st)) /\
          variables st' = variables st) /\
      ((forall wx, In wx domX -> o0 < String.length wx) ->
       (forall wy, In wy domY -> o1 < String.length wy) ->
       exists b st', revise overlaps x y st = Ok (b, st'))).
Proof.
  intros Hxy. split.
  { intros Ho. unfold revise, overlaps_lookup. rewrite Ho. reflexivity. }
  intros o0 o1 domX domY Ho HdomX HdomY. split.
  - intros b st' E. pose proof (revise_variables _ _ _ _ _ _ E) as Hvars.
    unfold revise, overlaps_lookup, dict_lookup in E.
    rewrite Ho, HdomX in E. simpl in E.
    match type of E with
    | context [for_in domX ?body []] =>
        destruct (for_in domX body []) as [acc| |] eqn:Eloop; simpl in E;
          try discriminate
    end.
    pose proof (revise_outer_partial st y o0 o1 domY HdomY domX acc Eloop) as Hacc.
    destruct (set_eqb String.eqb acc domX) eqn:Eeq; injection E as <- <-.
    + rewrite (set_eqb_iff String.eqb String.eqb_eq) in Eeq.
      split; [|split; [|split]]; auto.
      exists domX. split; [|split]; auto.
      * intros wx. rewrite <- Hacc. symmetry. apply Eeq.
      * split; [discriminate|]. intros [wx [H1 H2]]. contradiction.
    + simpl. split; [|split; [|split]]; auto.
      * exists acc. rewrite dict_get_set_same. split; [|split]; auto.
        split; auto. intros _. unfold set_eqb in Eeq.
        assert (Hsub : set_subset String.eqb acc domX = true).
        { apply (set_subset_incl String.eqb String.eqb_eq).
          intros w Hw. now apply Hacc in Hw. }
        rewrite Hsub in Eeq. simpl in Eeq.
        apply (set_subset_false String.eqb String.eqb_eq) in Eeq. exact Eeq.
      * rewrite dict_get_set_other; auto.
      * intros z Hz. now rewrite dict_get_set_other.
  - intros HX HY.
    destruct (revise_outer_total st y o0 o1 domY HdomY domX HX HY) as [acc Eloop].
    unfold revise, overlaps_lookup, dict_lookup.
    rewrite Ho, HdomX. simpl.
    match goal with
    | |- context [for_in domX ?body []] =>
        replace (for_in domX body []) with (Ok acc) by (symmetry; exact Eloop)
    end.
    simpl. destruct (set_eqb String.eqb acc domX); eauto.
Qed.

(** [revise_spec] on the corner instance: DOG has no support in COW and
    leaves the domain of the across slot. *)
Lemma revise_spec_witness :
  crossX <> crossY /\
  exists b st' domX',
    revise corner_overlaps crossX crossY corner_state = Ok (b, st') /\
    dict_get crossX (domains st') = Some domX' /\
    (forall wx, In wx domX' <->
                In wx ["CAT"; "DOG"] /\ supported 0 0 ["COW"] wx) /\
    (b = true <-> exists wx, In wx ["CAT"; "DOG"] /\ ~ In wx domX') /\
    dict_get crossY (domains st') = Some ["COW"].
Proof.
  assert (Hxy : crossX <> crossY) by discriminate.
  split; [exact Hxy|].
  destruct (revise_spec corner_overlaps crossX crossY corner_state Hxy)
    as [_ H].
  destruct (H 0 0 ["CAT"; "DOG"] ["COW"] eq_refl eq_refl eq_refl)
    as [Hpartial Htotal].
  destruct Htotal as [b [st' E]].
  - simpl. intros wx [<- | [<- | []]]; simpl; lia.
  - simpl. intros wy [<- | []]; simpl; lia.
  - destruct (Hpartial b st' E) as [[domX' [H1 [H2 H3]]] [H4 _]].
    exists b, st', domX'. auto.
Defined.

(** ** Arc consistency *)

(** The arcs the [for z in neighbors(x)] loop of [ac3] appends. *)
Lemma ac3_enqueue (x : Var.t) (zs : list Var.t) :
  forall arcs : list Arc,
  exists new,
    fold_left
      (fun (arcs : list Arc) z =>
         let arcC := (z, x) in
         if negb (set_mem Arc_eqb arcC arcs) then arcs ++ [arcC] else arcs)
      zs arcs = arcs ++ new /\
    NoDup new /\
    forall arc, In arc new <->
                (exists z, arc = (z, x) /\ In z zs) /\ ~ In arc arcs.
Proof.
  induction zs as [|z zs IH]; intros arcs.
  - exists []. rewrite app_nil_r. split; [reflexivity|]. split; [constructor|].
    intros arc. simpl. split; [tauto|]. intros [[z [_ []]] _].
  - cbn [fold_left].
    destruct (set_mem Arc_eqb (z, x) arcs) eqn:E; cbn [negb].
    + apply (set_mem_In Arc_eqb Arc_eqb_eq) in E.
      destruct (IH arcs) as [new [E1 [E2 E3]]].
      exists new. split; [exact E1|]. split; [exact E2|].
      intros arc. rewrite E3. split.
      * intros [[z' [-> Hz']] Hn]. split; auto. exists z'. split; auto. now right.
      * intros [[z' [-> [<- | Hz']]] Hn]; [contradiction|].
        split; auto. exists z'. auto.
    + apply (set_mem_not_In Arc_eqb Arc_eqb_eq) in E.
      destruct (IH (arcs ++ [(z, x)])) as [new [E1 [E2 E3]]].
      exists ((z, x) :: new). split; [|split].
      * transitivity ((arcs ++ [(z, x)]) ++ new);
          [exact E1 | now rewrite <- app_assoc].
      * constructor; auto. intros Hin. apply E3 in Hin.
        destruct Hin as [_ Hn]. apply Hn. rewrite in_app_iff. simpl. auto.
      * intros arc. simpl. rewrite E3, in_app_iff. simpl. split.
        -- intros [<- | [[z' [-> Hz']] Hn]].
           ++ split; auto. exists z. auto.
           ++ split; [|tauto]. exists z'. auto.
        -- intros [[z' [-> [<- | Hz']]] Hn]; auto.
           destruct (Arc_eqb (z, x) (z', x)) eqn:Ea.
           ++ apply Arc_eqb_eq in Ea. auto.
           ++ right. split; [exists z'; auto|].
              intros [H | [H | []]]; auto.
              rewrite <- H, (proj2 (Arc_eqb_eq _ _) eq_refl) in Ea. discriminate.
Qed.

(** C5 (as the code has it): when [revise(x, y)] reports a change and [x]'s
    domain is not empty, the pass of [ac3] goes on with the pending arcs
    followed by the arcs [(z, x)], once each, for every neighbor [z] of
    [x] whose arc is not already pending; [y] is not left out. *)
Theorem ac3_requeues_neighbors overlaps x y arcs st st' domX fuel :
  revise overlaps x y st = Ok (true, st') ->
  dict_get x (domains st') = Some domX ->
  domX <> [] ->
  exists new,
    ac3_body overlaps (x, y) arcs st = Ok (Ac3Continue (arcs ++ new), st') /\
    ac3_while overlaps (S fuel) ((x, y) :: arcs) st
    = ac3_while overlaps fuel (arcs ++ new) st' /\
    NoDup new /\
    (forall arc, In arc new <->
                 (exists z, arc = (z, x) /\ In z (neighbors overlaps st' x)) /\
                 ~ In arc arcs) /\
    (In y (neighbors overlaps st' x) -> ~ In (y, x) arcs -> In (y, x) new).
Proof.
  intros Hrev Hdom Hne.
  destruct (ac3_enqueue x (neighbors overlaps st' x) arcs) as [new [E1 [E2 E3]]].
  exists new.
  assert (Hbody : ac3_body overlaps (x, y) arcs st
                  = Ok (Ac3Continue (arcs ++ new), st')).
  { unfold ac3_body. cbn [fst snd]. rewrite Hrev. cbn [bind].
    unfold dict_lookup. rewrite Hdom. cbn [bind].
    destruct domX as [|w domX]; [contradiction|]. cbn [List.length Nat.eqb].
    do 3 f_equal. exact E1. }
  split; [exact Hbody|]. split; [|split; [exact E2|split; [exact E3|]]].
  - cbn [ac3_while]. rewrite Hbody. reflexivity.
  - intros Hy Hn. apply E3. split; auto. exists y. auto.
Qed.

(** [ac3_requeues_neighbors] on the corner instance. *)
Lemma ac3_requeues_neighbors_witness :
  exists new,
    ac3_body corner_overlaps (crossX, crossY) [] corner_state
    = Ok (Ac3Continue ([] ++ new), corner_state') /\
    (forall arc, In arc new <->
                 (exists z, arc = (z, crossX) /\
                            In z (neighbors corner_overlaps corner_state' crossX)) /\
                 ~ In arc []).
Proof.
  destruct (ac3_requeues_neighbors corner_overlaps crossX crossY []
              corner_state corner_state' ["CAT"] 0)
    as [new [H1 [_ [_ [H2 _]]]]].
  - reflexivity.
  - reflexivity.
  - discriminate.
  - exists new. split; assumption.
Defined.

(** C5 (as claimed, refuted): on the corner instance, [revise(crossX,
    crossY)] removes DOG and leaves CAT, and the pass of [ac3] enqueues the
    arc [(crossY, crossX)]: the neighbor [crossY], against which [crossX]
    was just revised, is not excepted. *)
Lemma ac3_requeues_arc_of_y :
  revise corner_overlaps crossX crossY corner_state = Ok (true, corner_state') /\
  dict_get crossX (domains corner_state') = Some ["CAT"] /\
  ac3_body corner_overlaps (crossX, crossY) [] corner_state
  = Ok (Ac3Continue [(crossY, crossX)], corner_state') /\
  ~ (forall z, In (z, crossX) [(crossY, crossX)] -> z <> crossY).
Proof.
  repeat split; try reflexivity.
  intros H. apply (H crossY); [left|]; reflexivity.
Qed.

(** ** Domains only shrink *)

Lemma shrinks_refl st : shrinks st st.
Proof.
  repeat split; auto. intros v ws H. exists ws. split; auto. apply incl_refl.
Qed.

Lemma shrinks_trans st1 st2 st3 :
  shrinks st1 st2 -> shrinks st2 st3 -> shrinks st1 st3.
Proof.
  intros [V1 [K1 D1]] [V2 [K2 D2]]. repeat split; try congruence.
  intros v ws3 H3. destruct (D2 _ _ H3) as [ws2 [H2 I2]].
  destruct (D1 _ _ H2) as [ws1 [H1 I1]].
  exists ws1. split; auto. eapply incl_tran; eauto.
Qed.

Lemma shrinks_node_consistent st st' :
  shrinks st st' -> node_consistent (domains st) -> node_consistent (domains st').
Proof.
  intros [_ [_ D]] N v ws' w H Hw.
  destruct (D _ _ H) as [ws [H1 I1]]. eapply N; eauto.
Qed.

Lemma revise_shrinks overlaps x y st b st' :
  revise overlaps x y st = Ok (b, st') -> shrinks st st'.
Proof.
  intros E. unfold revise in E.
  destruct (overlaps_lookup overlaps x y) as [[[o0 o1]|]| |]; simpl in E;
    try discriminate.
  2:{ injection E as <- <-. apply shrinks_refl. }
  unfold dict_lookup at 1 in E.
  destruct (dict_get x (domains st)) as [domX|] eqn:HdomX; simpl in E;
    try discriminate.
  match type of E with
  | context [for_in domX ?body []] =>
      destruct (for_in domX body []) as [acc| |] eqn:Eloop; simpl in E;
        try discriminate
  end.
  assert (Hincl : incl acc domX).
  { destruct (dict_get y (domains st)) as [domY|] eqn:HdomY.
    - intros w Hw.
      now apply (revise_outer_partial st y o0 o1 domY HdomY domX acc Eloop) in Hw.
    - destruct domX as [|wordX domX]; simpl in Eloop.
      + injection Eloop as <-. apply incl_refl.
      + destruct (index wordX o0); simpl in Eloop; try discriminate.
        unfold dict_lookup in Eloop. rewrite HdomY in Eloop. discriminate. }
  destruct (set_eqb String.eqb acc domX); injection E as <- <-.
  { apply shrinks_refl. }
  split; [reflexivity|]. split; simpl.
  - apply keys_dict_set_in. apply dict_get_keys. eauto.
  - intros v ws' H.
    destruct (Var.eqb v x) eqn:Ev.
    + apply Var_eqb_eq in Ev. subst v. rewrite dict_get_set_same in H.
      injection H as <-. eauto.
    + apply Var_eqb_neq in Ev. rewrite dict_get_set_other in H; auto.
      exists ws'. split; auto. apply incl_refl.
Qed.

Lemma ac3_body_shrinks overlaps arc arcs st o st' :
  ac3_body overlaps arc arcs st = Ok (o, st') ->
  shrinks st st' /\
  (forall b, o = Ac3Return b ->
             b = false /\ dict_get (fst arc) (domains st') = Some []).
Proof.
  unfold ac3_body. intros E.
  destruct (revise overlaps (fst arc) (snd arc) st) as [[revised st1]| |] eqn:Er;
    simpl in E; try discriminate.
  apply revise_shrinks in Er.
  destruct revised.
  - unfold dict_lookup in E.
    destruct (dict_get (fst arc) (domains st1)) as [domX|] eqn:Hd; simpl in E;
      try discriminate.
    destruct domX as [|w domX]; simpl in E; injection E as <- <-.
    + split; auto. intros b [= <-]. auto.
    + split; auto. intros b [=].
  - injection E as <- <-. split; auto. intros b [=].
Qed.

(** Arc consistency only removes words, and a failure leaves some variable
    with an empty domain. *)
Lemma ac3_while_shrinks overlaps fuel :
  forall arcs st b st',
    ac3_while overlaps fuel arcs st = Ok (b, st') ->
    shrinks st st' /\
    (b = false -> exists x, dict_get x (domains st') = Some []).
Proof.
  induction fuel as [|fuel IH]; intros arcs st b st' E.
  - destruct arcs; simpl in E; try discriminate.
    injection E as <- <-. split; [apply shrinks_refl | discriminate].
  - destruct arcs as [|arc arcs]; simpl in E.
    { injection E as <- <-. split; [apply shrinks_refl | discriminate]. }
    destruct (ac3_body overlaps arc arcs st) as [[o st1]| |] eqn:Eb;
      simpl in E; try discriminate.
    apply ac3_body_shrinks in Eb. destruct Eb as [S1 R1].
    destruct o as [b1|arcs1].
    + injection E as <- <-. split; auto.
      intros _. destruct (R1 b1 eq_refl) as [_ H]. eauto.
    + apply IH in E. destruct E as [S2 R2]. split; auto.
      eapply shrinks_trans; eauto.
Qed.

(** ** Node consistency *)

Lemma fold_dict_set_entries {V W} (g : Var.t -> V -> W) (l : list (Var.t * V)) :
  forall d0 : dict W,
    NoDup (keys l) ->
    (forall k, In k (keys l) -> ~ In k (keys d0)) ->
    fold_left (fun (acc : dict W) '(k, v) => dict_set k (g k v) acc) l d0
    = d0 ++ map (fun '(k, v) => (k, g k v)) l.
Proof.
  induction l as [|[k v] l IH]; intros d0 Hnd Hdis; simpl.
  - now rewrite app_nil_r.
  - simpl in Hnd. inversion Hnd as [|? ? Hk Hl]; subst.
    rewrite dict_set_new by (apply Hdis; simpl; auto).
    rewrite IH; auto.
    + now rewrite <- app_assoc.
    + intros k' Hk'. unfold keys. rewrite map_app, in_app_iff. simpl.
      intros [H | [H | []]].
      * apply (Hdis k'); simpl; auto.
      * subst. contradiction.
Qed.

Lemma keys_map_entries {V W} (g : Var.t -> V -> W) (l : list (Var.t * V)) :
  keys (map (fun '(k, v) => (k, g k v)) l) = keys l.
Proof.
  unfold keys. rewrite map_map. apply map_ext. now intros [k v].
Qed.

Lemma init_domains vars words :
  NoDup vars -> domains (init vars words) = map (fun v => (v, words)) vars.
Proof.
  intros Hnd. unfold init. simpl.
  assert (G : forall d0 : dict (list string),
             NoDup vars -> (forall v, In v vars -> ~ In v (keys d0)) ->
             fold_left (fun d var => dict_set var words d) vars d0
             = d0 ++ map (fun v => (v, words)) vars).
  { clear Hnd. induction vars as [|v vars IH]; intros d0 Hnd Hdis; simpl.
    - now rewrite app_nil_r.
    - inversion Hnd as [|? ? Hv Hl]; subst.
      rewrite dict_set_new by (apply Hdis; simpl; auto).
      rewrite IH; auto.
      + now rewrite <- app_assoc.
      + intros v' Hv'. unfold keys. rewrite map_app, in_app_iff. simpl.
        intros [H | [H | []]].
        * apply (Hdis v'); simpl; auto.
        * subst. contradiction. }
  rewrite G; auto.
Qed.

Lemma init_keys vars words :
  NoDup vars -> keys (domains (init vars words)) = vars.
Proof.
  intros H. rewrite init_domains by auto. unfold keys. rewrite map_map.
  simpl. apply map_id.
Qed.

Lemma node_filter_In (n : nat) (words : list string) :
  forall acc w,
    In w (fold_left
            (fun s word =>
               if (String.length word =? n)%nat then set_add String.eqb word s else s)
            words acc) ->
    In w acc \/ String.length w = n.
Proof.
  induction words as [|word words IH]; simpl; intros acc w H; auto.
  apply IH in H. destruct H as [H | H]; auto.
  destruct (String.length word =? n)%nat eqn:E; auto.
  apply (set_add_In String.eqb String.eqb_eq) in H. destruct H as [-> | H]; auto.
  apply Nat.eqb_eq in E. auto.
Qed.

Lemma enforce_node_consistency_spec st :
  NoDup (keys (domains st)) ->
  variables (enforce_node_consistency st) = variables st /\
  keys (domains (enforce_node_consistency st)) = keys (domains st) /\
  node_consistent (domains (enforce_node_consistency st)).
Proof.
  intros Hnd. unfold enforce_node_consistency. simpl.
  rewrite (fold_dict_set_entries
             (fun var words =>
                fold_left
                  (fun s word =>
                     if (String.length word =? Var.length var)%nat
                     then set_add String.eqb word s else s)
                  words [])) by (auto; intros k _ []).
  simpl. split; [reflexivity|]. split; [apply keys_map_entries|].
  intros v ws w H Hw. apply dict_get_In in H. apply in_map_iff in H.
  destruct H as [[k ws0] [[= -> <-] _]].
  apply node_filter_In in Hw. destruct Hw as [[] | Hw]; auto.
Qed.

(** ** Value ordering *)

Lemma sort_insert_Permutation {A} (x : A * nat) (l : list (A * nat)) :
  Permutation (sort_insert x l) (x :: l).
Proof.
  induction l as [|y l IH]; simpl; auto.
  destruct (snd x <=? snd y); auto.
  rewrite IH. apply perm_swap.
Qed.

Lemma sort_by_snd_Permutation {A} (l : list (A * nat)) :
  Permutation (sort_by_snd l) l.
Proof.
  induction l as [|x l IH]; simpl; auto.
  rewrite sort_insert_Permutation. auto.
Qed.

Lemma neighbors_spec overlaps st x y :
  In y (neighbors overlaps st x) <->
  In y (variables st) /\ y <> x /\
  exists o0 o1, overlaps x y = Some (Some (o0, o1)).
Proof.
  unfold neighbors. rewrite filter_In, andb_true_iff, negb_true_iff, Var_eqb_neq.
  unfold overlaps_get. split.
  - intros [Hin [Hne Ho]].
    destruct (overlaps x y) as [[[o0 o1]|]|]; try discriminate. eauto.
  - intros [Hin [Hne [o0 [o1 Ho]]]]. rewrite Ho. auto.
Qed.

Section Ordering.
Variable overlaps : Var.t -> Var.t -> option (option (nat * nat)).
Hypothesis Hrange : overlaps_in_range overlaps.
Variable st : State.
Hypothesis Hkeys : incl (variables st) (keys (domains st)).
Hypothesis Hnode : node_consistent (domains st).

(** On a node-consistent state of a well-formed instance,
    [order_domain_values] raises nothing and returns the words of the
    variable's domain in some order. *)
Lemma order_domain_values_total var assignment domVar :
  dict_get var (domains st) = Some domVar ->
  exists values,
    order_domain_values overlaps var assignment st = Ok values /\
    Permutation values domVar.
Proof.
  intros Hdom. unfold order_domain_values, dict_lookup. rewrite Hdom.
  cbn [bind].
  match goal with
  | |- context [for_in domVar ?body []] =>
      destruct (for_in_total (fun pre s => map fst s = pre) domVar body)
        with (pre := @nil string) (s := @nil (string * nat))
        as [domainOrder [E HI]]
  end.
  - intros pre wordX domainOrder Hin HI.
    match goal with
    | |- context [for_in (neighbors overlaps st var) ?body 0] =>
        destruct (for_in_total (fun _ _ => True)
                    (neighbors overlaps st var) body)
          with (pre := @nil Var.t) (s := 0) as [eliminate [E _]]
    end.
    + intros pre' y n Hy _.
      destruct (dict_mem y assignment); [eauto|].
      apply neighbors_spec in Hy. destruct Hy as [Hvar [_ [o0 [o1 Ho]]]].
      unfold overlaps_lookup. rewrite Ho. cbn [bind].
      apply Hkeys, dict_get_keys in Hvar. destruct Hvar as [domY HdomY].
      unfold dict_lookup. rewrite HdomY. cbn [bind].
      destruct (Hrange _ _ _ _ Ho) as [R0 R1].
      match goal with
      | |- context [for_in domY ?body n] =>
          destruct (for_in_total (fun _ _ => True) domY body)
            with (pre := @nil string) (s := n) as [n' [E _]]
      end; eauto.
      intros pre'' wordY m HwY _.
      destruct (get_in_range wordX o0) as [cX HcX].
      { rewrite (Hnode _ _ _ Hdom Hin). exact R0. }
      destruct (get_in_range wordY o1) as [cY HcY].
      { rewrite (Hnode _ _ _ HdomY HwY). exact R1. }
      apply index_Ok in HcX, HcY. rewrite HcX, HcY. cbn [bind]. eauto.
    + exact I.
    + rewrite E. cbn [bind]. eexists. split; [reflexivity|].
      rewrite map_app, HI. reflexivity.
  - reflexivity.
  - rewrite E. cbn [bind]. eexists. split; [reflexivity|].
    simpl in HI. rewrite <- HI.
    apply Permutation_map, sort_by_snd_Permutation.
Qed.

End Ordering.

(** ** Variable selection: fewest remaining values *)

Section Selection.
Variable overlaps : Var.t -> Var.t -> option (option (nat * nat)).
Hypothesis Hrange : overlaps_in_range overlaps.
Variable st : State.
Hypothesis Hkeys : incl (variables st) (keys (domains st)).
Hypothesis Hnode : node_consistent (domains st).
Variable assignment : Assignment.

(** On a node-consistent state of a well-formed instance,
    [select_unassigned_variable] raises nothing; it removes the assigned
    variables from the crossword's variable set and returns one of the
    remaining variables with the fewest values left (or ['x'] when none
    remains). *)
Lemma select_unassigned_variable_total :
  let st' :=
    {| variables := filter (fun v => negb (dict_mem v assignment)) (variables st);
       domains := domains st |} in
  exists r,
    select_unassigned_variable overlaps assignment st = Ok (r, st') /\
    match r with
    | None => variables st' = []
    | Some v =>
        In v (variables st') /\
        forall u, In u (variables st') -> dom_size st v <= dom_size st u
    end.
Proof.
  intros st'. unfold select_unassigned_variable. fold st'.
  assert (Hkeys' : incl (variables st') (keys (domains st'))).
  { intros v Hv. apply Hkeys. simpl in Hv. now apply filter_In in Hv. }
  match goal with
  | |- context [for_in (variables st') ?body None] =>
      destruct (for_in_total
                  (fun pre (less : option (Var.t * nat)) =>
                     match less with
                     | None => pre = []
                     | Some (v, n) =>
                         In v pre /\ n = dom_size st v /\
                         forall u, In u pre -> n <= dom_size st u
                     end)
                  (variables st') body)
        with (pre := @nil Var.t) (s := @None (Var.t * nat))
        as [less [E HI]]
  end.
  - intros pre var less Hvar HI.
    destruct (proj1 (dict_get_keys _ _) (Hkeys' _ Hvar)) as [domVar Hdom].
    destruct (order_domain_values_total overlaps Hrange st' Hkeys' Hnode
                var assignment domVar Hdom) as [values [Ev Hp]].
    rewrite Ev. cbn [bind].
    assert (Hn : List.length values = dom_size st var).
    { unfold dom_size. simpl in Hdom. rewrite Hdom.
      now apply Permutation_length. }
    rewrite Hn.
    destruct less as [[lessVar lessN]|].
    + destruct HI as [H1 [H2 H3]].
      destruct (dom_size st var <? lessN)%nat eqn:Elt.
      * apply Nat.ltb_lt in Elt. eexists. split; [reflexivity|].
        split; [apply in_or_app; simpl; auto|]. split; [reflexivity|].
        intros u Hu. apply in_app_or in Hu. destruct Hu as [Hu | [<- | []]]; auto.
        apply H3 in Hu; lia.
      * apply Nat.ltb_ge in Elt.
        destruct (dom_size st var =? lessN)%nat eqn:Eeq.
        -- apply Nat.eqb_eq in Eeq.
           destruct (set_gt Var.eqb (neighbors overlaps st' var)
                            (neighbors overlaps st' lessVar)).
           ++ eexists. split; [reflexivity|].
              split; [apply in_or_app; simpl; auto|]. split; [reflexivity|].
              intros u Hu. apply in_app_or in Hu.
              destruct Hu as [Hu | [<- | []]]; auto.
              apply H3 in Hu; lia.
           ++ eexists. split; [reflexivity|].
              split; [apply in_or_app; auto|]. split; [exact H2|].
              intros u Hu. apply in_app_or in Hu.
              destruct Hu as [Hu | [<- | []]]; auto; lia.
        -- eexists. split; [reflexivity|].
           split; [apply in_or_app; auto|]. split; [exact H2|].
           intros u Hu. apply in_app_or in Hu.
           destruct Hu as [Hu | [<- | []]]; auto; lia.
    + subst pre. eexists. split; [reflexivity|].
      split; [simpl; auto|]. split; [reflexivity|].
      intros u [<- | []]. auto.
  - reflexivity.
  - rewrite E. cbn [bind]. eexists. split; [reflexivity|].
    simpl in HI. destruct less as [[v n]|]; simpl; auto.
    destruct HI as [H1 [H2 H3]]. split; auto.
    intros u Hu. rewrite <- H2. auto.
Qed.

End Selection.

(** ** Failure of arc consistency *)

Lemma filter_unassigned_empty (vars : list Var.t) :
  filter (fun v => negb (dict_mem v (@nil (Var.t * string)))) vars = vars.
Proof.
  induction vars as [|v vars IH]; simpl; [reflexivity | f_equal; exact IH].
Qed.

(** The state [solve] hands to [ac3]. *)
Lemma preprocessed_state vars words :
  NoDup vars ->
  let st1 := enforce_node_consistency (init vars words) in
  variables st1 = vars /\ keys (domains st1) = vars /\
  node_consistent (domains st1).
Proof.
  intros Hnd st1.
  destruct (enforce_node_consistency_spec (init vars words)) as [H1 [H2 H3]].
  { now rewrite init_keys. }
  rewrite init_keys in H2 by auto. auto.
Qed.

(** With some variable of the instance left without values, [backtrack]
    started on the empty assignment returns [None]. *)
Lemma backtrack_empty_domain overlaps fuel st x :
  overlaps_in_range overlaps ->
  variables st = keys (domains st) ->
  node_consistent (domains st) ->
  dict_get x (domains st) = Some [] ->
  backtrack overlaps (S fuel) [] st = Ok (PyNone, [], st).
Proof.
  intros Hrange Hvars Hnode Hx.
  assert (Hkeys : incl (variables st) (keys (domains st))).
  { rewrite Hvars. apply incl_refl. }
  assert (Hxin : In x (variables st)).
  { rewrite Hvars. apply dict_get_keys. eauto. }
  destruct (select_unassigned_variable_total overlaps Hrange st Hkeys Hnode [])
    as [r [Es Hr]].
  assert (Est : {| variables :=
                     filter (fun v => negb (dict_mem v (@nil (Var.t * string))))
                            (variables st);
                   domains := domains st |} = st).
  { rewrite filter_unassigned_empty. now destruct st. }
  rewrite Est in Es, Hr.
  destruct r as [v|]; [|rewrite Hr in Hxin; contradiction].
  destruct Hr as [Hv Hmin].
  assert (Hdv : dict_get v (domains st) = Some []).
  { specialize (Hmin x Hxin). unfold dom_size in Hmin. rewrite Hx in Hmin.
    apply Hkeys, dict_get_keys in Hv. destruct Hv as [ws Hws].
    rewrite Hws in Hmin. destruct ws; simpl in Hmin; [auto | lia]. }
  destruct (order_domain_values_total overlaps Hrange st Hkeys Hnode v [] [] Hdv)
    as [values [Eo Hp]].
  apply Permutation_sym, Permutation_nil in Hp. subst values.
  apply backtrack_no_candidate with (var := v); auto.
  unfold assignment_complete. simpl.
  rewrite <- Hvars. destruct (variables st); [contradiction | reflexivity].
Qed.

(** C6: a pass of [ac3] in which [revise] empties a domain ends the
    propagation at once with the result [False]; and on every well-formed
    instance on which [ac3] reports that failure, some domain is empty and
    [solve] returns [None], the value [backtrack] returns when its
    candidates are exhausted: no assignment is returned. *)
Theorem ac3_failure_is_no_solution overlaps vars words fuel :
  NoDup vars ->
  overlaps_in_range overlaps ->
  (forall x y arcs st st',
      revise overlaps x y st = Ok (true, st') ->
      dict_get x (domains st') = Some [] ->
      ac3_while overlaps (S fuel) ((x, y) :: arcs) st = Ok (false, st')) /\
  (forall st2,
      ac3 overlaps fuel None (enforce_node_consistency (init vars words))
      = Ok (false, st2) ->
      (exists x, dict_get x (domains st2) = Some []) /\
      solve overlaps fuel (init vars words) = Ok (PyNone, st2) /\
      (forall a st', solve overlaps fuel (init vars words) <> Ok (PyDict a, st'))).
Proof.
  intros Hnd Hrange. split.
  - intros x y arcs st st' Hrev Hdom. cbn [ac3_while].
    unfold ac3_body. cbn [fst snd]. rewrite Hrev. cbn [bind].
    unfold dict_lookup. rewrite Hdom. reflexivity.
  - intros st2 Hac3.
    destruct (preprocessed_state vars words Hnd) as [V1 [K1 N1]].
    pose proof Hac3 as Hac3'. unfold ac3 in Hac3'.
    apply ac3_while_shrinks in Hac3'. destruct Hac3' as [Hs Hempty].
    destruct (Hempty eq_refl) as [x Hx].
    assert (Hsolve : solve overlaps fuel (init vars words) = Ok (PyNone, st2)).
    { unfold solve. rewrite Hac3. cbn [bind].
      destruct fuel as [|fuel].
      { unfold ac3 in Hac3.
        destruct (all_arcs _) in Hac3; simpl in Hac3; discriminate. }
      rewrite (backtrack_empty_domain overlaps fuel st2 x); auto.
      - destruct Hs as [V2 [K2 _]]. congruence.
      - eapply shrinks_node_consistent; eauto. }
    split; [eauto|]. split; [exact Hsolve|].
    intros a st'. rewrite Hsolve. discriminate.
Qed.

(** [ac3_failure_is_no_solution] on the five-slot grid with a vocabulary
    in which no word can cross CAT, OAK or SUN at their last letter: the
    second pass of [ac3] empties the domain of [gA]. *)
Lemma ac3_failure_is_no_solution_witness :
  let words := ["CAT"; "HORSE"; "OAK"; "SUN"] in
  let vars := [gA; gB; gC; gD; gE] in
  exists st2,
    ac3 grid_overlaps 2 None (enforce_node_consistency (init vars words))
    = Ok (false, st2) /\
    dict_get gA (domains st2) = Some [] /\
    solve grid_overlaps 2 (init vars words) = Ok (PyNone, st2).
Proof.
  intros words vars.
  destruct (ac3_failure_is_no_solution grid_overlaps vars words 2
              grid_variables_NoDup grid_overlaps_in_range)
    as [_ H].
  eexists. split; [vm_compute; reflexivity|].
  split; [reflexivity|].
  apply H. vm_compute. reflexivity.
Defined.

(** ** Termination *)

Create HintDb finishes.

Lemma finishes_Ok {A} (a : A) : finishes (Ok a).
Proof. discriminate. Qed.

Lemma finishes_Raise {A} (e : exn) : finishes (@Raise A e).
Proof. discriminate. Qed.

Lemma finishes_bind {A B} (m : res A) (k : A -> res B) :
  finishes m -> (forall a, m = Ok a -> finishes (k a)) -> finishes (bind m k).
Proof.
  unfold finishes. intros Hm Hk. destruct m; simpl; auto. discriminate.
Qed.

Lemma finishes_for_in {A S} (l : list A) (body : A -> S -> res S) :
  (forall a s, finishes (body a s)) -> forall s, finishes (for_in l body s).
Proof.
  intros Hb. induction l as [|a l IH]; intros s; simpl.
  - apply finishes_Ok.
  - apply finishes_bind; auto.
Qed.

Lemma finishes_index w n : finishes (index w n).
Proof. unfold index. destruct (String.get n w); discriminate. Qed.

Lemma finishes_dict_lookup {V} k (d : dict V) : finishes (dict_lookup k d).
Proof. unfold dict_lookup. destruct (dict_get k d); discriminate. Qed.

Lemma finishes_overlaps_lookup overlaps x y :
  finishes (overlaps_lookup overlaps x y).
Proof. unfold overlaps_lookup. destruct (overlaps x y); discriminate. Qed.

#[local] Hint Resolve finishes_Ok finishes_Raise finishes_index
  finishes_dict_lookup finishes_overlaps_lookup : finishes.

Lemma finishes_revise overlaps x y st : finishes (revise overlaps x y st).
Proof.
  unfold revise.
  apply finishes_bind; [auto with finishes|]. intros overlap _.
  destruct overlap as [[o0 o1]|]; [|auto with finishes].
  apply finishes_bind; [auto with finishes|]. intros domX _.
  apply finishes_bind.
  - apply finishes_for_in. intros wordX acc.
    apply finishes_bind; [auto with finishes|]. intros letherX _.
    apply finishes_bind; [auto with finishes|]. intros domY _.
    apply finishes_for_in. intros wordY acc'.
    apply finishes_bind; auto with finishes.
  - intros acc _. destruct (set_eqb String.eqb acc domX); auto with finishes.
Qed.

Lemma finishes_order_domain_values overlaps var assignment st :
  finishes (order_domain_values overlaps var assignment st).
Proof.
  unfold order_domain_values.
  apply finishes_bind; [auto with finishes|]. intros domVar _.
  apply finishes_bind; [|auto with finishes].
  apply finishes_for_in. intros wordX domainOrder.
  apply finishes_bind; [|auto with finishes].
  apply finishes_for_in. intros y eliminate.
  destruct (dict_mem y assignment); [auto with finishes|].
  apply finishes_bind; [auto with finishes|]. intros overlapXY _.
  apply finishes_bind; [auto with finishes|]. intros domY _.
  apply finishes_for_in. intros wordY n.
  destruct overlapXY as [[o0 o1]|]; [|auto with finishes].
  apply finishes_bind; [auto with finishes|]. intros cX _.
  apply finishes_bind; auto with finishes.
Qed.

Lemma finishes_select_unassigned_variable overlaps assignment st :
  finishes (select_unassigned_variable overlaps assignment st).
Proof.
  unfold select_unassigned_variable.
  apply finishes_bind; [|auto with finishes].
  apply finishes_for_in. intros var less.
  apply finishes_bind; [apply finishes_order_domain_values|].
  intros values _.
  destruct less as [[lessVar lessN]|]; [|auto with finishes].
  destruct (List.length values <? lessN); [auto with finishes|].
  destruct (List.length values =? lessN); [|auto with finishes].
  match goal with |- context [if ?c then _ else _] => destruct c end;
    auto with finishes.
Qed.

(** *** The loop of [ac3] *)

Lemma total_size_dict_set x (old new : list string) (d : dict (list string)) :
  dict_get x d = Some old ->
  total_size (dict_set x new d) + List.length old
  = total_size d + List.length new.
Proof.
  unfold total_size. induction d as [|[k ws] d IH]; simpl; [discriminate|].
  destruct (Var.eqb x k); simpl.
  - intros [= ->]. lia.
  - intros H. apply IH in H. lia.
Qed.

Lemma revise_outer_NoDup (st : State) (y : Var.t) (o0 o1 : nat)
  (domX acc : list string) :
  for_in domX
    (fun wordX acc =>
       letherX <- index wordX o0 ;;
       domY <- dict_lookup y (domains st) ;;
       for_in domY
         (fun wordY acc =>
            letherY <- index wordY o1 ;;
            Ok (if Ascii.eqb letherX letherY
                then set_add String.eqb wordX acc else acc))
         acc)
    [] = Ok acc ->
  NoDup acc.
Proof.
  intros E.
  refine (for_in_partial (fun _ a => NoDup a) domX _ _ [] [] acc _ E);
    [|constructor].
  intros pre wordX a a' _ Ha Eb.
  destruct (index wordX o0) as [c| |]; simpl in Eb; try discriminate.
  destruct (dict_lookup y (domains st)) as [domY| |]; simpl in Eb;
    try discriminate.
  refine (for_in_partial (fun _ a => NoDup a) domY _ _ [] a a' Ha Eb).
  intros pre' wordY b b' _ Hb Ei.
  destruct (index wordY o1) as [c'| |]; simpl in Ei; try discriminate.
  injection Ei as <-.
  destruct (Ascii.eqb c c'); auto.
  now apply (set_add_NoDup String.eqb String.eqb_eq).
Qed.

(** A revision that reports a change removes at least one value. *)
Lemma revise_true_decreases overlaps x y st st' :
  revise overlaps x y st = Ok (true, st') ->
  total_size (domains st') < total_size (domains st).
Proof.
  intros E. unfold revise in E.
  destruct (overlaps_lookup overlaps x y) as [[[o0 o1]|]| |]; simpl in E;
    try discriminate.
  unfold dict_lookup at 1 in E.
  destruct (dict_get x (domains st)) as [domX|] eqn:HdomX; simpl in E;
    try discriminate.
  match type of E with
  | context [for_in domX ?body []] =>
      destruct (for_in domX body []) as [acc| |] eqn:Eloop; simpl in E;
        try discriminate
  end.
  pose proof (revise_outer_NoDup st y o0 o1 domX acc Eloop) as Hnd.
  assert (Hincl : incl acc domX).
  { destruct (dict_get y (domains st)) as [domY|] eqn:HdomY.
    - intros w Hw.
      now apply (revise_outer_partial st y o0 o1 domY HdomY domX acc Eloop) in Hw.
    - destruct domX as [|wordX domX]; simpl in Eloop.
      + injection Eloop as <-. apply incl_refl.
      + destruct (index wordX o0); simpl in Eloop; try discriminate.
        unfold dict_lookup in Eloop. rewrite HdomY in Eloop. discriminate. }
  destruct (set_eqb String.eqb acc domX) eqn:Eeq; [discriminate|].
  injection E as <-. simpl.
  pose proof (total_size_dict_set x domX acc (domains st) HdomX) as Hsize.
  unfold set_eqb in Eeq.
  rewrite (proj2 (set_subset_incl String.eqb String.eqb_eq acc domX) Hincl)
    in Eeq.
  simpl in Eeq.
  apply (set_subset_false String.eqb String.eqb_eq) in Eeq.
  destruct Eeq as [w [Hw Hn]].
  assert (Hlen : List.length (w :: acc) <= List.length domX).
  { apply NoDup_incl_length.
    - constructor; auto.
    - intros u [<- | Hu]; auto. }
  simpl in Hlen. lia.
Qed.

(** A revision that reports no change changes nothing. *)
Lemma revise_false_unchanged overlaps x y st st' :
  revise overlaps x y st = Ok (false, st') -> st' = st.
Proof.
  unfold revise. intros E.
  destruct (overlaps_lookup overlaps x y) as [[[o0 o1]|]| |]; simpl in E;
    try discriminate.
  - destruct (dict_lookup x (domains st)) as [domX| |]; simpl in E;
      try discriminate.
    match type of E with
    | context [for_in domX ?body []] =>
        destruct (for_in domX body []) as [acc| |]; simpl in E; try discriminate
    end.
    destruct (set_eqb String.eqb acc domX); [|discriminate].
    now injection E as <-.
  - now injection E as <-.
Qed.

Lemma ac3_enqueue_length (x : Var.t) (zs : list Var.t) :
  forall arcs : list Arc,
    List.length
      (fold_left
         (fun (arcs : list Arc) z =>
            let arcC := (z, x) in
            if negb (set_mem Arc_eqb arcC arcs) then arcs ++ [arcC] else arcs)
         zs arcs)
    <= List.length arcs + List.length zs.
Proof.
  induction zs as [|z zs IH]; intros arcs; simpl; [lia|].
  destruct (set_mem Arc_eqb (z, x) arcs); simpl.
  - specialize (IH arcs). simpl in IH. lia.
  - specialize (IH (arcs ++ [(z, x)])). simpl in IH.
    rewrite length_app in IH. simpl in IH. lia.
Qed.

Lemma neighbors_length overlaps st x :
  List.length (neighbors overlaps st x) <= List.length (variables st).
Proof. unfold neighbors. apply filter_length_le. Qed.

(** Every pass that does not return decreases the measure. *)
Lemma ac3_body_decreases overlaps arc arcs st arcs' st' :
  ac3_body overlaps arc arcs st = Ok (Ac3Continue arcs', st') ->
  ac3_measure st' arcs' < ac3_measure st (arc :: arcs).
Proof.
  unfold ac3_body, ac3_measure. intros E.
  destruct (revise overlaps (fst arc) (snd arc) st) as [[revised st1]| |] eqn:Er;
    simpl in E; try discriminate.
  pose proof (revise_variables _ _ _ _ _ _ Er) as Hv.
  destruct revised.
  - apply revise_true_decreases in Er.
    destruct (dict_lookup (fst arc) (domains st1)) as [domX| |]; simpl in E;
      try discriminate.
    destruct (List.length domX =? 0); [discriminate|].
    injection E as <- <-.
    pose proof (ac3_enqueue_length (fst arc) (neighbors overlaps st1 (fst arc)) arcs)
      as Hq.
    pose proof (neighbors_length overlaps st1 (fst arc)) as Hn.
    simpl in Hq |- *. rewrite Hv in *. nia.
  - injection E as <- <-.
    apply revise_false_unchanged in Er. subst st1. simpl. lia.
Qed.

Lemma ac3_while_finishes overlaps fuel :
  forall arcs st,
    ac3_measure st arcs < fuel -> finishes (ac3_while overlaps fuel arcs st).
Proof.
  induction fuel as [|fuel IH]; intros arcs st Hm; [lia|].
  destruct arcs as [|arc arcs]; simpl; [apply finishes_Ok|].
  apply finishes_bind.
  - unfold ac3_body. apply finishes_bind; [apply finishes_revise|].
    intros [[] st1] _; [|apply finishes_Ok].
    apply finishes_bind; [apply finishes_dict_lookup|].
    intros domX _. destruct (List.length domX =? 0); apply finishes_Ok.
  - intros [[b|arcs'] st'] E; [apply finishes_Ok|].
    apply IH. apply ac3_body_decreases in E. lia.
Qed.

(** *** The search *)

Lemma select_unassigned_variable_result overlaps assignment st r st1 :
  select_unassigned_variable overlaps assignment st = Ok (r, st1) ->
  st1 = {| variables :=
             filter (fun v => negb (dict_mem v assignment)) (variables st);
           domains := domains st |} /\
  forall v, r = Some v -> In v (variables st1).
Proof.
  unfold select_unassigned_variable. intros E.
  match type of E with
  | context [for_in ?l ?body None] =>
      destruct (for_in l body None) as [less| |] eqn:Eloop; simpl in E;
        try discriminate;
        pose proof (for_in_partial
                      (fun pre (less : option (Var.t * nat)) =>
                         forall v n, less = Some (v, n) -> In v pre)
                      l body) as HI
  end.
  injection E as <- <-. split; [reflexivity|].
  intros v Hv. simpl.
  destruct less as [[v' n]|]; simpl in Hv; [|discriminate].
  injection Hv as ->.
  apply (HI) with (pre := []) (s := None) (s' := Some (v, n)) (n := n);
    auto; [|discriminate].
  clear. intros pre var less less' _ Hless Eb v n ->.
  destruct (order_domain_values _ _ _ _) as [values| |]; simpl in Eb;
    try discriminate.
  apply in_or_app.
  destruct less as [[lessVar lessN]|].
  - destruct (List.length values <? lessN);
      [injection Eb as <- <-; simpl; auto|].
    destruct (List.length values =? lessN).
    + match type of Eb with
      | context [if ?c then _ else _] => destruct c
      end; injection Eb as <- <-; simpl; eauto.
    + injection Eb as <- <-. eauto.
  - injection Eb as <- <-. simpl; auto.
Qed.

Lemma filter_length_lt {A} (p : A -> bool) (l : list A) (x : A) :
  In x l -> p x = false -> List.length (filter p l) < List.length l.
Proof.
  induction l as [|a l IH]; simpl; [tauto|].
  intros [-> | Hin] Hp.
  - rewrite Hp. pose proof (filter_length_le p l). lia.
  - specialize (IH Hin Hp). destruct (p a); simpl; lia.
Qed.

(** [backtrack] recurses at most once per variable left unassigned. *)
Lemma backtrack_finishes overlaps fuel :
  forall assignment st,
    List.length (filter (fun v => negb (dict_mem v assignment)) (variables st))
    < fuel ->
    finishes (backtrack overlaps fuel assignment st).
Proof.
  induction fuel as [|fuel IH]; intros a st Hm; [lia|].
  destruct (assignment_complete a st) eqn:Hc.
  { simpl. rewrite Hc. apply finishes_Ok. }
  destruct (select_unassigned_variable overlaps a st) as [[r st1]| |] eqn:Es.
  - destruct (select_unassigned_variable_result _ _ _ _ _ Es) as [Hst1 Hr].
    destruct r as [var|].
    + destruct (order_domain_values overlaps var a st1) as [values| |] eqn:Eo.
      * destruct values as [|value values].
        -- rewrite (backtrack_no_candidate _ _ _ _ _ _ Hc Es Eo).
           apply finishes_Ok.
        -- rewrite (backtrack_first_candidate _ _ _ _ _ _ _ _ Hc Es Eo).
           apply IH.
           assert (Hlt : List.length
                           (filter (fun v => negb (dict_mem v (dict_set var value a)))
                                   (variables st1))
                         < List.length (variables st1)).
           { apply filter_length_lt with (x := var); auto.
             unfold dict_mem. now rewrite dict_get_set_same. }
           rewrite Hst1 in Hlt at 2. simpl in Hlt. lia.
      * simpl. rewrite Hc, Es. simpl. rewrite Eo. apply finishes_Raise.
      * exfalso. now apply (finishes_order_domain_values overlaps var a st1).
    + simpl. rewrite Hc, Es. apply finishes_Raise.
  - simpl. rewrite Hc, Es. apply finishes_Raise.
  - exfalso. now apply (finishes_select_unassigned_variable overlaps a st).
Qed.

(** With [enough_fuel], [solve] returns or raises: neither of its loops
    runs out of fuel. *)
Lemma solve_finishes overlaps st fuel :
  enough_fuel st <= fuel -> finishes (solve overlaps fuel st).
Proof.
  unfold enough_fuel, solve, ac3. intros Hf.
  apply finishes_bind.
  - apply ac3_while_finishes. lia.
  - intros [b st2] E. apply ac3_while_shrinks in E. destruct E as [[Hv _] _].
    apply finishes_bind.
    + apply backtrack_finishes.
      pose proof (filter_length_le
                    (fun v => negb (dict_mem v (@nil (Var.t * string))))
                    (variables st2)) as Hle.
      rewrite Hv in Hle at 2. lia.
    + intros [[result a] st3] _. apply finishes_Ok.
Qed.

(** ** Determinism *)

Lemma bind_OutOfFuel {A B} (m : res A) (k : A -> res B) :
  bind m k <> OutOfFuel -> m <> OutOfFuel.
Proof. intros H E. apply H. now rewrite E. Qed.

Lemma for_in_ret_agree {A S R} (body body' : A -> S -> res (S + R)) (l : list A) :
  (forall a s, body a s <> OutOfFuel -> body' a s = body a s) ->
  forall s, for_in_ret l body s <> OutOfFuel ->
            for_in_ret l body' s = for_in_ret l body s.
Proof.
  intros Hb. induction l as [|a l IH]; simpl; intros s H; auto.
  rewrite (Hb a s) by exact (bind_OutOfFuel _ _ H).
  destruct (body a s) as [[s' | r]| |]; simpl in *; auto.
Qed.

(** More fuel does not change what the loop of [ac3] returns. *)
Lemma ac3_while_fuel overlaps fuel :
  forall arcs st fuel',
    ac3_while overlaps fuel arcs st <> OutOfFuel -> fuel <= fuel' ->
    ac3_while overlaps fuel' arcs st = ac3_while overlaps fuel arcs st.
Proof.
  induction fuel as [|fuel IH]; intros arcs st fuel' H Hle.
  - destruct arcs; simpl in H; [|contradiction]. now destruct fuel'.
  - destruct fuel' as [|fuel']; [lia|].
    destruct arcs as [|arc arcs]; simpl in *; auto.
    destruct (ac3_body overlaps arc arcs st) as [[[b|arcs'] st']| |]; simpl in *;
      auto.
    apply IH; auto. lia.
Qed.

(** More fuel does not change what [backtrack] returns. *)
Lemma backtrack_fuel overlaps fuel :
  forall assignment st fuel',
    backtrack overlaps fuel assignment st <> OutOfFuel -> fuel <= fuel' ->
    backtrack overlaps fuel' assignment st = backtrack overlaps fuel assignment st.
Proof.
  induction fuel as [|fuel IH]; intros a st fuel' H Hle.
  - simpl in H. contradiction.
  - destruct fuel' as [|fuel']; [lia|]. simpl in *.
    destruct (assignment_complete a st); auto.
    destruct (select_unassigned_variable overlaps a st) as [[[var|] st1]| |];
      simpl in *; auto.
    destruct (order_domain_values overlaps var a st1) as [values| |];
      simpl in *; auto.
    apply bind_OutOfFuel in H.
    match type of H with
    | for_in_ret values ?body _ <> _ =>
        match goal with
        | |- bind (for_in_ret values ?body' _) _ = _ =>
            rewrite (for_in_ret_agree body body' values); [reflexivity| |exact H]
        end
    end.
    intros value [a' st'] Hb.
    rewrite IH; auto; [|lia]. exact (bind_OutOfFuel _ _ Hb).
Qed.

Lemma solve_fuel overlaps st fuel fuel' :
  solve overlaps fuel st <> OutOfFuel -> fuel <= fuel' ->
  solve overlaps fuel' st = solve overlaps fuel st.
Proof.
  unfold solve, ac3. intros H Hle.
  pose proof (bind_OutOfFuel _ _ H) as Hac3.
  rewrite (ac3_while_fuel _ _ _ _ _ Hac3 Hle).
  destruct (ac3_while overlaps fuel _ _) as [[b st2]| |]; simpl in *; auto.
  pose proof (bind_OutOfFuel _ _ H) as Hbt.
  now rewrite (backtrack_fuel _ _ _ _ _ Hbt Hle).
Qed.


(** ** Further properties of the solver *)

(** X1: given [enough_fuel st] or more, [solve] does not run out of fuel:
    both the propagation loop of [ac3] and the recursion of [backtrack]
    terminate on every instance. *)
Theorem solve_terminates overlaps st fuel :
  enough_fuel st <= fuel -> finishes (solve overlaps fuel st).
Proof. apply solve_finishes. Qed.

(** [solve_terminates] on the five-slot grid. *)
Lemma solve_terminates_witness :
  let instance :=
    init [gA; gB; gC; gD; gE]
         ["CAT"; "HORSE"; "TOE"; "TEN"; "OAK"; "OWL"; "SUN"; "SKY"] in
  enough_fuel instance = 200 /\ finishes (solve grid_overlaps 200 instance).
Proof.
  intros instance. split; [reflexivity|].
  apply (solve_terminates grid_overlaps instance 200).
  vm_compute. repeat constructor.
Defined.

(** X2: arc consistency never adds a word: when [ac3] returns, the
    variable set and the keys of the domains are those it started with, and
    every domain is included in the domain the variable had before. *)
Theorem ac3_only_removes_words overlaps fuel arcs st b st' :
  ac3 overlaps fuel arcs st = Ok (b, st') -> shrinks st st'.
Proof.
  unfold ac3. intros E. now apply ac3_while_shrinks in E.
Qed.

(** [ac3_only_removes_words] on the five-slot grid. *)
Lemma ac3_only_removes_words_witness :
  shrinks
    (enforce_node_consistency
       (init [gA; gB; gC; gD; gE]
             ["CAT"; "HORSE"; "TOE"; "TEN"; "OAK"; "OWL"; "SUN"; "SKY"]))
    grid_state.
Proof.
  apply (ac3_only_removes_words grid_overlaps 30 None _ true).
  vm_compute. reflexivity.
Defined.

(** X3: on a node-consistent state of a well-formed instance,
    [select_unassigned_variable] returns a variable that is not in the
    assignment and has the fewest remaining values among the unassigned
    variables (or ['x'] when no variable is unassigned). *)
Theorem select_fewest_remaining_values overlaps st assignment :
  overlaps_in_range overlaps ->
  incl (variables st) (keys (domains st)) ->
  node_consistent (domains st) ->
  exists r st',
    select_unassigned_variable overlaps assignment st = Ok (r, st') /\
    domains st' = domains st /\
    match r with
    | None => forall v, In v (variables st) -> dict_mem v assignment = true
    | Some v =>
        In v (variables st) /\ dict_mem v assignment = false /\
        forall u, In u (variables st) -> dict_mem u assignment = false ->
                  dom_size st v <= dom_size st u
    end.
Proof.
  intros Hrange Hkeys Hnode.
  destruct (select_unassigned_variable_total overlaps Hrange st Hkeys Hnode
              assignment) as [r [E Hr]].
  eexists r, _. split; [exact E|]. split; [reflexivity|].
  simpl in Hr. destruct r as [v|].
  - destruct Hr as [Hv Hmin]. apply filter_In in Hv. destruct Hv as [Hv Hun].
    apply negb_true_iff in Hun. repeat split; auto.
    intros u Hu Hun'. apply Hmin, filter_In. split; auto. now rewrite Hun'.
  - intros v Hv. destruct (dict_mem v assignment) eqn:Em; auto.
    assert (Hin : In v (filter (fun v => negb (dict_mem v assignment))
                               (variables st))).
    { apply filter_In. split; auto. now rewrite Em. }
    rewrite Hr in Hin. contradiction.
Qed.

Lemma grid_state_node_consistent : node_consistent (domains grid_state).
Proof.
  pose (words := ["CAT"; "HORSE"; "TOE"; "TEN"; "OAK"; "OWL"; "SUN"; "SKY"]).
  destruct (preprocessed_state [gA; gB; gC; gD; gE] words grid_variables_NoDup)
    as [_ [_ Hnode]].
  refine (shrinks_node_consistent _ _ _ Hnode).
  assert (E : ac3_while grid_overlaps 30
                (all_arcs (enforce_node_consistency (init [gA; gB; gC; gD; gE] words)))
                (enforce_node_consistency (init [gA; gB; gC; gD; gE] words))
              = Ok (true, grid_state)) by (vm_compute; reflexivity).
  now apply ac3_while_shrinks in E.
Qed.

(** [select_fewest_remaining_values] on the five-slot grid with [gA]
    assigned. *)
Lemma select_fewest_remaining_values_witness :
  exists r st',
    select_unassigned_variable grid_overlaps [(gA, "CAT")] grid_state
    = Ok (r, st') /\
    domains st' = domains grid_state /\
    match r with
    | None =>
        forall v, In v (variables grid_state) ->
                  dict_mem v [(gA, "CAT")] = true
    | Some v =>
        In v (variables grid_state) /\ dict_mem v [(gA, "CAT")] = false /\
        forall u, In u (variables grid_state) ->
                  dict_mem u [(gA, "CAT")] = false ->
                  dom_size grid_state v <= dom_size grid_state u
    end.
Proof.
  apply (select_fewest_remaining_values grid_overlaps grid_state [(gA, "CAT")]).
  - exact grid_overlaps_in_range.
  - apply incl_refl.
  - exact grid_state_node_consistent.
Defined.

(** *** Node consistency is idempotent *)

Lemma State_ext (s1 s2 : State) :
  variables s1 = variables s2 -> domains s1 = domains s2 -> s1 = s2.
Proof. destruct s1, s2; simpl; intros -> ->; reflexivity. Qed.

Lemma node_filter_NoDup (n : nat) (words : list string) :
  forall acc,
    NoDup acc ->
    NoDup (fold_left
             (fun s word =>
                if String.length word =? n then set_add String.eqb word s else s)
             words acc).
Proof.
  induction words as [|word words IH]; simpl; intros acc H; auto.
  apply IH. destruct (String.length word =? n); auto.
  now apply (set_add_NoDup String.eqb String.eqb_eq).
Qed.

Lemma node_filter_fixed (n : nat) (words : list string) :
  forall acc,
    NoDup (acc ++ words) ->
    (forall w, In w words -> String.length w = n) ->
    fold_left
      (fun s word =>
         if String.length word =? n then set_add String.eqb word s else s)
      words acc = acc ++ words.
Proof.
  induction words as [|word words IH]; simpl; intros acc Hnd Hlen.
  - now rewrite app_nil_r.
  - rewrite (proj2 (Nat.eqb_eq _ _) (Hlen word (or_introl eq_refl))).
    unfold set_add.
    rewrite (proj2 (set_mem_not_In String.eqb String.eqb_eq word acc)).
    + rewrite IH; auto.
      * now rewrite <- app_assoc.
      * now rewrite <- app_assoc.
    + apply NoDup_remove_2 in Hnd. rewrite in_app_iff in Hnd. tauto.
Qed.

(** X4: applying node-consistency filtering twice yields the same state as
    applying it once. *)
Theorem enforce_node_consistency_idempotent st :
  NoDup (keys (domains st)) ->
  enforce_node_consistency (enforce_node_consistency st)
  = enforce_node_consistency st.
Proof.
  intros Hnd.
  set (nf := fun (var : Var.t) (words : list string) =>
               fold_left
                 (fun s word =>
                    if String.length word =? Var.length var
                    then set_add String.eqb word s else s)
                 words []).
  assert (Hd : forall st0, NoDup (keys (domains st0)) ->
                 domains (enforce_node_consistency st0)
                 = map (fun '(k, v) => (k, nf k v)) (domains st0)).
  { intros st0 H0. unfold enforce_node_consistency. simpl.
    rewrite (fold_dict_set_entries nf) by (auto; intros k _ []).
    reflexivity. }
  assert (Hk : keys (domains (enforce_node_consistency st)) = keys (domains st)).
  { rewrite Hd by auto. apply keys_map_entries. }
  assert (E : domains (enforce_node_consistency (enforce_node_consistency st))
              = domains (enforce_node_consistency st)).
  { rewrite (Hd (enforce_node_consistency st)) by now rewrite Hk.
    rewrite Hd by auto. rewrite map_map.
    apply map_ext. intros [k ws]. f_equal.
    unfold nf at 1.
    rewrite node_filter_fixed; auto.
    - simpl. unfold nf. apply node_filter_NoDup. constructor.
    - intros w Hw. unfold nf in Hw. apply node_filter_In in Hw.
      destruct Hw as [[] | Hw]; auto. }
  apply State_ext; [reflexivity | exact E].
Qed.

(** [enforce_node_consistency_idempotent] on the five-slot grid. *)
Lemma enforce_node_consistency_idempotent_witness :
  let st := init [gA; gB; gC; gD; gE] ["CAT"; "HORSE"; "TOE"] in
  enforce_node_consistency (enforce_node_consistency st)
  = enforce_node_consistency st.
Proof.
  intros st. apply (enforce_node_consistency_idempotent st).
  unfold st. rewrite init_keys; exact grid_variables_NoDup.
Defined.

(** ** The solver raises nothing on a well-formed instance *)

Section WellFormed.
Variable overlaps : Var.t -> Var.t -> option (option (nat * nat)).
Variable vars : list Var.t.
Hypothesis Hnodup : NoDup vars.
Hypothesis Hrange : overlaps_in_range overlaps.
Hypothesis Hdefined : overlaps_defined overlaps vars.

Lemma state_wf_shrinks st st' :
  state_wf vars st -> shrinks st st' -> state_wf vars st'.
Proof.
  intros [K [V N]] Hs. pose proof Hs as [V' [K' _]].
  split; [congruence|]. split; [now rewrite V'|].
  eapply shrinks_node_consistent; eauto.
Qed.

Lemma revise_returns x y st :
  state_wf vars st -> In x vars -> In y vars -> x <> y ->
  exists b st', revise overlaps x y st = Ok (b, st').
Proof.
  intros [K [V N]] Hx Hy Hxy.
  unfold revise, overlaps_lookup.
  destruct (overlaps x y) as [[[o0 o1]|]|] eqn:Ho;
    [| cbn [bind]; eauto | now apply Hdefined in Ho].
  cbn [bind].
  rewrite <- K in Hx, Hy. apply dict_get_keys in Hx, Hy.
  destruct Hx as [domX HdomX], Hy as [domY HdomY].
  unfold dict_lookup at 1. rewrite HdomX. cbn [bind].
  destruct (Hrange _ _ _ _ Ho) as [R0 R1].
  destruct (revise_outer_total st y o0 o1 domY HdomY domX) as [acc Eloop].
  - intros wx Hwx. now rewrite (N _ _ _ HdomX Hwx).
  - intros wy Hwy. now rewrite (N _ _ _ HdomY Hwy).
  - match goal with
    | |- context [for_in domX ?body []] =>
        replace (for_in domX body []) with (Ok acc) by (symmetry; exact Eloop)
    end.
    cbn [bind]. destruct (set_eqb String.eqb acc domX); eauto.
Qed.

Lemma ac3_body_returns arc arcs st :
  state_wf vars st -> arcs_wf vars (arc :: arcs) ->
  exists o st',
    ac3_body overlaps arc arcs st = Ok (o, st') /\
    shrinks st st' /\
    forall arcs', o = Ac3Continue arcs' -> arcs_wf vars arcs'.
Proof.
  intros Hst Harcs. destruct arc as [x y].
  destruct (Harcs x y (or_introl eq_refl)) as [Hx [Hy Hxy]].
  assert (Hrest : arcs_wf vars arcs).
  { intros x' y' H. apply Harcs. now right. }
  destruct (revise_returns x y st Hst Hx Hy Hxy) as [b [st' Er]].
  pose proof (revise_shrinks _ _ _ _ _ _ Er) as Hs.
  pose proof (state_wf_shrinks _ _ Hst Hs) as [K' [V' N']].
  unfold ac3_body. cbn [fst snd]. rewrite Er. cbn [bind].
  destruct b.
  - rewrite <- K' in Hx. apply dict_get_keys in Hx. destruct Hx as [domX Hd].
    unfold dict_lookup. rewrite Hd. cbn [bind].
    destruct (List.length domX =? 0).
    + do 2 eexists. split; [reflexivity|]. split; auto. discriminate.
    + do 2 eexists. split; [reflexivity|]. split; auto.
      intros arcs' [= <-].
      destruct (ac3_enqueue x (neighbors overlaps st' x) arcs)
        as [new [E1 [_ E3]]].
      match goal with
      | |- arcs_wf vars ?q => replace q with (arcs ++ new) by (symmetry; exact E1)
      end.
      intros x' y' Hin. apply in_app_or in Hin. destruct Hin as [Hin | Hin].
      * now apply Hrest.
      * apply E3 in Hin. destruct Hin as [[z [[= -> ->] Hz]] _].
        apply neighbors_spec in Hz. destruct Hz as [Hz [Hne _]].
        repeat split; auto. rewrite <- K'. apply dict_get_keys. eauto.
  - do 2 eexists. split; [reflexivity|]. split; auto.
    intros arcs' [= <-]. exact Hrest.
Qed.

Lemma ac3_while_returns fuel :
  forall arcs st,
    ac3_measure st arcs < fuel ->
    state_wf vars st -> arcs_wf vars arcs ->
    exists b st', ac3_while overlaps fuel arcs st = Ok (b, st').
Proof.
  induction fuel as [|fuel IH]; intros arcs st Hm Hst Harcs; [lia|].
  destruct arcs as [|arc arcs]; simpl; [eauto|].
  destruct (ac3_body_returns arc arcs st Hst Harcs) as [o [st' [Eb [Hs Hq]]]].
  rewrite Eb. cbn [bind].
  destruct o as [b|arcs']; [eauto|].
  apply IH.
  - apply ac3_body_decreases in Eb. lia.
  - eapply state_wf_shrinks; eauto.
  - now apply Hq.
Qed.

Lemma all_arcs_wf st : state_wf vars st -> arcs_wf vars (all_arcs st).
Proof.
  intros [K _] x y Hin. unfold all_arcs in Hin. rewrite K in Hin.
  apply in_flat_map in Hin. destruct Hin as [x' [Hx' Hin]].
  apply in_map_iff in Hin. destruct Hin as [y' [[= <- <-] Hy']].
  apply filter_In in Hy'. destruct Hy' as [Hy' Hne].
  apply negb_true_iff, Var_eqb_neq in Hne. auto.
Qed.

End WellFormed.

Section WellFormedSearch.
Variable overlaps : Var.t -> Var.t -> option (option (nat * nat)).
Variable vars : list Var.t.
Hypothesis Hnodup : NoDup vars.
Hypothesis Hrange : overlaps_in_range overlaps.

Lemma assignment_incomplete_unassigned st a :
  state_wf vars st -> assignment_wf vars st a ->
  assignment_complete a st = false ->
  filter (fun v => negb (dict_mem v a)) (variables st) <> [].
Proof.
  intros [K [V N]] [A1 [A2 [A3 A4]]] Hc Hnil.
  assert (Hall : incl vars (keys a)).
  { intros v Hv. apply dict_mem_keys.
    destruct (dict_mem v a) eqn:Em; auto.
    destruct (A3 v Hv) as [Hin | Hm]; [|congruence].
    assert (Hf : In v (filter (fun v => negb (dict_mem v a)) (variables st))).
    { apply filter_In. split; auto. now rewrite Em. }
    rewrite Hnil in Hf. contradiction. }
  pose proof (NoDup_incl_length Hnodup Hall) as L1.
  pose proof (NoDup_incl_length A1 A2) as L2.
  unfold assignment_complete in Hc. rewrite K in Hc.
  destruct (List.length (keys a) =? List.length vars) eqn:E; [discriminate|].
  apply Nat.eqb_neq in E. lia.
Qed.

(** On a well-formed state, [backtrack] returns [None] or a complete
    assignment of words taken from the domains. *)
Lemma backtrack_returns fuel :
  forall a st,
    List.length (filter (fun v => negb (dict_mem v a)) (variables st)) < fuel ->
    state_wf vars st -> assignment_wf vars st a ->
    exists r a' st',
      backtrack overlaps fuel a st = Ok (r, a', st') /\
      domains st' = domains st /\
      (r = PyNone \/
       (r = PyDict a' /\ List.length (keys a') = List.length vars /\
        assignment_wf vars st' a')).
Proof.
  induction fuel as [|fuel IH]; intros a st Hm Hst Ha; [lia|].
  destruct (assignment_complete a st) eqn:Hc.
  { exists (PyDict a), a, st. simpl. rewrite Hc.
    split; [reflexivity|]. split; [reflexivity|]. right.
    split; [reflexivity|]. split; [|exact Ha].
    unfold assignment_complete in Hc. destruct Hst as [K _]. rewrite K in Hc.
    destruct (List.length (keys a) =? List.length vars) eqn:E; [|discriminate].
    now apply Nat.eqb_eq in E. }
  pose proof (assignment_incomplete_unassigned st a Hst Ha Hc) as Hne.
  pose proof Hst as [K [V N]]. pose proof Ha as [A1 [A2 [A3 A4]]].
  assert (Hkeys : incl (variables st) (keys (domains st))) by now rewrite K.
  destruct (select_unassigned_variable_total overlaps Hrange st Hkeys N a)
    as [r [Es Hr]].
  set (st1 := {| variables := filter (fun v => negb (dict_mem v a)) (variables st);
                 domains := domains st |}) in *.
  destruct r as [var|]; [|simpl in Hr; contradiction].
  destruct Hr as [Hvar _].
  pose proof Hvar as Hvar'. simpl in Hvar'. apply filter_In in Hvar'.
  destruct Hvar' as [Hin Hun]. apply negb_true_iff in Hun.
  assert (Hst1 : state_wf vars st1).
  { split; [exact K|]. split; [|exact N].
    intros v Hv. simpl in Hv. apply filter_In in Hv. apply V, Hv. }
  assert (Hkeys1 : incl (variables st1) (keys (domains st1))).
  { destruct Hst1 as [K1 [V1 _]]. now rewrite K1. }
  destruct (proj1 (dict_get_keys var (domains st1)) (Hkeys1 _ Hvar))
    as [domVar Hdom].
  destruct (order_domain_values_total overlaps Hrange st1 Hkeys1 N var a domVar Hdom)
    as [values [Eo Hp]].
  destruct values as [|value values].
  { exists PyNone, a, st1.
    rewrite (backtrack_no_candidate _ _ _ _ _ _ Hc Es Eo). auto. }
  rewrite (backtrack_first_candidate _ _ _ _ _ _ _ _ Hc Es Eo).
  assert (Hnew : ~ In var (keys a)).
  { intros H. apply dict_mem_keys in H. congruence. }
  destruct (IH (dict_set var value a) st1) as [r [a' [st' [E [Hd Hres]]]]].
  - assert (Hlt : List.length
                    (filter (fun v => negb (dict_mem v (dict_set var value a)))
                            (variables st1))
                  < List.length (variables st1)).
    { apply filter_length_lt with (x := var); auto.
      unfold dict_mem. now rewrite dict_get_set_same. }
    simpl in Hlt |- *. lia.
  - exact Hst1.
  - rewrite dict_set_new by exact Hnew.
    unfold assignment_wf, keys. rewrite map_app. simpl.
    split; [|split; [|split]].
    + apply NoDup_app; auto.
      * repeat constructor. simpl. tauto.
      * intros x Hx [<- | []]. contradiction.
    + intros v Hv. apply in_app_or in Hv. destruct Hv as [Hv | [<- | []]]; auto.
    + intros v Hv.
      destruct (dict_mem v (a ++ [(var, value)])) eqn:Em; auto. left.
      assert (Hva : dict_mem v a = false).
      { destruct (dict_mem v a) eqn:Em'; auto.
        apply dict_mem_keys in Em'.
        assert (Hk : In v (keys (a ++ [(var, value)]))).
        { unfold keys. rewrite map_app. apply in_or_app. now left. }
        apply dict_mem_keys in Hk. congruence. }
      destruct (A3 v Hv) as [Hv' | Hv']; [|congruence].
      apply filter_In. split; auto. now rewrite Hva.
    + intros v w Hvw. apply in_app_or in Hvw.
      destruct Hvw as [Hvw | [[= <- <-] | []]]; [now apply A4|].
      exists domVar. split; auto.
      apply Permutation_in with (l := value :: values); simpl; auto.
  - exists r, a', st'. split; [exact E|]. split; [now rewrite Hd|]. exact Hres.
Qed.

End WellFormedSearch.

(** X5: on every well-formed instance (a variable set without duplicates,
    an overlap entry for every ordered pair of distinct variables, overlap
    indices inside the slots), [solve] raises nothing: given enough fuel it
    returns [None] or an assignment that is complete, binds each variable
    once, and gives every variable a word of its required length. *)
Theorem solve_returns_on_well_formed overlaps vars words fuel :
  NoDup vars ->
  overlaps_in_range overlaps ->
  overlaps_defined overlaps vars ->
  enough_fuel (init vars words) <= fuel ->
  exists result st',
    solve overlaps fuel (init vars words) = Ok (result, st') /\
    (result = PyNone \/
     exists a,
       result = PyDict a /\
       complete_spec vars a = true /\
       NoDup (keys a) /\
       forall v w, In (v, w) a -> String.length w = Var.length v).
Proof.
  intros Hnd Hrange Hdef Hfuel. unfold enough_fuel in Hfuel.
  destruct (preprocessed_state vars words Hnd) as [V1 [K1 N1]].
  set (st1 := enforce_node_consistency (init vars words)) in *.
  assert (Hst1 : state_wf vars st1).
  { split; [exact K1|]. split; [|exact N1]. rewrite V1. apply incl_refl. }
  destruct (ac3_while_returns overlaps vars Hrange Hdef fuel (all_arcs st1) st1)
    as [b [st2 Eac3]]; [lia | exact Hst1 | now apply all_arcs_wf |].
  pose proof (ac3_while_shrinks _ _ _ _ _ _ Eac3) as [Hs _].
  pose proof (state_wf_shrinks vars _ _ Hst1 Hs) as Hst2.
  destruct Hs as [V2 _].
  destruct (backtrack_returns overlaps vars Hnd Hrange fuel [] st2)
    as [r [a' [st' [Eb [Hd Hres]]]]].
  - pose proof (filter_length_le
                  (fun v => negb (dict_mem v (@nil (Var.t * string))))
                  (variables st2)) as Hle.
    rewrite V2 in Hle at 2. lia.
  - exact Hst2.
  - split; [constructor|]. split; [intros v []|]. split; [|intros v w []].
    intros v Hv. left. rewrite V2. fold st1. now rewrite V1.
  - exists r, st'. unfold solve, ac3. fold st1. rewrite Eac3. cbn [bind].
    rewrite Eb. cbn [bind]. split; [reflexivity|].
    destruct Hres as [-> | [-> [Hlen [A1 [A2 [_ A4]]]]]]; [now left|].
    right. exists a'. split; [reflexivity|]. split; [|split; [exact A1|]].
    + unfold complete_spec. apply forallb_forall. intros v Hv.
      apply dict_mem_keys.
      assert (Hincl : incl vars (keys a'))
        by (apply (NoDup_length_incl A1); [lia | exact A2]).
      apply Hincl, Hv.
    + intros v w Hvw. destruct (A4 v w Hvw) as [ws [Hws Hw]].
      destruct Hst2 as [_ [_ N2]]. rewrite <- Hd in N2.
      exact (N2 _ _ _ Hws Hw).
Qed.

(** [solve_returns_on_well_formed] on the five-slot grid. *)
Lemma solve_returns_on_well_formed_witness :
  let vars := [gA; gB; gC; gD; gE] in
  let words := ["CAT"; "HORSE"; "TOE"; "TEN"; "OAK"; "OWL"; "SUN"; "SKY"] in
  exists result st',
    solve grid_overlaps 200 (init vars words) = Ok (result, st') /\
    (result = PyNone \/
     exists a,
       result = PyDict a /\
       complete_spec vars a = true /\
       NoDup (keys a) /\
       forall v w, In (v, w) a -> String.length w = Var.length v).
Proof.
  intros vars words.
  apply (solve_returns_on_well_formed grid_overlaps vars words 200).
  - exact grid_variables_NoDup.
  - exact grid_overlaps_in_range.
  - exact grid_overlaps_defined.
  - vm_compute. repeat constructor.
Defined.

(** ** Arc consistency is reached *)

(** What a revision that returns leaves in the domains. *)
Lemma revise_domains overlaps x y st b st' o0 o1 domX domY :
  revise overlaps x y st = Ok (b, st') ->
  overlaps x y = Some (Some (o0, o1)) ->
  dict_get x (domains st) = Some domX ->
  dict_get y (domains st) = Some domY ->
  exists domX',
    dict_get x (domains st') = Some domX' /\
    (forall wx, In wx domX' <-> In wx domX /\ supported o0 o1 domY wx) /\
    (b = false -> forall wx, In wx domX -> supported o0 o1 domY wx).
Proof.
  intros E Ho HdomX HdomY.
  unfold revise, overlaps_lookup in E. rewrite Ho in E. cbn [bind] in E.
  unfold dict_lookup at 1 in E. rewrite HdomX in E. cbn [bind] in E.
  match type of E with
  | context [for_in domX ?body []] =>
      destruct (for_in domX body []) as [acc| |] eqn:Eloop; cbn [bind] in E;
        try discriminate
  end.
  pose proof (revise_outer_partial st y o0 o1 domY HdomY domX acc Eloop) as Hacc.
  destruct (set_eqb String.eqb acc domX) eqn:Eeq; injection E as <- <-.
  - rewrite (set_eqb_iff String.eqb String.eqb_eq) in Eeq.
    exists domX. split; [exact HdomX|]. split.
    + intros wx. rewrite <- Hacc. symmetry. apply Eeq.
    + intros _ wx Hwx. now apply Hacc, Eeq.
  - simpl. exists acc. rewrite dict_get_set_same.
    split; [reflexivity|]. split; [exact Hacc | discriminate].
Qed.

(** A revision touches no domain but that of its first argument. *)
Lemma revise_frame overlaps x y st b st' z :
  revise overlaps x y st = Ok (b, st') -> z <> x ->
  dict_get z (domains st') = dict_get z (domains st).
Proof.
  intros E Hz. unfold revise in E.
  destruct (overlaps_lookup overlaps x y) as [[[o0 o1]|]| |]; cbn [bind] in E;
    try discriminate.
  - destruct (dict_lookup x (domains st)) as [domX| |]; cbn [bind] in E;
      try discriminate.
    match type of E with
    | context [for_in domX ?body []] =>
        destruct (for_in domX body []) as [acc| |]; cbn [bind] in E;
          try discriminate
    end.
    destruct (set_eqb String.eqb acc domX); injection E as <- <-; auto.
    simpl. now apply dict_get_set_other.
  - now injection E as <- <-.
Qed.

Lemma all_arcs_complete st x y :
  In x (keys (domains st)) -> In y (keys (domains st)) -> x <> y ->
  In (x, y) (all_arcs st).
Proof.
  intros Hx Hy Hxy. unfold all_arcs. apply in_flat_map. exists x. split; auto.
  apply in_map. apply filter_In. split; auto.
  apply negb_true_iff, Var_eqb_neq. congruence.
Qed.

Section Convergence.
Variable overlaps : Var.t -> Var.t -> option (option (nat * nat)).
Hypothesis Hsym : overlaps_symmetric overlaps.
Variable vars : list Var.t.

(** The invariant of the loop of [ac3]: the crossword's variable set and
    the keys of the domains are the variables of the instance, the queue
    holds arcs between distinct variables, and every arc that is not
    pending is consistent. *)
Let ac3_inv (st : State) (arcs : list Arc) : Prop :=
  variables st = vars /\ keys (domains st) = vars /\ arcs_wf vars arcs /\
  forall x y, In x vars -> In y vars -> x <> y ->
              In (x, y) arcs \/ arc_consistent overlaps st x y.

Lemma ac3_body_inv arc arcs st arcs' st' :
  ac3_inv st (arc :: arcs) ->
  ac3_body overlaps arc arcs st = Ok (Ac3Continue arcs', st') ->
  ac3_inv st' arcs'.
Proof.
  intros [V [K [W I]]] E. destruct arc as [x y].
  destruct (W x y (or_introl eq_refl)) as [Hx [Hy Hxy]].
  assert (Wrest : arcs_wf vars arcs) by (intros a b H; apply W; now right).
  unfold ac3_body in E. cbn [fst snd] in E.
  destruct (revise overlaps x y st) as [[b st1]| |] eqn:Er; cbn [bind] in E;
    try discriminate.
  pose proof (revise_shrinks _ _ _ _ _ _ Er) as [V1 [K1 _]].
  assert (Hxy_ok : arc_consistent overlaps st1 x y).
  { intros o0 o1 domX1 domY1 Ho HX1 HY1 wx Hwx.
    rewrite (revise_frame _ _ _ _ _ _ y Er) in HY1 by congruence.
    assert (Hxk : In x (keys (domains st))) by now rewrite K.
    apply dict_get_keys in Hxk. destruct Hxk as [domX HdomX].
    destruct (revise_domains _ _ _ _ _ _ _ _ _ _ Er Ho HdomX HY1)
      as [domX' [H1 [H2 _]]].
    rewrite H1 in HX1. injection HX1 as <-. now apply H2. }
  assert (Hother : forall a c, c <> x -> arc_consistent overlaps st a c ->
                               arc_consistent overlaps st1 a c).
  { intros a c Hc Hac o0 o1 domA1 domC1 Ho HA1 HC1 wa Hwa.
    rewrite (revise_frame _ _ _ _ _ _ c Er) in HC1 by exact Hc.
    destruct (Var.eqb a x) eqn:Ea.
    - apply Var_eqb_eq in Ea. subst a.
      destruct (revise_shrinks _ _ _ _ _ _ Er) as [_ [_ D]].
      destruct (D _ _ HA1) as [domA [HA Hincl]].
      exact (Hac _ _ _ _ Ho HA HC1 wa (Hincl _ Hwa)).
    - apply Var_eqb_neq in Ea.
      rewrite (revise_frame _ _ _ _ _ _ a Er) in HA1 by exact Ea.
      exact (Hac _ _ _ _ Ho HA1 HC1 wa Hwa). }
  destruct b.
  - destruct (dict_lookup x (domains st1)) as [domX1| |]; cbn [bind] in E;
      try discriminate.
    destruct (List.length domX1 =? 0); [discriminate|].
    injection E as <- <-.
    destruct (ac3_enqueue x (neighbors overlaps st1 x) arcs)
      as [new [E1 [_ E3]]].
    match goal with
    | |- ac3_inv st1 ?q => replace q with (arcs ++ new) by (symmetry; exact E1)
    end.
    split; [congruence|]. split; [congruence|]. split.
    + intros a c Hin. apply in_app_or in Hin. destruct Hin as [Hin | Hin].
      * now apply Wrest.
      * apply E3 in Hin. destruct Hin as [[z [[= -> ->] Hz]] _].
        apply neighbors_spec in Hz. destruct Hz as [Hz [Hne _]].
        repeat split; auto. congruence.
    + intros a c Ha Hc Hac.
      destruct (I a c Ha Hc Hac) as [[[= -> ->] | Hin] | Hcons].
      * now right.
      * left. apply in_or_app. now left.
      * destruct (Var.eqb c x) eqn:Ec.
        -- apply Var_eqb_eq in Ec. subst c.
           destruct (set_mem Arc_eqb (a, x) arcs) eqn:Em.
           { left. apply in_or_app. left.
             now apply (set_mem_In Arc_eqb Arc_eqb_eq). }
           apply (set_mem_not_In Arc_eqb Arc_eqb_eq) in Em.
           destruct (overlaps x a) as [[o|]|] eqn:Hxa.
           ++ left. apply in_or_app. right. apply E3. split; auto.
              exists a. split; auto. apply neighbors_spec.
              split; [congruence|]. split; auto. destruct o. eauto.
           ++ right. intros o0 o1 dA dX Ho. apply Hsym in Ho.
              destruct Ho as [o' Ho]. congruence.
           ++ right. intros o0 o1 dA dX Ho. apply Hsym in Ho.
              destruct Ho as [o' Ho]. congruence.
        -- apply Var_eqb_neq in Ec. right. now apply Hother.
  - injection E as <- <-.
    apply revise_false_unchanged in Er. subst st1.
    split; [exact V|]. split; [exact K|]. split; [exact Wrest|].
    intros a c Ha Hc Hac.
    destruct (I a c Ha Hc Hac) as [[[= -> ->] | Hin] | Hcons]; auto.
Qed.

Lemma ac3_while_inv fuel :
  forall arcs st st',
    ac3_inv st arcs ->
    ac3_while overlaps fuel arcs st = Ok (true, st') ->
    ac3_inv st' [].
Proof.
  induction fuel as [|fuel IH]; intros arcs st st' Hinv E.
  - destruct arcs; simpl in E; [|discriminate]. now injection E as <-.
  - destruct arcs as [|arc arcs]; simpl in E; [now injection E as <-|].
    destruct (ac3_body overlaps arc arcs st) as [[[b|arcs1] st1]| |] eqn:Eb;
      cbn [bind] in E; try discriminate.
    + injection E as -> <-.
      apply ac3_body_shrinks in Eb. destruct Eb as [_ R].
      destruct (R true eq_refl) as [R1 _]. discriminate.
    + eapply IH; [|exact E]. eapply ac3_body_inv; eauto.
Qed.

End Convergence.

(** X6: when [ac3], started on all the arcs of an instance whose overlaps
    are symmetric, returns [True], every arc is consistent: for all
    distinct variables [x] and [y] that overlap, every word left in the
    domain of [x] has a support in the domain of [y]. *)
Theorem ac3_enforces_arc_consistency overlaps st fuel st' :
  overlaps_symmetric overlaps ->
  variables st = keys (domains st) ->
  ac3 overlaps fuel None st = Ok (true, st') ->
  forall x y,
    In x (keys (domains st)) -> In y (keys (domains st)) -> x <> y ->
    arc_consistent overlaps st' x y.
Proof.
  intros Hsym Hv E x y Hx Hy Hxy. unfold ac3 in E.
  destruct (ac3_while_inv overlaps Hsym (keys (domains st)) fuel
              (all_arcs st) st st') as [_ [_ [_ I]]]; auto.
  - split; [exact Hv|]. split; [reflexivity|]. split.
    + intros a c Hin. unfold all_arcs in Hin.
      apply in_flat_map in Hin. destruct Hin as [a' [Ha' Hin]].
      apply in_map_iff in Hin. destruct Hin as [c' [[= <- <-] Hc']].
      apply filter_In in Hc'. destruct Hc' as [Hc' Hne].
      apply negb_true_iff, Var_eqb_neq in Hne. auto.
    + intros a c Ha Hc Hac. left. now apply all_arcs_complete.
  - destruct (I x y Hx Hy Hxy) as [[] | H]. exact H.
Qed.

Lemma grid_overlaps_symmetric : overlaps_symmetric grid_overlaps.
Proof.
  intros x y o. unfold grid_overlaps at 1.
  repeat match goal with
         | |- context [if ?c then _ else _] => destruct c eqn:?
         end; try discriminate; intros _;
    match goal with
    | H : (Var.eqb x _ && Var.eqb y _) = true |- _ =>
        apply andb_true_iff in H; destruct H as [Hx Hy];
        apply Var_eqb_eq in Hx, Hy; subst; eexists; vm_compute; reflexivity
    end.
Qed.

(** [ac3_enforces_arc_consistency] on the five-slot grid: HORSE, the word
    left for [gB], has a support among the words left for [gD]. *)
Lemma ac3_enforces_arc_consistency_witness :
  let st :=
    enforce_node_consistency
      (init [gA; gB; gC; gD; gE]
            ["CAT"; "HORSE"; "TOE"; "TEN"; "OAK"; "OWL"; "SUN"; "SKY"]) in
  ac3 grid_overlaps 30 None st = Ok (true, grid_state) /\
  supported 1 0 ["OAK"; "OWL"] "HORSE".
Proof.
  intros st.
  assert (E : ac3 grid_overlaps 30 None st = Ok (true, grid_state))
    by (vm_compute; reflexivity).
  split; [exact E|].
  apply (ac3_enforces_arc_consistency grid_overlaps st 30 grid_state
           grid_overlaps_symmetric eq_refl E gB gD)
    with (domX := ["HORSE"]); simpl; auto; try discriminate.
Defined.

(** ** Running [ac3] on a state that needs no revision *)

(** On a consistent arc [revise] reports no change. *)
Lemma revise_consistent_unchanged overlaps x y st b st' :
  arc_consistent overlaps st x y ->
  revise overlaps x y st = Ok (b, st') -> b = false /\ st' = st.
Proof.
  intros Hc E.
  assert (Hb : b = false).
  { pose proof E as E'. unfold revise, overlaps_lookup in E'.
    destruct (overlaps x y) as [[[o0 o1]|]|] eqn:Ho; cbn [bind] in E';
      try discriminate; [|now injection E' as <- _].
    unfold dict_lookup at 1 in E'.
    destruct (dict_get x (domains st)) as [domX|] eqn:HdomX; cbn [bind] in E';
      try discriminate.
    match type of E' with
    | context [for_in domX ?body []] =>
        destruct (for_in domX body []) as [acc| |] eqn:Eloop; cbn [bind] in E';
          try discriminate
    end.
    assert (Heq : set_eqb String.eqb acc domX = true).
    { destruct (dict_get y (domains st)) as [domY|] eqn:HdomY.
      - apply (set_eqb_iff String.eqb String.eqb_eq). intros w.
        rewrite (revise_outer_partial st y o0 o1 domY HdomY domX acc Eloop w).
        split; [tauto|]. intros Hw. split; auto.
        exact (Hc _ _ _ _ Ho HdomX HdomY w Hw).
      - destruct domX as [|wordX domX]; simpl in Eloop.
        + now injection Eloop as <-.
        + destruct (index wordX o0); simpl in Eloop; try discriminate.
          unfold dict_lookup in Eloop. rewrite HdomY in Eloop. discriminate. }
    rewrite Heq in E'. now injection E' as <- _. }
  split; [exact Hb|]. subst b. now apply revise_false_unchanged in E.
Qed.

(** When no pending arc needs a revision, the loop of [ac3] drains the
    queue and returns [True] without touching the state. *)
Lemma ac3_while_unchanged overlaps st :
  forall arcs fuel,
    (forall x y, In (x, y) arcs -> revise overlaps x y st = Ok (false, st)) ->
    List.length arcs <= fuel ->
    ac3_while overlaps fuel arcs st = Ok (true, st).
Proof.
  induction arcs as [|[x y] arcs IH]; intros fuel Hrev Hlen.
  - now destruct fuel.
  - destruct fuel as [|fuel]; [simpl in Hlen; lia|].
    simpl. unfold ac3_body. cbn [fst snd].
    rewrite (Hrev x y (or_introl eq_refl)). cbn [bind].
    apply IH.
    + intros a c H. apply Hrev. now right.
    + simpl in Hlen. lia.
Qed.

(** X7: [ac3] is idempotent on a well-formed instance: once it has
    returned [True], running it again on all the arcs returns [True] and
    leaves every domain as it is. *)
Theorem ac3_idempotent overlaps st fuel st' fuel' :
  overlaps_symmetric overlaps ->
  overlaps_in_range overlaps ->
  overlaps_defined overlaps (keys (domains st)) ->
  variables st = keys (domains st) ->
  node_consistent (domains st) ->
  ac3 overlaps fuel None st = Ok (true, st') ->
  List.length (all_arcs st') <= fuel' ->
  ac3 overlaps fuel' None st' = Ok (true, st').
Proof.
  intros Hsym Hrange Hdef Hv Hn E Hlen.
  set (vars := keys (domains st)) in *.
  pose proof E as E'. unfold ac3 in E'.
  pose proof (ac3_while_shrinks _ _ _ _ _ _ E') as [Hs _].
  assert (Hwf : state_wf vars st).
  { split; [reflexivity|]. split; [rewrite Hv; apply incl_refl | exact Hn]. }
  pose proof (state_wf_shrinks vars _ _ Hwf Hs) as Hwf'.
  destruct (ac3_while_inv overlaps Hsym vars fuel (all_arcs st) st st')
    as [_ [K' [_ I]]]; auto.
  { split; [exact Hv|]. split; [reflexivity|]. split.
    - now apply all_arcs_wf.
    - intros a c Ha Hc Hac. left. now apply all_arcs_complete. }
  unfold ac3. apply ac3_while_unchanged; auto.
  intros x y Hin.
  destruct (all_arcs_wf vars st' Hwf' x y Hin) as [Hx [Hy Hxy]].
  destruct (revise_returns overlaps vars Hrange Hdef x y st' Hwf' Hx Hy Hxy)
    as [b [st2 Er]].
  destruct (I x y Hx Hy Hxy) as [[] | Hc].
  destruct (revise_consistent_unchanged _ _ _ _ _ _ Hc Er) as [-> ->].
  exact Er.
Qed.

(** [ac3_idempotent] on the five-slot grid. *)
Lemma ac3_idempotent_witness :
  ac3 grid_overlaps 20 None grid_state = Ok (true, grid_state).
Proof.
  pose (words := ["CAT"; "HORSE"; "TOE"; "TEN"; "OAK"; "OWL"; "SUN"; "SKY"]).
  pose (vars := [gA; gB; gC; gD; gE]).
  destruct (preprocessed_state vars words grid_variables_NoDup)
    as [V [K N]].
  apply (ac3_idempotent grid_overlaps
           (enforce_node_consistency (init vars words)) 30 grid_state 20).
  - exact grid_overlaps_symmetric.
  - exact grid_overlaps_in_range.
  - rewrite K. exact grid_overlaps_defined.
  - now rewrite V, K.
  - exact N.
  - vm_compute. reflexivity.
  - vm_compute. repeat constructor.
Defined.

(** ** When [ac3] reports a failure *)

Lemma ac3_while_failure overlaps fuel :
  forall arcs st st',
    ac3_while overlaps fuel arcs st = Ok (false, st') ->
    exists x w words,
      dict_get x (domains st) = Some (w :: words) /\
      dict_get x (domains st') = Some [].
Proof.
  induction fuel as [|fuel IH]; intros arcs st st' E.
  - destruct arcs; simpl in E; discriminate.
  - destruct arcs as [|[x y] arcs]; simpl in E; [discriminate|].
    destruct (ac3_body overlaps (x, y) arcs st) as [[[b|arcs1] st1]| |] eqn:Eb;
      cbn [bind] in E; try discriminate.
    + injection E as -> <-.
      unfold ac3_body in Eb. cbn [fst snd] in Eb.
      destruct (revise overlaps x y st) as [[[] st2]| |] eqn:Er;
        cbn [bind] in Eb; try discriminate.
      unfold dict_lookup in Eb.
      destruct (dict_get x (domains st2)) as [domX2|] eqn:Hd2; cbn [bind] in Eb;
        try discriminate.
      destruct domX2 as [|w2 domX2]; simpl in Eb; [|discriminate].
      injection Eb as <-.
      pose proof (revise_true_decreases _ _ _ _ _ Er) as Hlt.
      destruct (revise_shrinks _ _ _ _ _ _ Er) as [_ [_ D]].
      destruct (D _ _ Hd2) as [domX [Hd _]].
      destruct domX as [|w domX]; [|eauto].
      exfalso. unfold revise in Er.
      destruct (overlaps_lookup overlaps x y) as [[[o0 o1]|]| |];
        cbn [bind] in Er; try discriminate.
      unfold dict_lookup in Er. rewrite Hd in Er. simpl in Er. discriminate.
    + pose proof (ac3_body_shrinks _ _ _ _ _ _ Eb) as [[_ [_ D]] _].
      destruct (IH _ _ _ E) as [z [w [ws [H1 H2]]]].
      destruct (D _ _ H1) as [ws0 [H0 Hincl]].
      destruct ws0 as [|w0 ws0]; [destruct (Hincl w (or_introl eq_refl))|].
      eauto.
Qed.

(** X8: [ac3] returns [False] only when a revision has removed the last
    word of a domain: some variable had words before the call and has none
    after it. *)
Theorem ac3_failure_empties_a_domain overlaps fuel arcs st st' :
  ac3 overlaps fuel arcs st = Ok (false, st') ->
  exists x w words,
    dict_get x (domains st) = Some (w :: words) /\
    dict_get x (domains st') = Some [].
Proof. unfold ac3. apply ac3_while_failure. Qed.

(** [ac3_failure_empties_a_domain] on the five-slot grid with a vocabulary
    that leaves no word for [gA]. *)
Lemma ac3_failure_empties_a_domain_witness :
  let st :=
    enforce_node_consistency
      (init [gA; gB; gC; gD; gE] ["CAT"; "HORSE"; "OAK"; "SUN"]) in
  exists st' x w words,
    ac3 grid_overlaps 2 None st = Ok (false, st') /\
    dict_get x (domains st) = Some (w :: words) /\
    dict_get x (domains st') = Some [].
Proof.
  intros st.
  assert (E : exists st', ac3 grid_overlaps 2 None st = Ok (false, st'))
    by (eexists; vm_compute; reflexivity).
  destruct E as [st' E].
  destruct (ac3_failure_empties_a_domain grid_overlaps 2 None st st' E)
    as [x [w [ws [H1 H2]]]].
  exists st', x, w, ws. auto.
Defined.

(** X9: domains that are empty before the call are not reported: on a
    state whose domains are all empty, [ac3] revises nothing and returns
    [True]. *)
Theorem ac3_true_on_empty_domains overlaps st fuel :
  overlaps_defined overlaps (keys (domains st)) ->
  (forall v words, dict_get v (domains st) = Some words -> words = []) ->
  List.length (all_arcs st) <= fuel ->
  ac3 overlaps fuel None st = Ok (true, st).
Proof.
  intros Hdef Hempty Hlen. unfold ac3. apply ac3_while_unchanged; auto.
  intros x y Hin. unfold all_arcs in Hin.
  apply in_flat_map in Hin. destruct Hin as [x' [Hx Hin]].
  apply in_map_iff in Hin. destruct Hin as [y' [[= <- <-] Hy]].
  apply filter_In in Hy. destruct Hy as [Hy Hne].
  apply negb_true_iff, Var_eqb_neq in Hne.
  unfold revise, overlaps_lookup.
  destruct (overlaps x' y') as [[[o0 o1]|]|] eqn:Ho; cbn [bind]; auto.
  - apply dict_get_keys in Hx. destruct Hx as [domX Hd].
    unfold dict_lookup. rewrite Hd. rewrite (Hempty _ _ Hd). reflexivity.
  - exfalso. apply (Hdef x' y'); auto.
Qed.

(** [ac3_true_on_empty_domains] on the corner instance with a vocabulary of
    one word that is too long for both slots. *)
Lemma ac3_true_on_empty_domains_witness :
  let st := enforce_node_consistency (init [crossX; crossY] ["HORSE"]) in
  domains st = [(crossX, []); (crossY, [])] /\
  ac3 corner_overlaps 2 None st = Ok (true, st).
Proof.
  intros st. split; [reflexivity|].
  apply (ac3_true_on_empty_domains corner_overlaps st 2).
  - intros x y _ _ Hxy. unfold corner_overlaps.
    apply Var_eqb_neq in Hxy. rewrite Hxy.
    destruct (_ || _); discriminate.
  - intros v ws H. simpl in H.
    destruct (Var.eqb v crossX); [now injection H as <-|].
    destruct (Var.eqb v crossY); [now injection H as <-|discriminate].
  - vm_compute. repeat constructor.
Defined.

(** ** What node consistency keeps *)

Lemma node_filter_In_iff (n : nat) (words : list string) :
  forall acc w,
    In w (fold_left
            (fun s word =>
               if String.length word =? n then set_add String.eqb word s else s)
            words acc) <->
    In w acc \/ (In w words /\ String.length w = n).
Proof.
  induction words as [|word words IH]; simpl; intros acc w; [tauto|].
  rewrite IH. destruct (String.length word =? n) eqn:E.
  - apply Nat.eqb_eq in E.
    rewrite (set_add_In String.eqb String.eqb_eq). split.
    + intros [[-> | H] | [H1 H2]]; auto.
    + intros [H | [[-> | H1] H2]]; auto.
  - apply Nat.eqb_neq in E. split.
    + intros [H | [H1 H2]]; auto.
    + intros [H | [[-> | H1] H2]]; auto. contradiction.
Qed.

Lemma dict_get_map_entries {V W} (g : Var.t -> V -> W) (d : dict V) v :
  dict_get v (map (fun '(k, x) => (k, g k x)) d)
  = option_map (g v) (dict_get v d).
Proof.
  induction d as [|[k x] d IH]; simpl; auto.
  destruct (Var.eqb v k) eqn:E; auto.
  apply Var_eqb_eq in E. now subst.
Qed.

(** X10: [enforce_node_consistency] keeps the crossword's variable set and
    the keys of the domains, and leaves in each domain exactly the words
    it held that have the variable's length, each once. *)
Theorem enforce_node_consistency_keeps_fitting_words st :
  NoDup (keys (domains st)) ->
  variables (enforce_node_consistency st) = variables st /\
  keys (domains (enforce_node_consistency st)) = keys (domains st) /\
  forall v words,
    dict_get v (domains st) = Some words ->
    exists words',
      dict_get v (domains (enforce_node_consistency st)) = Some words' /\
      NoDup words' /\
      forall w, In w words' <-> In w words /\ String.length w = Var.length v.
Proof.
  intros Hnd. unfold enforce_node_consistency. simpl.
  rewrite (fold_dict_set_entries
             (fun var words =>
                fold_left
                  (fun s word =>
                     if String.length word =? Var.length var
                     then set_add String.eqb word s else s)
                  words [])) by (auto; intros k _ []).
  simpl. split; [reflexivity|]. split; [apply keys_map_entries|].
  intros v words Hd. rewrite dict_get_map_entries, Hd. simpl.
  eexists. split; [reflexivity|]. split.
  - apply node_filter_NoDup. constructor.
  - intros w. rewrite node_filter_In_iff. simpl. tauto.
Qed.

(** [enforce_node_consistency_keeps_fitting_words] on a new solver for the
    five-slot grid: the domain of [gB], of length 5, becomes HORSE. *)
Lemma enforce_node_consistency_keeps_fitting_words_witness :
  let st := init [gA; gB; gC; gD; gE] ["CAT"; "HORSE"; "TOE"] in
  exists words',
    dict_get gB (domains (enforce_node_consistency st)) = Some words' /\
    NoDup words' /\
    forall w, In w words' <->
              In w ["CAT"; "HORSE"; "TOE"] /\ String.length w = Var.length gB.
Proof.
  intros st.
  destruct (enforce_node_consistency_keeps_fitting_words st) as [_ [_ H]].
  - unfold st. rewrite init_keys; exact grid_variables_NoDup.
  - apply (H gB ["CAT"; "HORSE"; "TOE"]). reflexivity.
Defined.

(** ** Value ordering: least-constraining value first *)

Lemma sort_insert_sorted {A} (x : A * nat) (l : list (A * nat)) :
  StronglySorted (fun p q => snd p <= snd q) l ->
  StronglySorted (fun p q => snd p <= snd q) (sort_insert x l).
Proof.
  induction 1 as [|y l Hs IH Hy]; simpl.
  - repeat constructor.
  - destruct (snd x <=? snd y) eqn:E.
    + apply Nat.leb_le in E. constructor; [now constructor|].
      constructor; auto.
      eapply Forall_impl; [|exact Hy]. simpl. intros; lia.
    + apply Nat.leb_gt in E. constructor; auto.
      apply (Permutation_Forall (x := x :: l)).
      * symmetry. apply sort_insert_Permutation.
      * constructor; auto. lia.
Qed.

Lemma sort_by_snd_sorted {A} (l : list (A * nat)) :
  StronglySorted (fun p q => snd p <= snd q) (sort_by_snd l).
Proof.
  induction l as [|x l IH]; simpl; [constructor|].
  now apply sort_insert_sorted.
Qed.

Lemma sorted_map_fst {A} (f : A -> nat) (l : list (A * nat)) :
  Forall (fun p => snd p = f (fst p)) l ->
  StronglySorted (fun p q => snd p <= snd q) l ->
  StronglySorted (fun a b => f a <= f b) (map fst l).
Proof.
  intros Hf Hs. induction Hs as [|p l Hs IH Hp]; simpl; [constructor|].
  inversion Hf as [|? ? Hfp Hfl]; subst.
  constructor; auto.
  apply Forall_forall. intros a Ha. apply in_map_iff in Ha.
  destruct Ha as [q [<- Hq]].
  rewrite Forall_forall in Hp, Hfl.
  rewrite <- Hfp, <- (Hfl q Hq). now apply Hp.
Qed.

Lemma list_sum_snoc (l : list nat) (n : nat) :
  list_sum (l ++ [n]) = list_sum l + n.
Proof. rewrite list_sum_app. simpl. lia. Qed.

Section LeastConstraining.
Variable overlaps : Var.t -> Var.t -> option (option (nat * nat)).
Hypothesis Hrange : overlaps_in_range overlaps.
Variable st : State.
Hypothesis Hkeys : incl (variables st) (keys (domains st)).
Hypothesis Hnode : node_consistent (domains st).
Variables (var : Var.t) (assignment : Assignment) (domVar : list string).
Hypothesis Hdom : dict_get var (domains st) = Some domVar.

(** The list [order_domain_values] sorts: every word of the domain with
    the number of values it rules out. *)
Lemma order_domain_values_counts :
  order_domain_values overlaps var assignment st
  = Ok (map fst
          (sort_by_snd
             (map (fun w => (w, ruled_out overlaps st assignment var w)) domVar))).
Proof.
  unfold order_domain_values, dict_lookup. rewrite Hdom. cbn [bind].
  match goal with
  | |- context [for_in domVar ?body []] =>
      destruct (for_in_total
                  (fun pre s =>
                     s = map (fun w => (w, ruled_out overlaps st assignment var w))
                             pre)
                  domVar body)
        with (pre := @nil string) (s := @nil (string * nat))
        as [domainOrder [E HI]]
  end.
  - intros pre wordX domainOrder Hin HI.
    match goal with
    | |- context [for_in (neighbors overlaps st var) ?body 0] =>
        destruct (for_in_total
                    (fun pre' n =>
                       n = list_sum
                             (map
                                (fun y =>
                                   if dict_mem y assignment then 0
                                   else
                                     match overlaps_get overlaps var y,
                                           dict_get y (domains st) with
                                     | Some o, Some domY =>
                                         List.length
                                           (filter
                                              (fun wordY =>
                                                 negb (letters_agree wordX wordY o))
                                              domY)
                                     | _, _ => 0
                                     end)
                                pre'))
                    (neighbors overlaps st var) body)
          with (pre := @nil Var.t) (s := 0) as [eliminate [E He]]
    end.
    + intros pre' y n Hy Hn. cbv beta in Hn |- *.
      rewrite map_app. cbn [map]. rewrite list_sum_snoc, <- Hn.
      destruct (dict_mem y assignment); [exists n; split; [reflexivity | lia]|].
      apply neighbors_spec in Hy. destruct Hy as [Hvar [_ [o0 [o1 Ho]]]].
      unfold overlaps_lookup, overlaps_get. rewrite Ho. cbn [bind].
      apply Hkeys, dict_get_keys in Hvar. destruct Hvar as [domY HdomY].
      rewrite HdomY. cbn [bind].
      destruct (Hrange _ _ _ _ Ho) as [R0 R1].
      destruct (get_in_range wordX o0) as [cX HcX].
      { rewrite (Hnode _ _ _ Hdom Hin). exact R0. }
      match goal with
      | |- context [for_in domY ?body n] =>
          destruct (for_in_total
                      (fun pre'' m =>
                         m = n + List.length
                                   (filter
                                      (fun wordY =>
                                         negb (letters_agree wordX wordY (o0, o1)))
                                      pre''))
                      domY body)
            with (pre := @nil string) (s := n) as [n' [E Hn']]
      end.
      * intros pre'' wordY m HwY Hm. cbv beta in Hm |- *.
        destruct (get_in_range wordY o1) as [cY HcY].
        { rewrite (Hnode _ _ _ HdomY HwY). exact R1. }
        pose proof HcX as HcX'. pose proof HcY as HcY'.
        apply index_Ok in HcX', HcY'. rewrite HcX', HcY'. cbn [bind].
        eexists. split; [reflexivity|].
        assert (Hag : letters_agree wordX wordY (o0, o1) = Ascii.eqb cX cY).
        { unfold letters_agree. cbn [fst snd]. now rewrite HcX, HcY. }
        rewrite filter_app, length_app. cbn [filter]. rewrite Hag.
        destruct (negb (Ascii.eqb cX cY)); simpl; lia.
      * simpl. lia.
      * exists n'. split; [exact E|]. simpl in Hn'. lia.
    + reflexivity.
    + rewrite E. cbn [bind]. eexists. split; [reflexivity|].
      rewrite map_app, HI. cbn [map]. unfold ruled_out. simpl in He.
      now rewrite He.
  - reflexivity.
  - rewrite E. cbn [bind]. simpl in HI. now rewrite HI.
Qed.

End LeastConstraining.

(** X11: on a node-consistent state of a well-formed instance,
    [order_domain_values] returns the words of the variable's domain, each
    as often as the domain has it, in nondecreasing order of the number of
    values they rule out in the domains of the unassigned neighbors. *)
Theorem order_domain_values_least_constraining
  overlaps st var assignment domVar :
  overlaps_in_range overlaps ->
  incl (variables st) (keys (domains st)) ->
  node_consistent (domains st) ->
  dict_get var (domains st) = Some domVar ->
  exists values,
    order_domain_values overlaps var assignment st = Ok values /\
    Permutation values domVar /\
    StronglySorted
      (fun w1 w2 => ruled_out overlaps st assignment var w1
                    <= ruled_out overlaps st assignment var w2)
      values.
Proof.
  intros Hrange Hkeys Hnode Hdom.
  rewrite (order_domain_values_counts overlaps Hrange st Hkeys Hnode
             var assignment domVar Hdom).
  set (counted := map (fun w => (w, ruled_out overlaps st assignment var w)) domVar).
  assert (Hperm : Permutation (sort_by_snd counted) counted)
    by apply sort_by_snd_Permutation.
  eexists. split; [reflexivity|]. split.
  - replace domVar with (map fst counted).
    + now apply Permutation_map.
    + unfold counted. rewrite map_map. simpl. apply map_id.
  - apply sorted_map_fst; [|apply sort_by_snd_sorted].
    apply (Permutation_Forall (x := counted)); [now symmetry|].
    unfold counted. apply Forall_forall. intros p Hp.
    apply in_map_iff in Hp. now destruct Hp as [w [<- _]].
Qed.

(** [order_domain_values_least_constraining] on the five-slot grid before
    arc consistency: of the seven words left for [gC], TOE and TEN rule
    out six words of [gA] and the others seven. *)
Lemma order_domain_values_least_constraining_witness :
  let st :=
    enforce_node_consistency
      (init [gA; gB; gC; gD; gE]
            ["CAT"; "HORSE"; "TOE"; "TEN"; "OAK"; "OWL"; "SUN"; "SKY"]) in
  let domVar := ["CAT"; "TOE"; "TEN"; "OAK"; "OWL"; "SUN"; "SKY"] in
  exists values,
    order_domain_values grid_overlaps gC [] st = Ok values /\
    Permutation values domVar /\
    StronglySorted
      (fun w1 w2 => ruled_out grid_overlaps st [] gC w1
                    <= ruled_out grid_overlaps st [] gC w2)
      values.
Proof.
  intros st domVar.
  destruct (preprocessed_state [gA; gB; gC; gD; gE]
              ["CAT"; "HORSE"; "TOE"; "TEN"; "OAK"; "OWL"; "SUN"; "SKY"]
              grid_variables_NoDup) as [V [K N]].
  apply (order_domain_values_least_constraining grid_overlaps st gC [] domVar).
  - exact grid_overlaps_in_range.
  - unfold st. rewrite V, K. apply incl_refl.
  - exact N.
  - reflexivity.
Defined.

(** ** The search never backtracks *)

Section Greedy.
Variable overlaps : Var.t -> Var.t -> option (option (nat * nat)).
Variable vars : list Var.t.
Hypothesis Hnodup : NoDup vars.
Hypothesis Hrange : overlaps_in_range overlaps.

(** Assigning a selected variable keeps the state and the assignment well
    formed. *)
Lemma search_step_wf st a var value domVar :
  state_wf vars st -> assignment_wf vars st a ->
  In var (variables st) -> dict_mem var a = false ->
  dict_get var (domains st) = Some domVar -> In value domVar ->
  let st1 := {| variables := filter (fun v => negb (dict_mem v a)) (variables st);
                domains := domains st |} in
  state_wf vars st1 /\ assignment_wf vars st1 (dict_set var value a).
Proof.
  intros [K [V N]] [A1 [A2 [A3 A4]]] Hin Hun Hdom Hval st1.
  assert (Hnew : ~ In var (keys a)).
  { intros H. apply dict_mem_keys in H. congruence. }
  split.
  - split; [exact K|]. split; [|exact N].
    intros v Hv. simpl in Hv. apply filter_In in Hv. apply V, Hv.
  - rewrite dict_set_new by exact Hnew.
    unfold assignment_wf, keys. rewrite map_app. simpl.
    split; [|split; [|split]].
    + apply NoDup_app; auto.
      * repeat constructor. simpl. tauto.
      * intros x Hx [<- | []]. contradiction.
    + intros v Hv. apply in_app_or in Hv. destruct Hv as [Hv | [<- | []]]; auto.
    + intros v Hv.
      destruct (dict_mem v (a ++ [(var, value)])) eqn:Em; auto. left.
      assert (Hva : dict_mem v a = false).
      { destruct (dict_mem v a) eqn:Em'; auto.
        apply dict_mem_keys in Em'.
        assert (Hk : In v (keys (a ++ [(var, value)]))).
        { unfold keys. rewrite map_app. apply in_or_app. now left. }
        apply dict_mem_keys in Hk. congruence. }
      destruct (A3 v Hv) as [Hv' | Hv']; [|congruence].
      apply filter_In. split; auto. now rewrite Hva.
    + intros v w Hvw. apply in_app_or in Hvw.
      destruct Hvw as [Hvw | [[= <- <-] | []]]; [now apply A4|].
      exists domVar. split; auto.
Qed.

(** [backtrack] returns [None] exactly when some variable that is still to
    be assigned has no word left. *)
Lemma backtrack_fails_iff fuel :
  forall a st r a' st',
    state_wf vars st -> assignment_wf vars st a ->
    backtrack overlaps fuel a st = Ok (r, a', st') ->
    (r = PyNone <->
     exists v, In v (variables st) /\ dict_mem v a = false /\
               dict_get v (domains st) = Some []).
Proof.
  induction fuel as [|fuel IH]; intros a st r a' st' Hst Ha E; [discriminate|].
  pose proof Hst as [K [V N]]. pose proof Ha as [A1 [A2 [A3 A4]]].
  destruct (assignment_complete a st) eqn:Hc.
  { simpl in E. rewrite Hc in E. injection E as <- _ _.
    split; [discriminate|]. intros [v [Hv [Hun _]]]. exfalso.
    unfold assignment_complete in Hc. rewrite K in Hc.
    destruct (List.length (keys a) =? List.length vars) eqn:El; [|discriminate].
    apply Nat.eqb_eq in El.
    assert (Hincl : incl vars (keys a))
      by (apply (NoDup_length_incl A1); [lia | exact A2]).
    apply V, Hincl, dict_mem_keys in Hv. congruence. }
  pose proof (assignment_incomplete_unassigned vars Hnodup st a Hst Ha Hc) as Hne.
  assert (Hkeys : incl (variables st) (keys (domains st))) by now rewrite K.
  destruct (select_unassigned_variable_total overlaps Hrange st Hkeys N a)
    as [r0 [Es Hr]].
  set (st1 := {| variables := filter (fun v => negb (dict_mem v a)) (variables st);
                 domains := domains st |}) in *.
  destruct r0 as [var|]; [|simpl in Hr; contradiction].
  destruct Hr as [Hvar Hmin].
  pose proof Hvar as Hvar'. simpl in Hvar'. apply filter_In in Hvar'.
  destruct Hvar' as [Hin Hun]. apply negb_true_iff in Hun.
  destruct (proj1 (dict_get_keys var (domains st)) (Hkeys _ Hin))
    as [domVar Hdom].
  assert (Hkeys1 : incl (variables st1) (keys (domains st1))).
  { intros v Hv. simpl in Hv. apply filter_In in Hv. apply Hkeys, Hv. }
  destruct (order_domain_values_total overlaps Hrange st1 Hkeys1 N var a domVar Hdom)
    as [values [Eo Hp]].
  destruct values as [|value values].
  { rewrite (backtrack_no_candidate _ _ _ _ _ _ Hc Es Eo) in E.
    injection E as <- _ _. split; [|reflexivity]. intros _.
    apply Permutation_nil in Hp. subst domVar. eauto. }
  rewrite (backtrack_first_candidate _ _ _ _ _ _ _ _ Hc Es Eo) in E.
  assert (Hval : In value domVar).
  { apply Permutation_in with (l := value :: values); simpl; auto. }
  destruct (search_step_wf st a var value domVar Hst Ha Hin Hun Hdom Hval)
    as [Hst1 Ha1].
  fold st1 in Hst1, Ha1.
  assert (Hpos : forall u, In u (variables st) -> dict_mem u a = false ->
                           dict_get u (domains st) <> Some []).
  { intros u Hu Huu Hd.
    assert (Hf : In u (variables st1)).
    { simpl. apply filter_In. split; auto. now rewrite Huu. }
    specialize (Hmin u Hf). unfold dom_size in Hmin.
    rewrite Hdom, Hd in Hmin. destruct domVar; [contradiction | simpl in Hmin; lia]. }
  rewrite (IH _ _ _ _ _ Hst1 Ha1 E). split.
  - intros [v [Hv [_ Hd]]]. exfalso.
    simpl in Hv. apply filter_In in Hv. destruct Hv as [Hv Hvu].
    apply negb_true_iff in Hvu. exact (Hpos v Hv Hvu Hd).
  - intros [v [Hv [Hvu Hd]]]. exfalso. exact (Hpos v Hv Hvu Hd).
Qed.

End Greedy.

(** X12: on a well-formed instance [solve] returns [None] exactly when node
    and arc consistency have left some variable without a word; with a word
    left for every variable it returns an assignment, whether or not the
    words it takes conflict. *)
Theorem solve_fails_iff_empty_domain overlaps vars words fuel :
  NoDup vars ->
  overlaps_in_range overlaps ->
  overlaps_defined overlaps vars ->
  enough_fuel (init vars words) <= fuel ->
  exists b st2 result st',
    ac3 overlaps fuel None (enforce_node_consistency (init vars words))
    = Ok (b, st2) /\
    solve overlaps fuel (init vars words) = Ok (result, st') /\
    domains st' = domains st2 /\
    (result = PyNone <->
     exists x, In x vars /\ dict_get x (domains st2) = Some []).
Proof.
  intros Hnd Hrange Hdef Hfuel. unfold enough_fuel in Hfuel.
  destruct (preprocessed_state vars words Hnd) as [V1 [K1 N1]].
  set (st1 := enforce_node_consistency (init vars words)) in *.
  assert (Hst1 : state_wf vars st1).
  { split; [exact K1|]. split; [|exact N1]. rewrite V1. apply incl_refl. }
  destruct (ac3_while_returns overlaps vars Hrange Hdef fuel (all_arcs st1) st1)
    as [b [st2 Eac3]]; [lia | exact Hst1 | now apply all_arcs_wf |].
  pose proof (ac3_while_shrinks _ _ _ _ _ _ Eac3) as [Hs _].
  pose proof (state_wf_shrinks vars _ _ Hst1 Hs) as Hst2.
  destruct Hs as [V2 _].
  assert (Ha : assignment_wf vars st2 []).
  { split; [constructor|]. split; [intros v []|]. split; [|intros v w []].
    intros v Hv. left. rewrite V2. fold st1. now rewrite V1. }
  destruct (backtrack_returns overlaps vars Hnd Hrange fuel [] st2)
    as [r [a' [st' [Eb [Hd _]]]]]; auto.
  { pose proof (filter_length_le
                  (fun v => negb (dict_mem v (@nil (Var.t * string))))
                  (variables st2)) as Hle.
    rewrite V2 in Hle at 2. lia. }
  exists b, st2, r, st'. split; [exact Eac3|]. split.
  { unfold solve, ac3. fold st1. rewrite Eac3. cbn [bind].
    rewrite Eb. reflexivity. }
  split; [exact Hd|].
  rewrite (backtrack_fails_iff overlaps vars Hnd Hrange fuel _ _ _ _ _ Hst2 Ha Eb).
  assert (Hv2 : variables st2 = vars) by (rewrite V2; exact V1).
  rewrite Hv2. split.
  - intros [v [Hv [_ Hdv]]]. eauto.
  - intros [v [Hv Hdv]]. exists v. auto.
Qed.

(** [solve_fails_iff_empty_domain] on the five-slot grid. *)
Lemma solve_fails_iff_empty_domain_witness :
  let vars := [gA; gB; gC; gD; gE] in
  let words := ["CAT"; "HORSE"; "TOE"; "TEN"; "OAK"; "OWL"; "SUN"; "SKY"] in
  exists b st2 result st',
    ac3 grid_overlaps 200 None (enforce_node_consistency (init vars words))
    = Ok (b, st2) /\
    solve grid_overlaps 200 (init vars words) = Ok (result, st') /\
    domains st' = domains st2 /\
    (result = PyNone <->
     exists x, In x vars /\ dict_get x (domains st2) = Some []).
Proof.
  intros vars words.
  apply (solve_fails_iff_empty_domain grid_overlaps vars words 200).
  - exact grid_variables_NoDup.
  - exact grid_overlaps_in_range.
  - exact grid_overlaps_defined.
  - vm_compute. repeat constructor.
Defined.

(** ** [revise] on words that are too short *)

Lemma get_out_of_range (w : string) (n : nat) :
  String.length w <= n -> String.get n w = None.
Proof.
  revert n. induction w as [|c w IH]; simpl; intros n H; [reflexivity|].
  destruct n; [lia|]. apply IH. lia.
Qed.

Lemma index_cases (w : string) (n : nat) :
  (exists c, index w n = Ok c) \/ index w n = Raise IndexError.
Proof. unfold index. destruct (String.get n w); eauto. Qed.

(** A loop whose body can only raise [e]: it returns or raises [e], and it
    raises [e] when it meets an element on which the body always does. *)
Lemma for_in_raises {A S} (e : exn) (l : list A) (body : A -> S -> res S) :
  (forall a s, In a l -> (exists s', body a s = Ok s') \/ body a s = Raise e) ->
  forall s,
    ((exists s', for_in l body s = Ok s') \/ for_in l body s = Raise e) /\
    ((exists a, In a l /\ forall s0, body a s0 = Raise e) ->
     for_in l body s = Raise e).
Proof.
  induction l as [|a l IH]; intros Hb s; simpl.
  - split; [eauto|]. intros [a [[] _]].
  - assert (Hb' : forall a0 s0, In a0 l ->
                    (exists s', body a0 s0 = Ok s') \/ body a0 s0 = Raise e)
      by (intros; apply Hb; now right).
    destruct (Hb a s (or_introl eq_refl)) as [[s1 E1] | E1]; rewrite E1;
      cbn [bind]; [|auto].
    destruct (IH Hb' s1) as [H1 H2]. split; [exact H1|].
    intros [a0 [[<- | Hin] Hbad]].
    + rewrite Hbad in E1. discriminate.
    + apply H2. eauto.
Qed.

(** X13: [revise] indexes every word without checking its length: when the
    two slots overlap and [x]'s domain holds a word that does not reach the
    overlap index, or [x]'s domain is not empty and [y]'s holds such a
    word, [revise] raises [IndexError]. *)
Theorem revise_raises_IndexError overlaps x y st o0 o1 domX domY :
  overlaps x y = Some (Some (o0, o1)) ->
  dict_get x (domains st) = Some domX ->
  dict_get y (domains st) = Some domY ->
  (exists wx, In wx domX /\ String.length wx <= o0) \/
  (domX <> [] /\ exists wy, In wy domY /\ String.length wy <= o1) ->
  revise overlaps x y st = Raise IndexError.
Proof.
  intros Ho HdomX HdomY Hbad.
  unfold revise, overlaps_lookup. rewrite Ho. cbn [bind].
  unfold dict_lookup at 1. rewrite HdomX. cbn [bind].
  match goal with
  | |- bind (for_in domX ?body []) _ = _ =>
      assert (Hraise : for_in domX body [] = Raise IndexError);
        [|now rewrite Hraise]
  end.
  assert (Hinner : forall c wordX acc,
    let inner := fun (wordY : string) (acc : list string) =>
      letherY <- index wordY o1 ;;
      Ok (if Ascii.eqb c letherY then set_add String.eqb wordX acc else acc) in
    ((exists acc', for_in domY inner acc = Ok acc')
     \/ for_in domY inner acc = Raise IndexError) /\
    ((exists wy, In wy domY /\ String.length wy <= o1) ->
     for_in domY inner acc = Raise IndexError)).
  { intros c wordX acc inner.
    destruct (for_in_raises IndexError domY inner) with (s := acc) as [H1 H2].
    - intros wordY s _. unfold inner.
      destruct (index_cases wordY o1) as [[c' Ei] | Ei]; rewrite Ei; cbn [bind];
        eauto.
    - split; [exact H1|]. intros [wy [Hin Hlen]]. apply H2.
      exists wy. split; auto. intros s0. unfold inner, index.
      now rewrite (get_out_of_range wy o1 Hlen). }
  match goal with
  | |- for_in domX ?body [] = _ =>
      destruct (for_in_raises IndexError domX body) with (s := @nil string)
        as [H1 H2]
  end.
  - intros wordX acc _.
    destruct (index_cases wordX o0) as [[c Ei] | Ei]; rewrite Ei; cbn [bind];
      [|auto].
    unfold dict_lookup. rewrite HdomY. cbn [bind].
    exact (proj1 (Hinner c wordX acc)).
  - destruct Hbad as [[wx [Hin Hlen]] | [Hne [wy [Hin Hlen]]]].
    + apply H2. exists wx. split; auto. intros acc. unfold index.
      now rewrite (get_out_of_range wx o0 Hlen).
    + destruct domX as [|wordX domX]; [contradiction|].
      apply H2. exists wordX. split; [now left|]. intros acc.
      destruct (index_cases wordX o0) as [[c Ei] | Ei]; rewrite Ei; cbn [bind];
        [|auto].
      unfold dict_lookup. rewrite HdomY. cbn [bind].
      apply (proj2 (Hinner c wordX acc)). eauto.
Qed.

(** [revise_raises_IndexError] on two crossing slots of a new solver, before
    node consistency: the word AT does not reach index 2. *)
Lemma revise_raises_IndexError_witness :
  revise elbow_overlaps elbowA elbowC (init [elbowA; elbowC] ["CAT"; "AT"])
  = Raise IndexError.
Proof.
  apply (revise_raises_IndexError elbow_overlaps elbowA elbowC
           (init [elbowA; elbowC] ["CAT"; "AT"]) 2 0 ["CAT"; "AT"] ["CAT"; "AT"]);
    try reflexivity.
  left. exists "AT". split; [simpl; auto | simpl; lia].
Defined.

(** ** When [consistent] answers [False] *)

Lemma for_in_ret_returned {A S R} (l : list A) (body : A -> S -> res (S + R)) :
  forall s r,
    for_in_ret l body s = Ok (inr r) ->
    exists a s', In a l /\ body a s' = Ok (inr r).
Proof.
  induction l as [|a l IH]; simpl; intros s r E; [discriminate|].
  destruct (body a s) as [[s1 | r1]| |] eqn:Eb; cbn [bind] in E;
    try discriminate.
  - destruct (IH _ _ E) as [a0 [s' [Hin H]]]. eauto.
  - injection E as <-. eauto.
Qed.

Lemma forallb_false {A} (f : A -> bool) (l : list A) (a : A) :
  In a l -> f a = false -> forallb f l = false.
Proof.
  intros Hin Hf. destruct (forallb f l) eqn:E; auto.
  rewrite forallb_forall in E. rewrite (E a Hin) in Hf. discriminate.
Qed.

(** X14: [consistent] never rejects a consistent assignment: when it
    returns [False], a word has the wrong length, or two variables hold
    the same word, or two neighbors disagree at their overlap. *)
Theorem consistent_False_is_sound overlaps st assignment :
  consistent overlaps st assignment = Ok (PyBool false) ->
  consistent_spec overlaps assignment = false.
Proof.
  unfold consistent. intros E.
  match type of E with
  | bind (for_in_ret assignment ?body tt) _ = _ =>
      destruct (for_in_ret assignment body tt) as [[u | v]| |] eqn:Eo;
        cbn [bind] in E; try discriminate
  end.
  injection E as ->.
  apply for_in_ret_returned in Eo. destruct Eo as [[x wordX] [u [Hx Eb]]].
  unfold consistent_spec. apply forallb_false with (a := (x, wordX)); auto.
  destruct (String.length wordX =? Var.length x) eqn:El; [|reflexivity].
  cbn [negb andb] in Eb |- *.
  match type of Eb with
  | bind (for_in_ret assignment ?body tt) _ = _ =>
      destruct (for_in_ret assignment body tt) as [[u' | v]| |] eqn:Ei;
        cbn [bind] in Eb; try discriminate
  end.
  injection Eb as ->.
  apply for_in_ret_returned in Ei. destruct Ei as [[y wordY] [u' [Hy Eb]]].
  apply forallb_false with (a := (y, wordY)); auto.
  destruct (Var.eqb x y); cbn [negb orb] in Eb |- *; [discriminate|].
  destruct (String.eqb wordX wordY); cbn [negb andb]; [reflexivity|].
  destruct (set_mem Var.eqb y (neighbors overlaps st x)); [|discriminate].
  destruct (overlaps_get overlaps x y) as [[o0 o1]|]; [|discriminate].
  unfold letters_agree, index in *. cbn [fst snd].
  destruct (String.get o0 wordX) as [cX|]; cbn [bind] in Eb; [|discriminate].
  destruct (String.get o1 wordY) as [cY|]; cbn [bind] in Eb; [|discriminate].
  destruct (Ascii.eqb cX cY); [discriminate | reflexivity].
Qed.

(** [consistent_False_is_sound] on two slots that hold the same word. *)
Lemma consistent_False_is_sound_witness :
  consistent no_overlaps (init [rowA; rowB] ["CAT"; "DOG"])
             [(rowA, "CAT"); (rowB, "CAT")] = Ok (PyBool false) /\
  consistent_spec no_overlaps [(rowA, "CAT"); (rowB, "CAT")] = false.
Proof.
  assert (E : consistent no_overlaps (init [rowA; rowB] ["CAT"; "DOG"])
                [(rowA, "CAT"); (rowB, "CAT")] = Ok (PyBool false))
    by reflexivity.
  split; [exact E|].
  exact (consistent_False_is_sound no_overlaps _ _ E).
Defined.


(** ** [letter_grid] and [print] *)

Lemma list_set_length {A} (l : list A) (n : nat) (a : A) :
  List.length (list_set l n a) = List.length l.
Proof.
  revert n. induction l as [|b l IH]; intros [|n]; simpl; auto.
Qed.

Lemma nth_error_list_set {A} (l : list A) (n m : nat) (a : A) :
  n < List.length l ->
  nth_error (list_set l n a) m = if m =? n then Some a else nth_error l m.
Proof.
  revert n m. induction l as [|b l IH]; intros [|n] [|m]; simpl; intros H;
    try lia; auto.
  apply IH. lia.
Qed.

Lemma list_set_Forall {A} (P : A -> Prop) (l : list A) (n : nat) (a : A) :
  Forall P l -> P a -> Forall P (list_set l n a).
Proof.
  intros Hl Ha. revert n. induction Hl as [|b l Hb Hl IH]; intros [|n]; simpl;
    auto.
Qed.

Lemma for_in_app {A S} (l1 l2 : list A) (body : A -> S -> res S) (s : S) :
  for_in (l1 ++ l2) body s = (s' <- for_in l1 body s ;; for_in l2 body s').
Proof.
  revert s. induction l1 as [|a l1 IH]; intros s; simpl; [reflexivity|].
  destruct (body a s); simpl; auto.
Qed.

(** A loop whose body keeps an invariant or raises [e] raises [e] when it
    meets an element on which the body does. *)
Lemma for_in_raises_inv {A S} (I : S -> Prop) (e : exn) (l : list A)
  (body : A -> S -> res S) :
  (forall a s, In a l -> I s ->
               (exists s', body a s = Ok s' /\ I s') \/ body a s = Raise e) ->
  (exists a, In a l /\ forall s, I s -> body a s = Raise e) ->
  forall s, I s -> for_in l body s = Raise e.
Proof.
  induction l as [|a l IH]; intros Hb [a0 [Hin Ha0]] s Hs; simpl.
  - destruct Hin.
  - destruct (Hb a s (or_introl eq_refl) Hs) as [[s1 [E1 H1]] | E1];
      rewrite E1; cbn [bind]; [|reflexivity].
    destruct Hin as [-> | Hin].
    + rewrite (Ha0 s Hs) in E1. discriminate.
    + apply IH; auto.
      * intros; apply Hb; auto. now right.
      * eauto.
Qed.

Section LetterGrid.
Variable g : Grid.

Lemma shaped_blank : shaped g (repeat (repeat (@None ascii) (width g)) (height g)).
Proof.
  split; [apply repeat_length|].
  apply Forall_forall. intros row Hrow. apply repeat_spec in Hrow. subst.
  apply repeat_length.
Qed.

Lemma cell_blank (i j : nat) :
  cell (repeat (repeat (@None ascii) (width g)) (height g)) i j = None.
Proof.
  unfold cell.
  destruct (nth_error _ i) as [row|] eqn:E; [|reflexivity].
  apply nth_error_In, repeat_spec in E. subst.
  destruct (nth_error _ j) as [c|] eqn:E; [|reflexivity].
  apply nth_error_In, repeat_spec in E. now subst.
Qed.

Lemma assign_cell_inside (letters : Letters) (i j : nat) (c : ascii) :
  shaped g letters -> i < height g -> j < width g ->
  exists letters',
    assign_cell letters i j c = Ok letters' /\ shaped g letters' /\
    forall i' j',
      cell letters' i' j'
      = if (i' =? i) && (j' =? j) then Some c else cell letters i' j'.
Proof.
  intros [Hh Hw] Hi Hj. unfold assign_cell, list_index.
  destruct (nth_error letters i) as [row|] eqn:Erow.
  2:{ apply nth_error_None in Erow. lia. }
  assert (Hrow : List.length row = width g).
  { exact (proj1 (Forall_forall _ _) Hw row (nth_error_In _ _ Erow)). }
  cbn [bind]. replace (j <? List.length row) with true
    by (symmetry; apply Nat.ltb_lt; lia).
  eexists. split; [reflexivity|]. split.
  - split; [now rewrite list_set_length|].
    apply list_set_Forall; [exact Hw|]. now rewrite list_set_length.
  - intros i' j'. unfold cell.
    rewrite nth_error_list_set by lia.
    destruct (i' =? i) eqn:Ei; cbn [andb]; [|reflexivity].
    apply Nat.eqb_eq in Ei. subst i'. rewrite Erow.
    rewrite nth_error_list_set by lia.
    destruct (j' =? j); reflexivity.
Qed.

Lemma assign_cell_outside (letters : Letters) (i j : nat) (c : ascii) :
  shaped g letters -> height g <= i \/ width g <= j ->
  assign_cell letters i j c = Raise IndexError.
Proof.
  intros [Hh Hw] Hij. unfold assign_cell, list_index.
  destruct (nth_error letters i) as [row|] eqn:Erow; [|reflexivity].
  assert (Hi : i < height g).
  { rewrite <- Hh. apply nth_error_Some. congruence. }
  assert (Hrow : List.length row = width g).
  { exact (proj1 (Forall_forall _ _) Hw row (nth_error_In _ _ Erow)). }
  cbn [bind]. replace (j <? List.length row) with false; [reflexivity|].
  symmetry. apply Nat.ltb_ge. lia.
Qed.

(** The cell of the [k]-th letter of a slot, as [letter_grid] computes it. *)
Let row_at (v : Var.t) (k : nat) : nat :=
  Var.i v + (if Var.Direction_eqb (Var.direction v) Var.DOWN then k else 0).
Let col_at (v : Var.t) (k : nat) : nat :=
  Var.j v + (if Var.Direction_eqb (Var.direction v) Var.ACROSS then k else 0).

(** The statement [letters[i][j] = word[k]] with its two assignments
    before it. *)
Let fill (v : Var.t) (word : string) (k : nat) (letters : Letters)
  : res Letters :=
  let i := Var.i v
           + (if Var.Direction_eqb (Var.direction v) Var.DOWN then k else 0) in
  let j := Var.j v
           + (if Var.Direction_eqb (Var.direction v) Var.ACROSS then k else 0) in
  c <- index word k ;;
  assign_cell letters i j c.

Lemma slot_offset_spec (v : Var.t) (i j k : nat) :
  slot_offset v i j = Some k <-> i = row_at v k /\ j = col_at v k.
Proof.
  unfold slot_offset, row_at, col_at.
  destruct (Var.direction v); simpl.
  - destruct (Nat.eqb_spec i (Var.i v)); destruct (Nat.leb_spec (Var.j v) j);
      simpl; (split; [intros [= E]; lia | intros [? ?]; try f_equal; lia]).
  - destruct (Nat.eqb_spec j (Var.j v)); destruct (Nat.leb_spec (Var.i v) i);
      simpl; (split; [intros [= E]; lia | intros [? ?]; try f_equal; lia]).
Qed.

Lemma slot_cell_eqb (v : Var.t) (i j k : nat) :
  (i =? row_at v k) && (j =? col_at v k) = true <-> slot_offset v i j = Some k.
Proof.
  rewrite slot_offset_spec, andb_true_iff, !Nat.eqb_eq. tauto.
Qed.

(** The first [n] letters of a slot, all inside the grid, are written to
    their cells and nothing else changes. *)
Lemma fill_prefix (v : Var.t) (word : string) (letters : Letters) (n : nat) :
  shaped g letters -> n <= String.length word ->
  (forall k, k < n -> row_at v k < height g /\ col_at v k < width g) ->
  exists letters',
    for_in (seq 0 n) (fill v word) letters = Ok letters' /\
    shaped g letters' /\
    forall i j,
      cell letters' i j
      = match slot_offset v i j with
        | Some k => if k <? n then String.get k word else cell letters i j
        | None => cell letters i j
        end.
Proof.
  intros Hs. induction n as [|n IH]; intros Hn Hin.
  - exists letters. split; [reflexivity|]. split; [exact Hs|].
    intros i j. destruct (slot_offset v i j); reflexivity.
  - destruct IH as [l1 [E1 [S1 C1]]]; [lia | intros; apply Hin; lia |].
    rewrite seq_S, for_in_app, E1. cbn [bind plus for_in].
    destruct (get_in_range word n) as [c Ec]; [lia|].
    destruct (Hin n) as [Hi Hj]; [lia|].
    destruct (assign_cell_inside l1 (row_at v n) (col_at v n) c S1 Hi Hj)
      as [l2 [E2 [S2 C2]]].
    exists l2. split.
    { unfold fill at 1, index. rewrite Ec. cbn [bind].
      fold (row_at v n) (col_at v n). now rewrite E2. }
    split; [exact S2|].
    intros i j. rewrite C2, C1.
    destruct ((i =? row_at v n) && (j =? col_at v n)) eqn:E.
    + apply slot_cell_eqb in E. rewrite E.
      replace (n <? S n) with true by (symmetry; apply Nat.ltb_lt; lia).
      now rewrite Ec.
    + destruct (slot_offset v i j) as [k|] eqn:Ek; [|reflexivity].
      assert (Hk : k <> n).
      { intros ->. apply slot_cell_eqb in Ek. congruence. }
      destruct (Nat.ltb_spec k n); destruct (Nat.ltb_spec k (S n));
        try reflexivity; lia.
Qed.

Lemma slot_inside_cells (v : Var.t) (word : string) :
  slot_inside g v word = true ->
  forall k, k < String.length word ->
            row_at v k < height g /\ col_at v k < width g.
Proof.
  unfold slot_inside, row_at, col_at. intros H k Hk.
  apply orb_true_iff in H. destruct H as [H | H].
  { apply Nat.eqb_eq in H. lia. }
  destruct (Var.direction v); simpl;
    apply andb_true_iff in H; destruct H as [H1 H2];
    apply Nat.ltb_lt in H1; apply Nat.leb_le in H2; lia.
Qed.

Lemma slot_outside_cell (v : Var.t) (word : string) :
  slot_inside g v word = false ->
  exists n, n < String.length word /\
            (forall k, k < n -> row_at v k < height g /\ col_at v k < width g) /\
            (height g <= row_at v n \/ width g <= col_at v n).
Proof.
  unfold slot_inside, row_at, col_at. intros H.
  apply orb_false_iff in H. destruct H as [H0 H].
  apply Nat.eqb_neq in H0.
  destruct (Var.direction v); simpl;
    apply andb_false_iff in H.
  - destruct (Nat.lt_ge_cases (Var.i v) (height g)) as [Hi | Hi].
    + exists (width g - Var.j v).
      destruct H as [H | H];
        [apply Nat.ltb_ge in H | apply Nat.leb_gt in H];
        (split; [lia|]); (split; [intros; lia | lia]).
    + exists 0. split; [lia|]. split; [intros; lia | lia].
  - destruct (Nat.lt_ge_cases (Var.j v) (width g)) as [Hj | Hj].
    + exists (height g - Var.i v).
      destruct H as [H | H];
        [apply Nat.ltb_ge in H | apply Nat.leb_gt in H];
        (split; [lia|]); (split; [intros; lia | lia]).
    + exists 0. split; [lia|]. split; [intros; lia | lia].
Qed.

(** One entry of the assignment whose slot lies inside the grid. *)
Lemma fill_slot_inside (v : Var.t) (word : string) (letters : Letters) :
  shaped g letters -> slot_inside g v word = true ->
  exists letters',
    for_in (seq 0 (String.length word)) (fill v word) letters = Ok letters' /\
    shaped g letters' /\
    forall i j,
      cell letters' i j
      = match slot_letter v word i j with
        | Some c => Some c
        | None => cell letters i j
        end.
Proof.
  intros Hs Hin.
  destruct (fill_prefix v word letters (String.length word) Hs (le_n _)
              (slot_inside_cells v word Hin)) as [l1 [E1 [S1 C1]]].
  exists l1. split; [exact E1|]. split; [exact S1|].
  intros i j. rewrite C1. unfold slot_letter.
  destruct (slot_offset v i j) as [k|]; [|reflexivity].
  destruct (k <? String.length word) eqn:E.
  - apply Nat.ltb_lt in E. destruct (get_in_range word k E) as [c ->].
    reflexivity.
  - apply Nat.ltb_ge in E. now rewrite (get_out_of_range word k E).
Qed.

(** One entry of the assignment whose slot leaves the grid. *)
Lemma fill_slot_outside (v : Var.t) (word : string) (letters : Letters) :
  shaped g letters -> slot_inside g v word = false ->
  for_in (seq 0 (String.length word)) (fill v word) letters = Raise IndexError.
Proof.
  intros Hs Hout.
  destruct (slot_outside_cell v word Hout) as [n [Hn [Hin Hbad]]].
  destruct (fill_prefix v word letters n Hs (Nat.lt_le_incl _ _ Hn) Hin)
    as [l1 [E1 [S1 _]]].
  replace (String.length word) with (n + S (String.length word - S n)) by lia.
  rewrite seq_app, for_in_app, E1. cbn [bind plus seq for_in].
  destruct (get_in_range word n Hn) as [c Ec].
  unfold fill at 1, index. rewrite Ec. cbn [bind].
  fold (row_at v n) (col_at v n).
  now rewrite (assign_cell_outside l1 _ _ c S1 Hbad).
Qed.

Lemma last_letter_snoc (pre : Assignment) (v : Var.t) (word : string)
  (i j : nat) :
  last_letter (pre ++ [(v, word)]) i j
  = match slot_letter v word i j with
    | Some c => Some c
    | None => last_letter pre i j
    end.
Proof. unfold last_letter. now rewrite fold_left_app. Qed.

Lemma letter_grid_unfold (assignment : Assignment) :
  letter_grid g assignment
  = for_in assignment
      (fun '(v, word) letters =>
         for_in (seq 0 (String.length word)) (fill v word) letters)
      (repeat (repeat None (width g)) (height g)).
Proof. reflexivity. Qed.

(** When every slot lies inside the grid, [letter_grid] returns an array of
    the size of the grid whose cells hold [last_letter]. *)
Lemma letter_grid_inside (assignment : Assignment) :
  forallb (fun '(v, word) => slot_inside g v word) assignment = true ->
  exists letters,
    letter_grid g assignment = Ok letters /\ shaped g letters /\
    forall i j, cell letters i j = last_letter assignment i j.
Proof.
  intros Hall. rewrite forallb_forall in Hall. rewrite letter_grid_unfold.
  apply (for_in_total
           (fun pre letters =>
              shaped g letters /\
              forall i j, cell letters i j = last_letter pre i j)
           assignment _) with (pre := []).
  - intros pre [v word] letters Hin [Hs Hc].
    destruct (fill_slot_inside v word letters Hs (Hall _ Hin))
      as [l1 [E1 [S1 C1]]].
    exists l1. split; [exact E1|]. split; [exact S1|].
    intros i j. rewrite C1, last_letter_snoc, Hc. reflexivity.
  - split; [apply shaped_blank|]. intros i j. apply cell_blank.
Qed.

(** When some slot leaves the grid, [letter_grid] raises [IndexError]. *)
Lemma letter_grid_outside (assignment : Assignment) (v : Var.t)
  (word : string) :
  In (v, word) assignment -> slot_inside g v word = false ->
  letter_grid g assignment = Raise IndexError.
Proof.
  intros Hin Hout. rewrite letter_grid_unfold.
  apply (for_in_raises_inv (shaped g)).
  - intros [v' word'] letters _ Hs.
    destruct (slot_inside g v' word') eqn:E.
    + destruct (fill_slot_inside v' word' letters Hs E) as [l1 [E1 [S1 _]]].
      left. eauto.
    + right. now apply fill_slot_outside.
  - exists (v, word). split; [exact Hin|].
    intros letters Hs. now apply fill_slot_outside.
  - apply shaped_blank.
Qed.

End LetterGrid.

Lemma last_letter_none (assignment : Assignment) (i j : nat) :
  (forall v word, In (v, word) assignment -> slot_letter v word i j = None) ->
  last_letter assignment i j = None.
Proof.
  induction assignment as [|[v word] pre IH] using rev_ind; intros H;
    [reflexivity|].
  rewrite last_letter_snoc, (H v word) by (apply in_or_app; simpl; auto).
  apply IH. intros v' w' Hin. apply H. apply in_or_app. now left.
Qed.

Lemma last_letter_last (before after : Assignment) (v : Var.t) (word : string)
  (i j : nat) (c : ascii) :
  slot_letter v word i j = Some c ->
  (forall v' word', In (v', word') after -> slot_letter v' word' i j = None) ->
  last_letter (before ++ (v, word) :: after) i j = Some c.
Proof.
  induction after as [|[v' w'] after IH] using rev_ind; intros Hc Hafter.
  - now rewrite last_letter_snoc, Hc.
  - change (before ++ (v, word) :: after ++ [(v', w')])
      with (before ++ ((v, word) :: after) ++ [(v', w')]).
    rewrite app_assoc, last_letter_snoc.
    rewrite (Hafter v' w') by (apply in_or_app; simpl; auto).
    apply IH; [exact Hc|].
    intros v2 w2 Hin. apply Hafter. apply in_or_app. now left.
Qed.

(** X15: When the slot of every entry of the assignment lies inside the
    grid, [letter_grid] returns an array of [height] rows of [width] cells
    in which a cell that no slot passes through is [None] and any other
    cell holds the letter of the last entry of the assignment whose slot
    passes through it: where two words cross with different letters, the
    later entry overwrites the earlier one. *)
Theorem letter_grid_last_entry_wins (g : Grid) (assignment : Assignment) :
  forallb (fun '(v, word) => slot_inside g v word) assignment = true ->
  exists letters,
    letter_grid g assignment = Ok letters /\
    List.length letters = height g /\
    Forall (fun row => List.length row = width g) letters /\
    forall i j,
      ((forall v word, In (v, word) assignment ->
                       slot_letter v word i j = None) ->
       cell letters i j = None) /\
      (forall before v word after c,
          assignment = before ++ (v, word) :: after ->
          slot_letter v word i j = Some c ->
          (forall v' word', In (v', word') after ->
                            slot_letter v' word' i j = None) ->
          cell letters i j = Some c).
Proof.
  intros Hall.
  destruct (letter_grid_inside g assignment Hall) as [letters [E [[Hh Hw] Hc]]].
  exists letters. repeat split; auto.
  - intros Hnone. rewrite Hc. now apply last_letter_none.
  - intros before v word after c -> Hsome Hafter. rewrite Hc.
    now apply last_letter_last.
Qed.

Lemma letter_grid_last_entry_wins_witness :
  exists letters,
    letter_grid (mkGrid 3 3 []) [(elbowC, "TOE"); (elbowA, "CAN")]
    = Ok letters /\
    cell letters 0 2 = Some "N"%char /\ cell letters 1 0 = None.
Proof.
  destruct (letter_grid_last_entry_wins (mkGrid 3 3 [])
              [(elbowC, "TOE"); (elbowA, "CAN")] eq_refl)
    as [letters [E [_ [_ Hc]]]].
  exists letters. split; [exact E|]. split.
  - apply (proj2 (Hc 0 2) [(elbowC, "TOE")] elbowA "CAN" [] "N"%char);
      [reflexivity | reflexivity | intros ? ? []].
  - apply (proj1 (Hc 1 0)).
    intros v word [[= <- <-] | [[= <- <-] | []]]; reflexivity.
Defined.

(** X16: [letter_grid] raises [IndexError] as soon as the assignment has
    an entry whose slot, filled with its word, leaves the grid: the word is
    longer than the room the grid has from the start of the slot, or the
    slot starts outside the grid. *)
Theorem letter_grid_raises_IndexError (g : Grid) (assignment : Assignment)
  (v : Var.t) (word : string) :
  In (v, word) assignment -> slot_inside g v word = false ->
  letter_grid g assignment = Raise IndexError.
Proof. apply letter_grid_outside. Qed.

Lemma letter_grid_raises_IndexError_witness :
  letter_grid banner [(bannerA, "CATS")] = Raise IndexError.
Proof.
  apply (letter_grid_raises_IndexError banner [(bannerA, "CATS")]
           bannerA "CATS"); [now left | reflexivity].
Defined.


(** A loop whose body only writes has written, in order, what each round
    writes. *)
Lemma for_out_writes {A} (f : A -> list pychar) (l : list A)
  (body : A -> out unit) :
  (forall a text, In a l -> body a text = (text ++ f a, Ok tt)) ->
  forall text, for_out l body text = (text ++ flat_map f l, Ok tt).
Proof.
  induction l as [|a l IH]; intros Hb text; simpl.
  - unfold lift. now rewrite app_nil_r.
  - unfold bind_out. rewrite (Hb a text (or_introl eq_refl)).
    rewrite IH by (intros; apply Hb; now right).
    now rewrite <- app_assoc.
Qed.

Lemma flat_map_chunks_length {A} (f : nat -> list A) (m s n : nat) :
  (forall i, List.length (f i) = m) ->
  List.length (flat_map f (seq s n)) = n * m.
Proof.
  intros Hf. revert s. induction n as [|n IH]; intros s; simpl; [reflexivity|].
  now rewrite length_app, Hf, IH.
Qed.

Lemma nth_error_flat_map_chunks {A} (f : nat -> list A) (m s n i k : nat) :
  (forall i, List.length (f i) = m) -> i < n -> k < m ->
  nth_error (flat_map f (seq s n)) (i * m + k) = nth_error (f (s + i)) k.
Proof.
  intros Hf. revert s i. induction n as [|n IH]; intros s i Hi Hk; [lia|].
  simpl. destruct i as [|i].
  - simpl. rewrite Nat.add_0_r. apply nth_error_app1. now rewrite Hf.
  - rewrite nth_error_app2 by (rewrite Hf; simpl; lia).
    rewrite Hf. replace (S i * m + k - m) with (i * m + k) by (simpl; lia).
    rewrite IH by lia. f_equal. f_equal. lia.
Qed.

Lemma list_index_nth {A} (l : list A) (n : nat) (d : A) :
  n < List.length l -> list_index l n = Ok (nth n l d).
Proof.
  intros H. unfold list_index. now rewrite (nth_error_nth' l d H).
Qed.

Lemma shaped_row {A} (g : Grid) (rows : list (list A)) (i : nat) :
  shaped g rows -> i < height g ->
  List.length (nth i rows []) = width g.
Proof.
  intros [Hh Hw] Hi.
  apply (proj1 (Forall_forall _ _) Hw). apply nth_In. lia.
Qed.

Lemma cell_nth {A} (g : Grid) (rows : list (list (option A))) (i j : nat) :
  shaped g rows -> i < height g -> j < width g ->
  cell rows i j = nth j (nth i rows []) None.
Proof.
  intros Hs Hi Hj. unfold cell.
  rewrite (nth_error_nth' rows []) by (destruct Hs; lia).
  now rewrite (nth_error_nth' _ None)
    by (rewrite (shaped_row g rows i Hs Hi); exact Hj).
Qed.

(** [print] on a grid whose structure has the size of the grid, once
    [letter_grid] has returned. *)
Lemma print_text (g : Grid) (assignment : Assignment) (letters : Letters)
  (before : list pychar) :
  shaped g (structure g) -> shaped g letters ->
  letter_grid g assignment = Ok letters ->
  print g assignment before
  = (before
       ++ flat_map (fun i => map (shown_cell g letters i) (seq 0 (width g))
                             ++ [newline])
            (seq 0 (height g)),
     Ok tt).
Proof.
  intros Hst Hl E. unfold print. unfold bind_out at 1, lift at 1. rewrite E.
  apply for_out_writes. intros i text Hi.
  apply in_seq in Hi. destruct Hi as [_ Hi]. simpl in Hi.
  unfold bind_out at 1.
  rewrite (for_out_writes (fun j => [shown_cell g letters i j])).
  - assert (Hmap : forall l,
               flat_map (fun j => [shown_cell g letters i j]) l
               = map (shown_cell g letters i) l).
    { induction l as [|j l IH]; simpl; [reflexivity | now rewrite IH]. }
    unfold write. now rewrite <- app_assoc, Hmap.
  - intros j text' Hj. apply in_seq in Hj. destruct Hj as [_ Hj]. simpl in Hj.
    unfold bind_out at 1, lift at 1.
    rewrite (list_index_nth (structure g) i []) by (destruct Hst; lia).
    cbn [bind].
    rewrite (list_index_nth _ j false)
      by (rewrite (shaped_row g _ i Hst Hi); exact Hj).
    unfold shown_cell. rewrite (cell_nth g letters i j Hl Hi Hj).
    destruct (nth j (nth i (structure g) []) false); [|reflexivity].
    unfold bind_out, lift.
    rewrite (list_index_nth letters i []) by (destruct Hl; lia).
    cbn [bind].
    rewrite (list_index_nth _ j None)
      by (rewrite (shaped_row g _ i Hl Hi); exact Hj).
    reflexivity.
Qed.

(** X17: On a grid whose structure has [height] rows of [width] cells,
    and with every assigned slot inside the grid, [print] returns after
    writing [height] lines of [width] characters, each followed by a
    newline.  The character for the cell [(i, j)] is the full block when
    the cell is blocked, whatever the assignment says; otherwise it is the
    letter [letter_grid] has there, or a space when it has none. *)
Theorem print_writes_the_grid (g : Grid) (assignment : Assignment)
  (before : list pychar) :
  shaped g (structure g) ->
  forallb (fun '(v, word) => slot_inside g v word) assignment = true ->
  exists letters shown,
    letter_grid g assignment = Ok letters /\
    print g assignment before = (before ++ shown, Ok tt) /\
    List.length shown = height g * (width g + 1) /\
    forall i, i < height g ->
      nth_error shown (i * (width g + 1) + width g) = Some newline /\
      forall j, j < width g ->
        nth_error shown (i * (width g + 1) + j)
        = Some (if nth j (nth i (structure g) []) false
                then match cell letters i j with
                     | Some c => Chr c
                     | None => space
                     end
                else FullBlock).
Proof.
  intros Hst Hall.
  destruct (letter_grid_inside g assignment Hall) as [letters [E [Hl _]]].
  exists letters. eexists. split; [exact E|].
  split; [exact (print_text g assignment letters before Hst Hl E)|].
  assert (Hlen : forall i,
             List.length (map (shown_cell g letters i) (seq 0 (width g))
                          ++ [newline]) = width g + 1).
  { intros i. now rewrite length_app, length_map, length_seq. }
  split; [exact (flat_map_chunks_length _ _ 0 _ Hlen)|].
  intros i Hi. split.
  - rewrite (nth_error_flat_map_chunks _ _ 0 _ i (width g) Hlen Hi)
      by lia.
    rewrite nth_error_app2 by (rewrite length_map, length_seq; lia).
    rewrite length_map, length_seq, Nat.sub_diag. reflexivity.
  - intros j Hj.
    rewrite (nth_error_flat_map_chunks _ _ 0 _ i j Hlen Hi) by lia.
    rewrite nth_error_app1 by (rewrite length_map, length_seq; lia).
    rewrite nth_error_map, nth_error_nth' with (d := 0)
      by (rewrite length_seq; lia).
    rewrite seq_nth by lia. reflexivity.
Qed.

Lemma print_writes_the_grid_witness :
  exists letters shown,
    letter_grid banner [(bannerA, "CAT")] = Ok letters /\
    print banner [(bannerA, "CAT")] [] = ([] ++ shown, Ok tt) /\
    List.length shown = 2 * (3 + 1) /\
    forall i, i < 2 ->
      nth_error shown (i * (3 + 1) + 3) = Some newline /\
      forall j, j < 3 ->
        nth_error shown (i * (3 + 1) + j)
        = Some (if nth j (nth i (structure banner) []) false
                then match cell letters i j with
                     | Some c => Chr c
                     | None => space
                     end
                else FullBlock).
Proof.
  apply (print_writes_the_grid banner [(bannerA, "CAT")] []).
  - split; [reflexivity|]. repeat constructor.
  - reflexivity.
Defined.

(** X18: When an entry of the assignment has a slot that leaves the grid,
    [print] raises [IndexError] before it has written anything: the grid is
    not printed up to the offending cell. *)
Theorem print_raises_before_writing (g : Grid) (assignment : Assignment)
  (v : Var.t) (word : string) (before : list pychar) :
  In (v, word) assignment -> slot_inside g v word = false ->
  print g assignment before = (before, Raise IndexError).
Proof.
  intros Hin Hout. unfold print, bind_out, lift.
  now rewrite (letter_grid_outside g assignment v word Hin Hout).
Qed.

Lemma print_raises_before_writing_witness :
  print banner [(bannerA, "CATS")] [] = ([], Raise IndexError).
Proof.
  apply (print_raises_before_writing banner [(bannerA, "CATS")]
           bannerA "CATS" []); [now left | reflexivity].
Defined.


(** ** A solver can be used once *)

(** The domains [enforce_node_consistency] builds, entry by entry. *)
Lemma enforce_node_consistency_domain st v :
  NoDup (keys (domains st)) ->
  dict_get v (domains (enforce_node_consistency st))
  = option_map
      (fun words =>
         fold_left
           (fun s word =>
              if String.length word =? Var.length v
              then set_add String.eqb word s else s)
           words [])
      (dict_get v (domains st)).
Proof.
  intros Hnd. unfold enforce_node_consistency. simpl.
  rewrite (fold_dict_set_entries
             (fun var words =>
                fold_left
                  (fun s word =>
                     if String.length word =? Var.length var
                     then set_add String.eqb word s else s)
                  words [])) by (auto; intros k _ []).
  simpl. now rewrite dict_get_map_entries.
Qed.

(** On node-consistent domains [enforce_node_consistency] changes no
    domain's members. *)
Lemma enforce_node_consistency_members st v words' :
  NoDup (keys (domains st)) -> node_consistent (domains st) ->
  dict_get v (domains (enforce_node_consistency st)) = Some words' ->
  exists words,
    dict_get v (domains st) = Some words /\
    forall w, In w words' <-> In w words.
Proof.
  intros Hnd Hn E. rewrite enforce_node_consistency_domain in E by exact Hnd.
  destruct (dict_get v (domains st)) as [words|] eqn:Hd; [|discriminate].
  injection E as <-. exists words. split; [reflexivity|].
  intros w. rewrite node_filter_In_iff. simpl. split.
  - intros [[] | [H _]]. exact H.
  - intros H. right. split; [exact H|]. exact (Hn v words w Hd H).
Qed.

Lemma all_arcs_keys st st' :
  keys (domains st) = keys (domains st') -> all_arcs st = all_arcs st'.
Proof. intros H. unfold all_arcs. now rewrite H. Qed.

(** With no variable left to select, [backtrack] looks up the domain of
    the placeholder ['x']. *)
Lemma backtrack_no_variable overlaps fuel assignment st st1 :
  assignment_complete assignment st = false ->
  select_unassigned_variable overlaps assignment st = Ok (None, st1) ->
  backtrack overlaps (S fuel) assignment st = Raise KeyError.
Proof.
  intros Hc Hs. simpl. rewrite Hc, Hs. reflexivity.
Qed.

Section SolveAgain.
Variable overlaps : Var.t -> Var.t -> option (option (nat * nat)).
Variable vars : list Var.t.
Hypothesis Hnodup : NoDup vars.
Hypothesis Hrange : overlaps_in_range overlaps.

(** A search that had a variable to assign and returned an assignment
    leaves in the crossword's variable set the variable it assigned last
    and nothing else. *)
Lemma backtrack_leaves_last_variable fuel :
  forall a st r a' st',
    state_wf vars st -> assignment_wf vars st a -> NoDup (variables st) ->
    assignment_complete a st = false ->
    backtrack overlaps fuel a st = Ok (PyDict r, a', st') ->
    domains st' = domains st /\ exists x, variables st' = [x] /\ In x vars.
Proof.
  induction fuel as [|fuel IH]; intros a st r a' st' Hst Ha Hnv Hc E;
    [discriminate|].
  pose proof Hst as [K [V N]]. pose proof Ha as [A1 [A2 [A3 A4]]].
  assert (Hkeys : incl (variables st) (keys (domains st))) by now rewrite K.
  destruct (select_unassigned_variable_total overlaps Hrange st Hkeys N a)
    as [r0 [Es Hr]].
  pose proof (assignment_incomplete_unassigned vars Hnodup st a Hst Ha Hc) as Hne.
  set (st1 := {| variables := filter (fun v => negb (dict_mem v a)) (variables st);
                 domains := domains st |}) in *.
  destruct r0 as [var|]; [|simpl in Hr; contradiction].
  destruct Hr as [Hvar _].
  pose proof Hvar as Hvar'. simpl in Hvar'. apply filter_In in Hvar'.
  destruct Hvar' as [Hin Hun]. apply negb_true_iff in Hun.
  destruct (proj1 (dict_get_keys var (domains st)) (Hkeys _ Hin))
    as [domVar Hdom].
  assert (Hkeys1 : incl (variables st1) (keys (domains st1))).
  { intros v Hv. simpl in Hv. apply filter_In in Hv. apply Hkeys, Hv. }
  destruct (order_domain_values_total overlaps Hrange st1 Hkeys1 N var a domVar Hdom)
    as [values [Eo Hp]].
  destruct values as [|value values].
  { rewrite (backtrack_no_candidate _ _ _ _ _ _ Hc Es Eo) in E. discriminate. }
  rewrite (backtrack_first_candidate _ _ _ _ _ _ _ _ Hc Es Eo) in E.
  assert (Hval : In value domVar).
  { apply Permutation_in with (l := value :: values); simpl; auto. }
  destruct (search_step_wf vars st a var value domVar Hst Ha Hin Hun
              Hdom Hval) as [Hst1 Ha1].
  fold st1 in Hst1, Ha1.
  assert (Hnv1 : NoDup (variables st1)) by (simpl; now apply NoDup_filter).
  destruct (assignment_complete (dict_set var value a) st1) eqn:Hc1.
  - destruct fuel as [|fuel]; [discriminate|].
    simpl in E. rewrite Hc1 in E. injection E as _ _ <-.
    split; [reflexivity|].
    assert (Hnew : ~ In var (keys a)).
    { intros H. apply dict_mem_keys in H. congruence. }
    unfold assignment_complete in Hc1. rewrite dict_set_new in Hc1 by exact Hnew.
    simpl in Hc1. rewrite K in Hc1. unfold keys in Hc1.
    rewrite map_app, length_app in Hc1. simpl in Hc1. fold (keys a) in Hc1.
    destruct (List.length (keys a) + 1 =? List.length vars) eqn:El;
      [|discriminate].
    apply Nat.eqb_eq in El.
    set (U := filter (fun v => negb (dict_mem v a)) (variables st)) in *.
    assert (HndU : NoDup (U ++ keys a)).
    { apply NoDup_app; auto.
      intros x Hx Hk. apply filter_In in Hx. destruct Hx as [_ Hx].
      apply negb_true_iff in Hx. apply dict_mem_keys in Hk. congruence. }
    assert (Hin1 : incl (U ++ keys a) vars).
    { intros x Hx. apply in_app_or in Hx. destruct Hx as [Hx | Hx]; auto.
      apply filter_In in Hx. apply V, Hx. }
    assert (Hin2 : incl vars (U ++ keys a)).
    { intros x Hx. apply in_or_app.
      destruct (dict_mem x a) eqn:Em.
      - right. now apply dict_mem_keys.
      - left. destruct (A3 x Hx) as [Hv | Hv]; [|congruence].
        apply filter_In. split; auto. now rewrite Em. }
    pose proof (NoDup_incl_length HndU Hin1) as L1.
    pose proof (NoDup_incl_length Hnodup Hin2) as L2.
    rewrite length_app in L1, L2.
    assert (HU : List.length U = 1) by lia.
    simpl. fold U.
    destruct U as [|x [|x' U]]; simpl in HU; try lia.
    exists x. split; [reflexivity|]. apply Hin1. now left.
  - destruct (IH _ _ _ _ _ Hst1 Ha1 Hnv1 Hc1 E) as [Hd Hx].
    split; [exact Hd | exact Hx].
Qed.

End SolveAgain.

(** X19: A solver can be used once.  When [solve] has returned an
    assignment for a well-formed crossword of two variables or more, the
    crossword's variable set is left with one variable, and a second call
    of [solve] on the same solver raises [KeyError]: the search assigns
    that variable, finds none to select next, and looks up the domain of
    the placeholder ['x']. *)
Theorem solve_again_raises_KeyError overlaps vars words fuel a st' fuel' :
  NoDup vars ->
  2 <= List.length vars ->
  overlaps_symmetric overlaps ->
  overlaps_in_range overlaps ->
  overlaps_defined overlaps vars ->
  solve overlaps fuel (init vars words) = Ok (PyDict a, st') ->
  enough_fuel (init vars words) <= fuel' ->
  solve overlaps fuel' st' = Raise KeyError.
Proof.
  intros Hnd Hlen Hsym Hrange Hdef E Hfuel. unfold enough_fuel in Hfuel.
  destruct (preprocessed_state vars words Hnd) as [V1 [K1 N1]].
  unfold solve in E.
  set (st1 := enforce_node_consistency (init vars words)) in *.
  assert (Hst1 : state_wf vars st1).
  { split; [exact K1|]. split; [|exact N1]. rewrite V1. apply incl_refl. }
  destruct (ac3 overlaps fuel None st1) as [[b st2]| |] eqn:Eac3;
    cbn [bind] in E; try discriminate.
  destruct (backtrack overlaps fuel [] st2) as [[[r a'] st'']| |] eqn:Eb;
    cbn [bind] in E; try discriminate.
  injection E as -> ->.
  unfold ac3 in Eac3.
  pose proof (ac3_while_shrinks _ _ _ _ _ _ Eac3) as [Hs Hb].
  pose proof (state_wf_shrinks vars _ _ Hst1 Hs) as Hst2.
  pose proof Hst2 as [K2 [_ N2]].
  assert (V2 : variables st2 = vars) by (destruct Hs as [V2 _]; congruence).
  assert (Ha : assignment_wf vars st2 []).
  { split; [constructor|]. split; [intros v []|]. split; [|intros v w []].
    intros v Hv. left. now rewrite V2. }
  (* every variable has a word left *)
  assert (Hpos : forall v, In v vars -> dict_get v (domains st2) <> Some []).
  { intros v Hv Hd.
    assert (Hr : PyDict a = PyNone); [|discriminate].
    apply (backtrack_fails_iff overlaps vars Hnd Hrange fuel _ _ _ _ _
             Hst2 Ha Eb).
    exists v. rewrite V2. auto. }
  (* so [ac3] returned [True] and every arc is consistent *)
  assert (b = true) as ->.
  { destruct b; [reflexivity|]. destruct (Hb eq_refl) as [x Hx].
    exfalso. apply (Hpos x); [|exact Hx].
    rewrite <- K2. apply dict_get_keys. eauto. }
  assert (Harc : forall x y, In x vars -> In y vars -> x <> y ->
                             arc_consistent overlaps st2 x y).
  { intros x y Hx Hy Hxy.
    destruct (ac3_while_inv overlaps Hsym (keys (domains st1)) fuel
                (all_arcs st1) st1 st2) as [_ [_ [_ I]]]; auto.
    - split; [now rewrite V1, K1|]. split; [reflexivity|]. split.
      + rewrite K1. now apply all_arcs_wf.
      + intros u w Hu Hw Huw. left. now apply all_arcs_complete.
    - rewrite K1 in I. destruct (I x y Hx Hy Hxy) as [[] | H]. exact H. }
  (* the first call leaves one variable in the crossword *)
  assert (Hc0 : assignment_complete [] st2 = false).
  { unfold assignment_complete. rewrite K2. simpl.
    destruct vars as [|v0 vars0]; simpl in *; [lia | reflexivity]. }
  destruct (backtrack_leaves_last_variable overlaps vars Hnd Hrange fuel
              [] st2 a a' st' Hst2 Ha) as [Hd [x [Vx Hx]]]; auto.
  { now rewrite V2. }
  assert (K' : keys (domains st') = vars) by now rewrite Hd.
  (* the second call: node consistency changes no member *)
  destruct (enforce_node_consistency_spec st') as [Ve [Ke Ne]];
    [now rewrite K'|].
  pose proof (fun v words' =>
                enforce_node_consistency_members st' v words') as Hmem0.
  remember (enforce_node_consistency st') as se eqn:Ese.
  rewrite Vx in Ve. rewrite K' in Ke.
  assert (Hse : state_wf vars se).
  { split; [exact Ke|]. split; [|exact Ne].
    rewrite Ve. intros v [<- | []]. exact Hx. }
  assert (Hmem : forall v words',
             dict_get v (domains se) = Some words' ->
             exists words, dict_get v (domains st2) = Some words /\
                           forall w, In w words' <-> In w words).
  { intros v words' Hv. rewrite <- Hd.
    apply Hmem0; auto.
    - now rewrite K'.
    - now rewrite Hd. }
  assert (Harc' : forall u w, In u vars -> In w vars -> u <> w ->
                              arc_consistent overlaps se u w).
  { intros u w Hu Hw Huw o0 o1 domX domY Ho HdX HdY wx Hwx.
    destruct (Hmem u domX HdX) as [domX2 [HdX2 HmX]].
    destruct (Hmem w domY HdY) as [domY2 [HdY2 HmY]].
    destruct (Harc u w Hu Hw Huw o0 o1 domX2 domY2 Ho HdX2 HdY2 wx)
      as [wy [c [Hwy [G1 G2]]]]; [now apply HmX|].
    exists wy, c. split; [now apply HmY | auto]. }
  (* arc consistency changes nothing *)
  assert (Eac3' : ac3 overlaps fuel' None se = Ok (true, se)).
  { unfold ac3. apply ac3_while_unchanged.
    - intros u w Hin.
      destruct (all_arcs_wf vars se Hse u w Hin) as [Hu [Hw Huw]].
      destruct (revise_returns overlaps vars Hrange Hdef u w se Hse Hu Hw Huw)
        as [b [st3 Er]].
      destruct (revise_consistent_unchanged _ _ _ _ _ _
                  (Harc' u w Hu Hw Huw) Er) as [-> ->].
      exact Er.
    - rewrite (all_arcs_keys se st1) by (rewrite Ke, K1; reflexivity).
      unfold ac3_measure in Hfuel.
      set (m := total_size _ * _) in Hfuel.
      apply Nat.lt_le_incl, Nat.lt_le_trans with (2 := Hfuel).
      apply Nat.lt_succ_r.
      apply Nat.le_trans with (m + List.length (all_arcs st1));
        [apply Nat.le_add_l | apply Nat.le_add_r]. }
  (* the search assigns the variable that is left, then selects ['x'] *)
  assert (Eb' : backtrack overlaps fuel' [] se = Raise KeyError).
  { unfold ac3_measure in Hfuel. set (m := total_size _ * _) in Hfuel.
    rewrite V1 in Hfuel.
    destruct fuel' as [|[|f]]; [lia | lia |].
    assert (Hce : assignment_complete [] se = false).
    { unfold assignment_complete. rewrite Ke. simpl.
      destruct vars as [|v0 vars0]; simpl in *; [lia | reflexivity]. }
    assert (Hkeys : incl (variables se) (keys (domains se))).
    { rewrite Ke, Ve. intros v [<- | []]. exact Hx. }
    destruct (select_unassigned_variable_total overlaps Hrange se Hkeys Ne [])
      as [r0 [Es Hr]].
    rewrite Ve in Es, Hr. simpl in Es, Hr.
    destruct r0 as [var|]; [|discriminate].
    destruct Hr as [[<- | []] _].
    set (s1 := {| variables := [x]; domains := domains se |}) in *.
    destruct (proj1 (dict_get_keys x (domains se))) as [domX HdX];
      [now rewrite Ke|].
    assert (Hkeys1 : incl (variables s1) (keys (domains s1))).
    { simpl. rewrite Ke. intros v [<- | []]. exact Hx. }
    destruct (order_domain_values_total overlaps Hrange s1 Hkeys1 Ne x []
                domX HdX) as [values [Eo Hp]].
    destruct values as [|value values].
    { exfalso. apply Permutation_nil in Hp. subst domX.
      destruct (Hmem x [] HdX) as [domX2 [HdX2 HmX]].
      destruct domX2 as [|w0 domX2]; [exact (Hpos x Hx HdX2)|].
      apply (HmX w0). now left. }
    rewrite (backtrack_first_candidate _ _ _ _ _ _ _ _ Hce Es Eo).
    assert (Hc1 : assignment_complete (dict_set x value []) s1 = false).
    { unfold assignment_complete. simpl. rewrite Ke.
      destruct vars as [|v0 [|v1 vars0]]; simpl in *; try lia;
        try reflexivity. }
    destruct (select_unassigned_variable_total overlaps Hrange s1 Hkeys1 Ne
                (dict_set x value [])) as [r1 [Es1 Hr1]].
    assert (Hnone : filter (fun v => negb (dict_mem v (dict_set x value [])))
                      (variables s1) = []).
    { simpl. unfold dict_mem. simpl. now rewrite Var_eqb_refl. }
    rewrite Hnone in Es1, Hr1.
    destruct r1 as [v|]; [simpl in Hr1; destruct Hr1 as [[] _]|].
    exact (backtrack_no_variable _ _ _ _ _ Hc1 Es1). }
  unfold solve. rewrite <- Ese, Eac3'. cbn [bind]. now rewrite Eb'.
Qed.

(** [solve_again_raises_KeyError] on the five-slot grid: the first call
    returns an assignment, the second raises. *)
Lemma solve_again_raises_KeyError_witness :
  let vars := [gA; gB; gC; gD; gE] in
  let words := ["CAT"; "HORSE"; "TOE"; "TEN"; "OAK"; "OWL"; "SUN"; "SKY"] in
  exists a st',
    solve grid_overlaps 200 (init vars words) = Ok (PyDict a, st') /\
    solve grid_overlaps 200 st' = Raise KeyError.
Proof.
  intros vars words.
  destruct (solve grid_overlaps 200 (init vars words)) as [[[| |a] st']| |]
    eqn:E; try (vm_compute in E; discriminate).
  exists a, st'. split; [reflexivity|].
  apply (solve_again_raises_KeyError grid_overlaps vars words 200 a st' 200).
  - exact grid_variables_NoDup.
  - simpl. lia.
  - exact grid_overlaps_symmetric.
  - exact grid_overlaps_in_range.
  - exact grid_overlaps_defined.
  - exact E.
  - vm_compute. repeat constructor.
Defined.


(** ** Counting the entries of an assignment *)

(** X20: [assignment_complete] only compares the number of entries of the
    assignment with the number of variables that have a domain.  For an
    assignment that binds variables of the crossword only, that is the
    same as every variable having an entry. *)
Theorem assignment_complete_iff_all_assigned (assignment : Assignment)
  (st : State) :
  NoDup (keys assignment) ->
  NoDup (keys (domains st)) ->
  incl (keys assignment) (keys (domains st)) ->
  (assignment_complete assignment st = true <->
   forall v, In v (keys (domains st)) -> dict_mem v assignment = true).
Proof.
  intros Ha Hd Hincl. unfold assignment_complete.
  destruct (Nat.eqb_spec (List.length (keys assignment))
              (List.length (keys (domains st)))) as [E | E].
  - split; [|reflexivity]. intros _ v Hv. apply dict_mem_keys.
    assert (H : incl (keys (domains st)) (keys assignment))
      by (apply (NoDup_length_incl Ha); [lia | exact Hincl]).
    now apply H.
  - split; [discriminate|]. intros Hall. exfalso. apply E.
    apply Nat.le_antisymm; [exact (NoDup_incl_length Ha Hincl)|].
    apply (NoDup_incl_length Hd). intros v Hv.
    apply dict_mem_keys. now apply Hall.
Qed.

Lemma assignment_complete_iff_all_assigned_witness :
  assignment_complete [(crossX, "CAT")] corner_state = true <->
  forall v, In v (keys (domains corner_state)) ->
            dict_mem v [(crossX, "CAT")] = true.
Proof.
  apply (assignment_complete_iff_all_assigned [(crossX, "CAT")] corner_state).
  - repeat constructor. simpl. tauto.
  - repeat constructor; simpl; intuition discriminate.
  - intros v [<- | []]. simpl. now left.
Defined.
